(** * Chess Introvert: [script.js]

    A shallow embedding of [script.js]: the board of single-character
    cells, the validating executor [makeMoveIfLegal] with the undo and
    restart handlers, the material evaluator, the pseudo-legal move
    generator, the depth-limited alpha-beta search, and the page around
    them (the click handler of a square, the rendering of the board and of
    the move list, the timer text, the difficulty table and [aiMove]).

    Conventions of the embedding.
    - A cell is the one-character string of the source, an [ascii]; a side
      is the character ['w'] or ['b'].  [toUpperCase] and [toLowerCase] are
      the ASCII case maps, which is what the JavaScript methods are on the
      thirteen characters a board of this program can hold.
    - Coordinates are JavaScript numbers holding integers: [Z].
    - An array read out of range is [undefined]: [None].  A property read
      or a method call on [undefined] raises a [TypeError].
    - The module-level variables [board], [moves], [sideToMove] and
      [moveList] are one record, threaded through [makeMoveIfLegal] and
      the undo handler.  The history holds coordinates and characters, no
      reference into the board, so the live board is a value there.
    - The search works on references: boards are arrays of row arrays on a
      heap, [cloneBoard] allocates, and the two writes of
      [makeMoveOnBoard] are writes into the heap.
    - [performance.now()] is the [k]-th value of a clock given from
      outside, in milliseconds; every read advances [k].
    - The scores are the integers with [-Infinity] and [+Infinity].
    - Of the document the page keeps what the script writes and reads
      back: the squares under [boardEl] in document order, the entries of
      [movesEl] and the text of [timerEl].  A pending
      [setTimeout(aiMove)] is a count; the value of the difficulty select
      and the result of [Math.random()] come from outside.
    - Audio is not part of the model: [playSound] catches what it could
      throw and writes none of the variables above. *)

From Stdlib Require Import ZArith List Ascii String Bool Lia.
From Stdlib Require Import DecimalString DecimalFacts DecimalZ QArith Qround.
From stdpp Require Import base option list.

Local Open Scope char_scope.
Local Open Scope Z_scope.

(** ** Characters *)

Module Chars.

Definition toUpperCase (p : ascii) : ascii :=
  let n := N_of_ascii p in
  if ((97 <=? n) && (n <=? 122))%N then ascii_of_N (n - 32) else p.

Definition toLowerCase (p : ascii) : ascii :=
  let n := N_of_ascii p in
  if ((65 <=? n) && (n <=? 90))%N then ascii_of_N (n + 32) else p.

(** The thirteen cell values of [initialBoard]. *)
Definition isPieceLetter (p : ascii) : bool :=
  existsb (Ascii.eqb p)
    ["P"; "N"; "B"; "R"; "Q"; "K"; "p"; "n"; "b"; "r"; "q"; "k"].

Definition isCellValue (p : ascii) : bool :=
  Ascii.eqb p "." || isPieceLetter p.

End Chars.
Export Chars.

Infix "=c?" := Ascii.eqb (at level 70, no associativity).

(** ** Boards *)

Abbreviation board := (list (list ascii)).

Record move := Move { from : Z * Z; to : Z * Z }.

Definition move_eqb (a b : move) : bool :=
  (fst (from a) =? fst (from b)) && (snd (from a) =? snd (from b)) &&
  (fst (to a) =? fst (to b)) && (snd (to a) =? snd (to b)).

(** [a[i]] for a JavaScript array and an integer [i]. *)
Definition idx {A : Type} (a : list A) (i : Z) : option A :=
  if 0 <=? i then a !! Z.to_nat i else None.

(** [boardState[r][c]] where the read is guarded by the caller
    ([inRange], or a loop over 0..7): the character stored there.  On an
    8x8 board it is the JavaScript read [index2] ([index2_onBoard]). *)
Definition cell (b : board) (r c : Z) : ascii :=
  match idx b r with
  | Some row => match idx row c with Some p => p | None => "." end
  | None => "."
  end.

(** [a[i] = v] for an index inside the array (the only writes this
    program makes); outside, the model leaves the array as it is. *)
Definition upd {A : Type} (a : list A) (i : Z) (v : A) : list A :=
  if 0 <=? i then <[Z.to_nat i := v]> a else a.

(** [b[r][c] = v] on a board value. *)
Definition setCell (b : board) (r c : Z) (v : ascii) : board :=
  match idx b r with
  | Some row => upd b r (upd row c v)
  | None => b
  end.

Definition range8 : list Z := [0; 1; 2; 3; 4; 5; 6; 7].

Definition rowOfString (s : string) : list ascii := list_ascii_of_string s.

Definition initialBoard : board :=
  map rowOfString
    ["rnbqkbnr"; "pppppppp"; "........"; "........";
     "........"; "........"; "PPPPPPPP"; "RNBQKBNR"]%string.

(** An 8x8 grid of cell values. *)
Definition wf_board (b : board) : bool :=
  (length b =? 8)%nat &&
  forallb (fun row => (length row =? 8)%nat && forallb isCellValue row) b.

(** ** Evaluator *)

Definition values (t : ascii) : option Z :=
  if t =c? "p" then Some 100
  else if t =c? "n" then Some 320
  else if t =c? "b" then Some 330
  else if t =c? "r" then Some 500
  else if t =c? "q" then Some 900
  else if t =c? "k" then Some 20000
  else None.

Definition evaluateCell (score : Z) (p : ascii) : Z :=
  if p =c? "." then score
  else
    let v := match values (toLowerCase p) with Some x => x | None => 0 end in
    score + (if p =c? toLowerCase p then - v else v).

Definition evaluateBoardSimple (boardState : board) : Z :=
  fold_left
    (fun score r =>
       fold_left (fun score c => evaluateCell score (cell boardState r c))
         range8 score)
    range8 0.

(** ** Move generator *)

Definition inRange (x : Z) : bool := (0 <=? x) && (x <? 8).

Definition pieceColor (p : ascii) : ascii :=
  if p =c? toUpperCase p then "w" else "b".

Definition isOpposite (a b : ascii) : bool :=
  negb (pieceColor a =c? pieceColor b).

Definition mv (r c rr cc : Z) : move := Move (r, c) (rr, cc).

Definition pawnMoves (boardState : board) (r c : Z) (p : ascii)
    (isWhite : bool) : list move :=
  let dir := if isWhite then -1 else 1 in
  let nr := r + dir in
  (if inRange nr && (cell boardState nr c =c? ".")
   then [mv r c nr c] else [])
  ++ flat_map
       (fun dc =>
          let nc := c + dc in
          if inRange nr && inRange nc
             && negb (cell boardState nr nc =c? ".")
             && isOpposite (pieceColor p) (cell boardState nr nc)
          then [mv r c nr nc] else [])
       [-1; 1]
  ++ (if ((r =? 6) && isWhite) || ((r =? 1) && negb isWhite)
      then
        let rr := r + dir * 2 in
        if (cell boardState (r + dir) c =c? ".")
           && (cell boardState rr c =c? ".")
        then [mv r c rr c] else []
      else []).

Definition knightDeltas : list (Z * Z) :=
  [(1, 2); (2, 1); (-1, 2); (-2, 1); (1, -2); (2, -1); (-1, -2); (-2, -1)].

Definition stepMoves (boardState : board) (r c : Z) (p : ascii)
    (deltas : list (Z * Z)) : list move :=
  flat_map
    (fun d =>
       let rr := r + fst d in
       let cc := c + snd d in
       if negb (inRange rr) || negb (inRange cc) then []
       else
         let t2 := cell boardState rr cc in
         if (t2 =c? ".") || isOpposite (pieceColor p) t2
         then [mv r c rr cc] else [])
    deltas.

(** The [while (inRange(rr) && inRange(cc))] loop of a sliding piece.  The
    fuel bounds the number of iterations; eight is enough on the board,
    see [ray_fuel]. *)
Fixpoint ray (fuel : nat) (boardState : board) (r c : Z) (p : ascii)
    (d : Z * Z) (rr cc : Z) : list move :=
  match fuel with
  | O => []
  | S fuel' =>
      if inRange rr && inRange cc then
        let t2 := cell boardState rr cc in
        if t2 =c? "." then
          mv r c rr cc :: ray fuel' boardState r c p d (rr + fst d) (cc + snd d)
        else if isOpposite (pieceColor p) t2 then [mv r c rr cc] else []
      else []
  end.

Definition bishopDeltas : list (Z * Z) := [(1, 1); (1, -1); (-1, 1); (-1, -1)].
Definition rookDeltas : list (Z * Z) := [(1, 0); (-1, 0); (0, 1); (0, -1)].
Definition queenDeltas : list (Z * Z) := bishopDeltas ++ rookDeltas.

Definition slideMoves (boardState : board) (r c : Z) (p : ascii)
    (deltas : list (Z * Z)) : list move :=
  flat_map
    (fun d => ray 8 boardState r c p d (r + fst d) (c + snd d))
    deltas.

Definition kingDeltas : list (Z * Z) :=
  [(-1, -1); (-1, 0); (-1, 1); (0, -1); (0, 1); (1, -1); (1, 0); (1, 1)].

Definition movesFrom (boardState : board) (side : ascii) (r c : Z)
    : list move :=
  let p := cell boardState r c in
  if p =c? "." then []
  else
    let isWhite := p =c? toUpperCase p in
    if negb (Bool.eqb (side =c? "w") isWhite) then []
    else
      let t := toLowerCase p in
      if t =c? "p" then pawnMoves boardState r c p isWhite
      else if t =c? "n" then stepMoves boardState r c p knightDeltas
      else if (t =c? "b") || (t =c? "r") || (t =c? "q") then
        slideMoves boardState r c p
          (if t =c? "b" then bishopDeltas
           else if t =c? "r" then rookDeltas else queenDeltas)
      else if t =c? "k" then stepMoves boardState r c p kingDeltas
      else [].

Definition generateMovesForSide (boardState : board) (side : ascii)
    : list move :=
  flat_map
    (fun r => flat_map (fun c => movesFrom boardState side r c) range8)
    range8.

(** ** The live game: board, history and side to move *)

(** How a call ends.  [OutOfFuel] is the model giving up on a loop; it is
    shown not to happen ([isPathClear_loop_fuel]). *)
Inductive completion (A : Type) : Type :=
  | Normal (v : A)
  | TypeError
  | OutOfFuel.
Arguments Normal {A} v.
Arguments TypeError {A}.
Arguments OutOfFuel {A}.

(** An entry of [moves]: [{from, to, piece, captured, notation}]. *)
Record entry := Entry {
  e_from : Z * Z;
  e_to : Z * Z;
  e_piece : ascii;
  e_captured : ascii;
  e_notation : string
}.

(** The module-level variables [board], [moves], [sideToMove], [moveList]. *)
Record game := Game {
  g_board : board;
  g_moves : list entry;
  g_sideToMove : ascii;
  g_moveList : list string
}.

Definition initialGame : game := Game initialBoard [] "w" [].

(** Code that reads and writes the module-level variables and may throw. *)
Definition G (A : Type) : Type := game -> completion A * game.

Definition ret {A} (v : A) : G A := fun g => (Normal v, g).
Definition throw {A} : G A := fun g => (TypeError, g).
Definition bind {A B} (m : G A) (k : A -> G B) : G B :=
  fun g =>
    match m g with
    | (Normal v, g') => k v g'
    | (TypeError, g') => (TypeError, g')
    | (OutOfFuel, g') => (OutOfFuel, g')
    end.
Definition lift {A} (c : completion A) : G A := fun g => (c, g).
Definition getBoard : G board := fun g => (Normal (g_board g), g).
Definition getSide : G ascii := fun g => (Normal (g_sideToMove g), g).

Declare Scope game_scope.
Delimit Scope game_scope with game.
Notation "x <- m ;; k" := (bind m (fun x => k))
  (at level 100, m at next level, right associativity) : game_scope.

(** [board[r][c]]: a [TypeError] when [board[r]] is [undefined], and
    [undefined] ([None]) when only the column is out of range. *)
Definition index2 (b : board) (r c : Z) : completion (option ascii) :=
  match idx b r with
  | Some row => Normal (idx row c)
  | None => TypeError
  end.

(** [v === ch] for a value read from the board. *)
Definition isChar (v : option ascii) (ch : ascii) : bool :=
  match v with Some p => p =c? ch | None => false end.

Definition isPieceOwnedBySide (piece : option ascii) (side : ascii)
    : completion bool :=
  if isChar piece "." then Normal false
  else
    match piece with
    | Some p =>
        Normal (if side =c? "w" then p =c? toUpperCase p
                else p =c? toLowerCase p)
    | None => TypeError
    end.

Definition sign (x : Z) : Z := Z.sgn x.

Fixpoint isPathClear_loop (fuel : nat) (b : board) (dr dc r c tr tc : Z)
    : completion bool :=
  if negb (r =? tr) || negb (c =? tc) then
    match fuel with
    | O => OutOfFuel
    | S fuel' =>
        match index2 b r c with
        | Normal v =>
            if negb (isChar v ".") then Normal false
            else isPathClear_loop fuel' b dr dc (r + dr) (c + dc) tr tc
        | TypeError => TypeError
        | OutOfFuel => OutOfFuel
        end
    end
  else Normal true.

Definition isPathClear (fr fc tr tc : Z) : G bool :=
  fun g =>
    let dr := sign (tr - fr) in
    let dc := sign (tc - fc) in
    (isPathClear_loop 8 (g_board g) dr dc (fr + dr) (fc + dc) tr tc, g).

Definition files : string := "abcdefgh".
Definition ranks : string := "87654321".

(** [s[i]] inside a template literal. *)
Definition charAt (s : string) (i : Z) : string :=
  match (if 0 <=? i then String.get (Z.to_nat i) s else None) with
  | Some ch => String ch EmptyString
  | None => "undefined"
  end.

Definition notationForMove (fr fc tr tc : Z) (piece target : ascii) : string :=
  let from := (charAt files fc ++ charAt ranks fr)%string in
  let to := (charAt files tc ++ charAt ranks tr)%string in
  (String piece EmptyString ++ from ++ "-" ++ to ++
   (if negb (target =c? ".") then "x" else ""))%string.

Definition flipSide (side : ascii) : ascii :=
  if side =c? "w" then "b" else "w".

(** The block after the shape checks, from [// make move] to [return true]. *)
Definition commitMove (fr fc tr tc : Z) (piece target : ascii) : G bool :=
  fun g =>
    let moveNotation := notationForMove fr fc tr tc piece target in
    let b1 := setCell (g_board g) tr tc (cell (g_board g) fr fc) in
    let b2 := setCell b1 fr fc "." in
    (Normal true,
     Game b2
       (g_moves g ++ [Entry (fr, fc) (tr, tc) piece target moveNotation])
       (flipSide (g_sideToMove g))
       (g_moveList g ++ [moveNotation])).

Definition makeMoveIfLegal (move : move) : G bool :=
  (let '(fr, fc) := from move in
   let '(tr, tc) := to move in
   b <- getBoard ;;
   piece <- lift (index2 b fr fc) ;;
   if isChar piece "." then ret false else
   side <- getSide ;;
   owned <- lift (isPieceOwnedBySide piece side) ;;
   if negb owned then ret false else
   if (fr =? tr) && (fc =? tc) then ret false else
   target <- lift (index2 b tr tc) ;;
   match piece, target with
   | Some piece, Some target =>
     if negb (target =c? ".")
        && Bool.eqb (target =c? toUpperCase target) (piece =c? toUpperCase piece)
     then ret false else
     let t := toLowerCase piece in
     let commit := commitMove fr fc tr tc piece target in
     if t =c? "p" then
       let forward := if piece =c? "P" then -1 else 1 in
       if (fc =? tc) && (target =c? ".") then
         if tr =? fr + forward then commit
         else if ((fr =? 6) && (piece =c? "P") && (tr =? 4))
                 || ((fr =? 1) && (piece =c? "p") && (tr =? 3)) then commit
         else ret false
       else if (Z.abs (tc - fc) =? 1) && (tr =? fr + forward)
               && negb (target =c? ".") then commit
       else ret false
     else if t =c? "n" then
       if negb (((Z.abs (tr - fr) =? 1) && (Z.abs (tc - fc) =? 2))
                || ((Z.abs (tr - fr) =? 2) && (Z.abs (tc - fc) =? 1)))
       then ret false else commit
     else if t =c? "b" then
       if negb (Z.abs (tr - fr) =? Z.abs (tc - fc)) then ret false else
       clear <- isPathClear fr fc tr tc ;;
       if negb clear then ret false else commit
     else if t =c? "r" then
       if negb (tr =? fr) && negb (tc =? fc) then ret false else
       clear <- isPathClear fr fc tr tc ;;
       if negb clear then ret false else commit
     else if t =c? "q" then
       if negb (tr =? fr) && negb (tc =? fc)
          && negb (Z.abs (tr - fr) =? Z.abs (tc - fc)) then ret false else
       clear <- isPathClear fr fc tr tc ;;
       if negb clear then ret false else commit
     else if t =c? "k" then
       if Z.max (Z.abs (tr - fr)) (Z.abs (tc - fc)) >? 1 then ret false
       else commit
     else commit
   | _, _ =>
     (* [target.toUpperCase()] on [undefined]; [piece] is a character once
        [isPieceOwnedBySide] has returned *)
     throw
   end)%game.

(** What the click handler of [undoBtn] evaluates to: nothing, on both of
    its paths. *)
Inductive handlerResult : Type :=
  | Undefined
  | Boolean (b : bool).

Definition pop {A} (l : list A) : list A := removelast l.

Definition undoClick : game -> handlerResult * game :=
  fun g =>
    match last (g_moves g) with
    | None => (Undefined, g)                    (* if (!moves.length) return; *)
    | Some e =>
        let b1 := setCell (g_board g) (fst (e_from e)) (snd (e_from e)) (e_piece e) in
        let b2 := setCell b1 (fst (e_to e)) (snd (e_to e)) (e_captured e) in
        (Undefined,
         Game b2 (pop (g_moves g)) (flipSide (g_sideToMove g))
           (pop (g_moveList g)))
    end.

(** ** Search: numbers, the heap of arrays and the clock *)

(** The numbers the search computes with: integers and the two
    infinities. *)
Inductive num : Type :=
  | NegInf
  | Num (z : Z)
  | PosInf.

Module NumOps.

Definition ltb (a b : num) : bool :=
  match a, b with
  | NegInf, NegInf => false
  | NegInf, _ => true
  | Num x, Num y => x <? y
  | Num _, PosInf => true
  | Num _, NegInf => false
  | PosInf, _ => false
  end.

Definition leb (a b : num) : bool := negb (ltb b a).

(** [Math.max] and [Math.min] of two numbers. *)
Definition max (a b : num) : num := if ltb a b then b else a.
Definition min (a b : num) : num := if ltb b a then b else a.

End NumOps.

(** Arrays on the heap: a row of cells, or a board (an array of rows). *)
Inductive obj : Type :=
  | Row (cells : list ascii)
  | Grid (rows : list nat).

(** The heap, and how many times [performance.now()] has been read. *)
Record world := World { heap : list obj; ticks : nat }.

Definition rowCells (h : list obj) (r : nat) : list ascii :=
  match h !! r with Some (Row cs) => cs | _ => [] end.

Definition gridRows (h : list obj) (b : nat) : list nat :=
  match h !! b with Some (Grid rs) => rs | _ => [] end.

(** The board value a reference denotes. *)
Definition readBoard (h : list obj) (b : nat) : board :=
  map (rowCells h) (gridRows h b).

(** [b] is an array of rows, all allocated. *)
Definition isBoard (h : list obj) (b : nat) : bool :=
  match h !! b with
  | Some (Grid rs) =>
      forallb (fun r => match h !! r with Some (Row _) => true | _ => false end) rs
  | _ => false
  end.

Definition W (A : Type) : Type := world -> A * world.

Definition wret {A} (v : A) : W A := fun w => (v, w).
Definition wbind {A B} (m : W A) (k : A -> W B) : W B :=
  fun w => let '(v, w') := m w in k v w'.

Declare Scope search_scope.
Delimit Scope search_scope with search.
Notation "x <- m ;; k" := (wbind m (fun x => k))
  (at level 100, m at next level, right associativity) : search_scope.

Definition alloc (o : obj) : W nat :=
  fun w => (length (heap w), World (heap w ++ [o]) (ticks w)).

Definition snapshot (b : nat) : W board :=
  fun w => (readBoard (heap w) b, w).

(** [nb[r][c] = v]. *)
Definition writeCell (nb : nat) (r c : Z) (v : ascii) : W unit :=
  fun w =>
    match idx (gridRows (heap w) nb) r with
    | Some rr =>
        (tt, World (<[rr := Row (upd (rowCells (heap w) rr) c v)]> (heap w))
               (ticks w))
    | None => (tt, w)
    end.

(** [r.slice()] for each row in turn. *)
Fixpoint sliceRows (rs : list nat) : W (list nat) :=
  match rs with
  | [] => wret []
  | r :: rs' =>
      (r' <- (fun w => alloc (Row (rowCells (heap w) r)) w) ;;
       out <- sliceRows rs' ;;
       wret (r' :: out))%search
  end.

(** [b.map(r => r.slice())]. *)
Definition cloneBoard (b : nat) : W nat :=
  (rows <- (fun w => sliceRows (gridRows (heap w) b) w) ;;
   alloc (Grid rows))%search.

Definition makeMoveOnBoard (b : nat) (move : move) : W nat :=
  (nb <- cloneBoard b ;;
   let '(fr, fc) := from move in
   let '(tr, tc) := to move in
   cur <- snapshot nb ;;
   _ <- writeCell nb tr tc (cell cur fr fc) ;;
   _ <- writeCell nb fr fc "." ;;
   wret nb)%search.

(** The same step on board values. *)
Definition moveOnBoard (b : board) (move : move) : board :=
  let '(fr, fc) := from move in
  let '(tr, tc) := to move in
  setCell (setCell b tr tc (cell b fr fc)) fr fc ".".

(** The comparator of [moves.sort] in [minimaxRoot]. *)
Definition captureOrder (boardState : board) (a b : move) : Z :=
  let ta := cell boardState (fst (to a)) (snd (to a)) in
  let tb := cell boardState (fst (to b)) (snd (to b)) in
  Z.b2z (negb (tb =c? ".")) - Z.b2z (negb (ta =c? ".")).

(** [Array.prototype.sort] is stable: elements the comparator does not
    order keep their relative order.  Insertion from the right is such a
    sort. *)
Fixpoint insertBy {A} (cmp : A -> A -> Z) (x : A) (l : list A) : list A :=
  match l with
  | [] => [x]
  | y :: l' => if cmp x y <=? 0 then x :: l else y :: insertBy cmp x l'
  end.

Definition sortBy {A} (cmp : A -> A -> Z) (l : list A) : list A :=
  fold_right (insertBy cmp) [] l.

Section Search.

(** The value of the [k]-th read of [performance.now()]. *)
Variable clock : nat -> Z.

Definition performanceNow : W Z :=
  fun w => (clock (ticks w), World (heap w) (S (ticks w))).

Definition evaluate (boardState : nat) : W num :=
  fun w => (Num (evaluateBoardSimple (readBoard (heap w) boardState)), w).

Definition generate (boardState : nat) (side : ascii) : W (list move) :=
  fun w => (generateMovesForSide (readBoard (heap w) boardState) side, w).

(** The [for (const mv of moves)] loop of the maximizing branch;
    [rec nb alpha beta] is the recursive call on the child. *)
Fixpoint maxLoop (rec : nat -> num -> num -> W num) (boardState : nat)
    (startTime timeLimitMs : Z) (moves : list move)
    (maxEval alpha beta : num) : W num :=
  match moves with
  | [] => wret maxEval
  | mv :: rest =>
      (nb <- makeMoveOnBoard boardState mv ;;
       ev <- rec nb alpha beta ;;
       let maxEval := NumOps.max maxEval ev in
       let alpha := NumOps.max alpha ev in
       if NumOps.leb beta alpha then wret maxEval else
       now <- performanceNow ;;
       if now - startTime >? timeLimitMs then wret maxEval else
       maxLoop rec boardState startTime timeLimitMs rest maxEval alpha beta)%search
  end.

Fixpoint minLoop (rec : nat -> num -> num -> W num) (boardState : nat)
    (startTime timeLimitMs : Z) (moves : list move)
    (minEval alpha beta : num) : W num :=
  match moves with
  | [] => wret minEval
  | mv :: rest =>
      (nb <- makeMoveOnBoard boardState mv ;;
       ev <- rec nb alpha beta ;;
       let minEval := NumOps.min minEval ev in
       let beta := NumOps.min beta ev in
       if NumOps.leb beta alpha then wret minEval else
       now <- performanceNow ;;
       if now - startTime >? timeLimitMs then wret minEval else
       minLoop rec boardState startTime timeLimitMs rest minEval alpha beta)%search
  end.

Fixpoint minimax (depth : nat) (boardState : nat) (side : ascii)
    (alpha beta : num) (startTime timeLimitMs : Z) : W num :=
  (now <- performanceNow ;;
   if now - startTime >? timeLimitMs then evaluate boardState else
   match depth with
   | O => evaluate boardState
   | S depth' =>
       moves <- generate boardState side ;;
       match moves with
       | [] => evaluate boardState
       | _ :: _ =>
           if side =c? "w" then
             maxLoop (fun nb a b => minimax depth' nb "b" a b startTime timeLimitMs)
               boardState startTime timeLimitMs moves NegInf alpha beta
           else
             minLoop (fun nb a b => minimax depth' nb "w" a b startTime timeLimitMs)
               boardState startTime timeLimitMs moves PosInf alpha beta
       end
   end)%search.

(** The [for (let mv of moves)] loop of [minimaxRoot], with the pair
    [(bestMove, bestScore)] it maintains. *)
Fixpoint rootLoop (rec : nat -> W num) (boardState : nat) (side : ascii)
    (start timeLimitMs : Z) (moves : list move)
    (bestMove : option move) (bestScore : num) : W (option move * num) :=
  match moves with
  | [] => wret (bestMove, bestScore)
  | mv :: rest =>
      (nb <- makeMoveOnBoard boardState mv ;;
       score <- rec nb ;;
       let better :=
         if side =c? "w" then NumOps.ltb bestScore score
         else NumOps.ltb score bestScore in
       let bestMove := if better then Some mv else bestMove in
       let bestScore := if better then score else bestScore in
       now <- performanceNow ;;
       if now - start >? timeLimitMs then wret (bestMove, bestScore) else
       rootLoop rec boardState side start timeLimitMs rest bestMove bestScore)%search
  end.

(** [minimaxRoot] up to its [return bestMove]: the best move with the
    score that selected it.  [depth] is at least 1 (the difficulty table
    maps to depths 1 to 5); the children are searched at [depth - 1]. *)
Definition minimaxRootScored (boardState : nat) (depth : nat) (side : ascii)
    (timeLimitMs : Z) : W (option move * num) :=
  (start <- performanceNow ;;
   let bestScore := if side =c? "w" then NegInf else PosInf in
   moves <- generate boardState side ;;
   cur <- snapshot boardState ;;
   let moves := sortBy (captureOrder cur) moves in
   rootLoop
     (fun nb =>
        minimax (Nat.pred depth) nb (flipSide side) NegInf PosInf start timeLimitMs)
     boardState side start timeLimitMs moves None bestScore)%search.

Definition minimaxRoot (boardState : nat) (depth : nat) (side : ascii)
    (timeLimitMs : Z) : W (option move) :=
  (res <- minimaxRootScored boardState depth side timeLimitMs ;;
   wret (fst res))%search.

End Search.

(** Put a board value on the heap. *)
Definition storeBoard (b : board) (h : list obj) : nat * list obj :=
  (length h + length b, h ++ map Row b ++ [Grid (seq (length h) (length b))])%nat.

Definition world0 (b : board) : nat * world :=
  let '(r, h) := storeBoard b [] in (r, World h O).

(** ** The material balance, as the specification words it *)

Module Material.

Inductive color : Type := White | Black.
Inductive kind : Type := Pawn | Knight | Bishop | Rook | Queen | King.

Definition pieceOfChar (p : ascii) : option (color * kind) :=
  if p =c? "P" then Some (White, Pawn)
  else if p =c? "N" then Some (White, Knight)
  else if p =c? "B" then Some (White, Bishop)
  else if p =c? "R" then Some (White, Rook)
  else if p =c? "Q" then Some (White, Queen)
  else if p =c? "K" then Some (White, King)
  else if p =c? "p" then Some (Black, Pawn)
  else if p =c? "n" then Some (Black, Knight)
  else if p =c? "b" then Some (Black, Bishop)
  else if p =c? "r" then Some (Black, Rook)
  else if p =c? "q" then Some (Black, Queen)
  else if p =c? "k" then Some (Black, King)
  else None.

Definition worth (k : kind) : Z :=
  match k with
  | Pawn => 100
  | Knight => 320
  | Bishop => 330
  | Rook => 500
  | Queen => 900
  | King => 20000
  end.

(** What one cell adds: nothing when empty, the piece's worth with the
    sign of its colour otherwise. *)
Definition signedWorth (p : ascii) : Z :=
  match pieceOfChar p with
  | Some (White, k) => worth k
  | Some (Black, k) => - worth k
  | None => 0
  end.

Definition sumZ (l : list Z) : Z := fold_right Z.add 0 l.

Definition balance (b : board) : Z :=
  sumZ (map (fun row => sumZ (map signedWorth row)) b).

End Material.

(** ** The search without pruning, as the specification words it *)

Section Unpruned.

Variable clock : nat -> Z.

(** The loops of [minimax] with alpha fixed to -Infinity, beta fixed to
    +Infinity and no [beta <= alpha] break. *)
Fixpoint maxLoopUnpruned (rec : nat -> W num) (boardState : nat)
    (startTime timeLimitMs : Z) (moves : list move) (maxEval : num) : W num :=
  match moves with
  | [] => wret maxEval
  | mv :: rest =>
      (nb <- makeMoveOnBoard boardState mv ;;
       ev <- rec nb ;;
       let maxEval := NumOps.max maxEval ev in
       now <- performanceNow clock ;;
       if now - startTime >? timeLimitMs then wret maxEval else
       maxLoopUnpruned rec boardState startTime timeLimitMs rest maxEval)%search
  end.

Fixpoint minLoopUnpruned (rec : nat -> W num) (boardState : nat)
    (startTime timeLimitMs : Z) (moves : list move) (minEval : num) : W num :=
  match moves with
  | [] => wret minEval
  | mv :: rest =>
      (nb <- makeMoveOnBoard boardState mv ;;
       ev <- rec nb ;;
       let minEval := NumOps.min minEval ev in
       now <- performanceNow clock ;;
       if now - startTime >? timeLimitMs then wret minEval else
       minLoopUnpruned rec boardState startTime timeLimitMs rest minEval)%search
  end.

Fixpoint minimaxUnpruned (depth : nat) (boardState : nat) (side : ascii)
    (startTime timeLimitMs : Z) : W num :=
  (now <- performanceNow clock ;;
   if now - startTime >? timeLimitMs then evaluate boardState else
   match depth with
   | O => evaluate boardState
   | S depth' =>
       moves <- generate boardState side ;;
       match moves with
       | [] => evaluate boardState
       | _ :: _ =>
           if side =c? "w" then
             maxLoopUnpruned
               (fun nb => minimaxUnpruned depth' nb "b" startTime timeLimitMs)
               boardState startTime timeLimitMs moves NegInf
           else
             minLoopUnpruned
               (fun nb => minimaxUnpruned depth' nb "w" startTime timeLimitMs)
               boardState startTime timeLimitMs moves PosInf
       end
   end)%search.

Definition minimaxRootScoredUnpruned (boardState : nat) (depth : nat)
    (side : ascii) (timeLimitMs : Z) : W (option move * num) :=
  (start <- performanceNow clock ;;
   let bestScore := if side =c? "w" then NegInf else PosInf in
   moves <- generate boardState side ;;
   cur <- snapshot boardState ;;
   let moves := sortBy (captureOrder cur) moves in
   rootLoop clock
     (fun nb =>
        minimaxUnpruned (Nat.pred depth) nb (flipSide side) start timeLimitMs)
     boardState side start timeLimitMs moves None bestScore)%search.

Definition minimaxRootUnpruned (boardState : nat) (depth : nat) (side : ascii)
    (timeLimitMs : Z) : W (option move) :=
  (res <- minimaxRootScoredUnpruned boardState depth side timeLimitMs ;;
   wret (fst res))%search.

End Unpruned.

(** The value of a position searched to [depth] with no cutoff of any
    kind, on board values. *)
Fixpoint best (depth : nat) (b : board) (side : ascii) : num :=
  match depth with
  | O => Num (evaluateBoardSimple b)
  | S depth' =>
      match generateMovesForSide b side with
      | [] => Num (evaluateBoardSimple b)
      | moves =>
          if side =c? "w" then
            fold_left
              (fun acc mv => NumOps.max acc (best depth' (moveOnBoard b mv) "b"))
              moves NegInf
          else
            fold_left
              (fun acc mv => NumOps.min acc (best depth' (moveOnBoard b mv) "w"))
              moves PosInf
      end
  end.

(** The root loop on board values, given the value [V] of each child. *)
Definition rootFold (V : board -> num) (b : board) (side : ascii)
    (moves : list move) (bestMove : option move) (bestScore : num)
    : option move * num :=
  fold_left
    (fun acc mv =>
       let score := V (moveOnBoard b mv) in
       let better :=
         if side =c? "w" then NumOps.ltb (snd acc) score
         else NumOps.ltb score (snd acc) in
       if better then (Some mv, score) else acc)
    moves (bestMove, bestScore).

(** ** Vocabulary of the statements *)

(** All 256 characters, for checks by enumeration. *)
Definition allChars : list ascii := map ascii_of_nat (seq 0 256).

Definition onBoard (sq : Z * Z) : bool := inRange (fst sq) && inRange (snd sq).

Definition validSide (side : ascii) : bool := (side =c? "w") || (side =c? "b").

(** The request dies in one of the early [return false] lines: the origin
    is on the board and is empty or holds a piece of the other side. *)
Definition rejectedEarly (g : game) (m : move) : bool :=
  onBoard (from m)
  && let p := cell (g_board g) (fst (from m)) (snd (from m)) in
     (p =c? ".")
     || negb (if g_sideToMove g =c? "w" then p =c? toUpperCase p
              else p =c? toLowerCase p).

(** The game after the requests [ms], made one after the other. *)
Definition play (ms : list move) (g : game) : game :=
  fold_left (fun g m => snd (makeMoveIfLegal m g)) ms g.

Definition hasMove (m : move) (l : list move) : bool := existsb (move_eqb m) l.

(** After 1. e2-e4 e7-e5: white to move, two moves in the history. *)
Definition afterE4E5 : game :=
  play [Move (6, 4) (4, 4); Move (1, 4) (3, 4)] initialGame.

(** After 1. Nb1-a3 a7-a6: the white knight stands in front of the a-pawn. *)
Definition afterNa3 : game :=
  play [Move (7, 1) (5, 0); Move (1, 0) (2, 0)] initialGame.

(** Two kings and a pawn each; the black pawn can take the white one. *)
Definition endgame : board :=
  map rowOfString
    ["....k..."; "...p...."; "....P..."; "........";
     "........"; "........"; "........"; "....K..."]%string.
Definition endgameRef : nat := fst (world0 endgame).
Definition endgameWorld : world := snd (world0 endgame).

(** A clock that stands still: no deadline is ever reached. *)
Definition frozenClock : nat -> Z := fun _ => 0.

(** A direction of a sliding piece. *)
Definition unitStep (d : Z * Z) : bool :=
  (-1 <=? fst d) && (fst d <=? 1) && (-1 <=? snd d) && (snd d <=? 1)
  && negb ((fst d =? 0) && (snd d =? 0)).

(** The destination is on the board and is empty or holds an upper-case
    (white) piece: the test the generator applies, for either side. *)
Definition landsOnEmptyOrWhite (b : board) (m : move) : bool :=
  onBoard (to m)
  && let t2 := cell b (fst (to m)) (snd (to m)) in
     (t2 =c? ".") || (t2 =c? toUpperCase t2).

Definition emitted (b : board) (r c : Z) (m : move) : Prop :=
  from m = (r, c) /\ landsOnEmptyOrWhite b m = true.

(** The path test of [makeMoveIfLegal] came out [true]. *)
Definition pathClear (b : board) (fr fc tr tc : Z) : bool :=
  match isPathClear_loop 8 b (sign (tr - fr)) (sign (tc - fc))
          (fr + sign (tr - fr)) (fc + sign (tc - fc)) tr tc with
  | Normal true => true
  | _ => false
  end.

(** The shape checks of [makeMoveIfLegal], as one test. *)
Definition shapeAccepted (b : board) (piece target : ascii) (fr fc tr tc : Z)
    : bool :=
  let t := toLowerCase piece in
  if t =c? "p" then
    let forward := if piece =c? "P" then -1 else 1 in
    if (fc =? tc) && (target =c? ".") then
      (tr =? fr + forward)
      || ((fr =? 6) && (piece =c? "P") && (tr =? 4))
      || ((fr =? 1) && (piece =c? "p") && (tr =? 3))
    else (Z.abs (tc - fc) =? 1) && (tr =? fr + forward) && negb (target =c? ".")
  else if t =c? "n" then
    ((Z.abs (tr - fr) =? 1) && (Z.abs (tc - fc) =? 2))
    || ((Z.abs (tr - fr) =? 2) && (Z.abs (tc - fc) =? 1))
  else if t =c? "b" then
    (Z.abs (tr - fr) =? Z.abs (tc - fc)) && pathClear b fr fc tr tc
  else if t =c? "r" then
    negb (negb (tr =? fr) && negb (tc =? fc)) && pathClear b fr fc tr tc
  else if t =c? "q" then
    negb (negb (tr =? fr) && negb (tc =? fc)
          && negb (Z.abs (tr - fr) =? Z.abs (tc - fc)))
    && pathClear b fr fc tr tc
  else if t =c? "k" then
    negb (Z.max (Z.abs (tr - fr)) (Z.abs (tc - fc)) >? 1)
  else true.

(** What [makeMoveIfLegal] asks of the shape of a request from [(r, c)]:
    another cell, and a move of the piece's kind. *)
Definition passes (b : board) (r c : Z) (m : move) : Prop :=
  from m = (r, c)
  /\ ((r =? fst (to m)) && (c =? snd (to m))) = false
  /\ shapeAccepted b (cell b r c) (cell b (fst (to m)) (snd (to m)))
       r c (fst (to m)) (snd (to m)) = true.

(** For contrast with [cloneBoard]: a copy of the outer array only
    ([b.slice()]), whose rows are the rows of [b]. *)
Definition cloneOuterOnly (b : nat) : W nat :=
  fun w => alloc (Grid (gridRows (heap w) b)) w.

(** The arrays a board value occupies when it is allocated at [base]. *)
Definition boardObjs (base : nat) (B : board) : list obj :=
  map Row B ++ [Grid (seq base (length B))].

(** What a call leaves behind: the old heap with new arrays after it. *)
Definition extends (w w' : world) : Prop :=
  exists k, heap w' = heap w ++ k.

(** A recursive call that only allocates. *)
Definition allocates (rec : nat -> num -> num -> W num) : Prop :=
  forall nb a be w, isBoard (heap w) nb = true -> extends w (snd (rec nb a be w)).

(** [m] lands on an occupied cell. *)
Definition isCapture (boardState : board) (m : move) : bool :=
  negb (cell boardState (fst (to m)) (snd (to m)) =c? ".").

(** The boards allocated between two states of the heap, oldest first:
    the children a search explored, in the order it explored them. *)
Definition boardAt (h : list obj) (r : nat) : list board :=
  match h !! r with
  | Some (Grid _) => [readBoard h r]
  | _ => []
  end.

Definition newBoards (h h' : list obj) : list board :=
  flat_map (boardAt h') (seq (length h) (length h' - length h)).

(** The heap after allocating the boards [Bs] one after the other. *)
Fixpoint allocAll (h : list obj) (Bs : list board) : list obj :=
  match Bs with
  | [] => h
  | B :: Bs' => allocAll (h ++ boardObjs (length h) B) Bs'
  end.


(** A leaf call: the evaluation, and no allocation. *)
Definition leafCall (rec : nat -> num -> num -> W num) : Prop :=
  forall nb a be w,
    heap (snd (rec nb a be w)) = heap w /\ exists z, fst (rec nb a be w) = Num z.

(** What a fail-soft alpha-beta call with window [(alpha, beta)] says
    about the exact value [v]: at or below [alpha] the result is an upper
    bound, at or above [beta] a lower bound, inside the window the
    value. *)
Definition sound (alpha beta r v : num) : Prop :=
  (NumOps.leb r alpha = true -> NumOps.leb v r = true)
  /\ (NumOps.leb beta r = true -> NumOps.leb r v = true)
  /\ (NumOps.ltb alpha r = true -> NumOps.ltb r beta = true -> r = v).

(** The same on integers. *)
Definition soundZ (alpha beta r v : Z) : Prop :=
  (r <= alpha -> v <= r)
  /\ (beta <= r -> r <= v)
  /\ (alpha < r -> r < beta -> r = v).

(** Finitely many numbers embed in an interval [[-B, B]] of Z, the
    infinities at its ends. *)
Definition rank (B : Z) (n : num) : Z :=
  match n with NegInf => - B | Num z => z | PosInf => B end.

Definition fits (B : Z) (n : num) : Prop :=
  match n with Num z => - B < z < B | _ => True end.

(** A recursive call on a child that is sound for the value [V]. *)
Definition soundFor (rec : nat -> num -> num -> W num) (V : board -> num) : Prop :=
  forall nb a be w,
    isBoard (heap w) nb = true -> NumOps.ltb a be = true ->
    sound a be (fst (rec nb a be w)) (V (readBoard (heap w) nb)).

(** A call on a child that returns the value [V] and only allocates. *)
Definition exactFor (rec : nat -> W num) (V : board -> num) : Prop :=
  forall nb w,
    isBoard (heap w) nb = true ->
    fst (rec nb w) = V (readBoard (heap w) nb) /\ extends w (snd (rec nb w)).

(** ** The handlers that write the game *)

(** The click handler of [restartBtn], on the four variables of the game. *)
Definition restartClick : game -> handlerResult * game :=
  fun _ => (Undefined, initialGame).

(** What can write [board], [moves], [sideToMove] and [moveList]: a call
    of [makeMoveIfLegal] (from a click on a square, from [aiMove] or
    through [window._debug]), the undo button and the restart button. *)
Inductive request : Type :=
  | Request (m : move)
  | Undo
  | Restart.

Definition handle (e : request) (g : game) : game :=
  match e with
  | Request m => snd (makeMoveIfLegal m g)
  | Undo => snd (undoClick g)
  | Restart => snd (restartClick g)
  end.

(** The game after the events [es], from the state the script starts in. *)
Definition run (es : list request) : game :=
  fold_left (fun g e => handle e g) es initialGame.

(** The request an entry of the history records. *)
Definition entryMove (e : entry) : move := Move (e_from e) (e_to e).

(** Reached from the initial game by accepted requests alone. *)
Inductive played : game -> Prop :=
  | played_init : played initialGame
  | played_move (g g' : game) (m : move) :
      played g -> makeMoveIfLegal m g = (Normal true, g') -> played g'.

Definition undoTimes (n : nat) (g : game) : game :=
  Nat.iter n (fun g => snd (undoClick g)) g.

Definition sideAfter (n : nat) : ascii := if Nat.even n then "w" else "b".

(** ** Vocabulary of the search statements *)

(** A finite score. *)
Definition isNum (n : num) : Prop := exists z, n = Num z.

(** The order in which [minimaxRoot] tries the moves [moves] on the board
    [B]: the captures, then the rest, each in the order given. *)
Definition capturesFirst (B : board) (moves : list move) : list move :=
  List.filter (isCapture B) moves
  ++ List.filter (fun m => negb (isCapture B m)) moves.

(** ** Vocabulary of the statements on accepted requests *)

(** A pawn two-step in its file over an occupied cell. *)
Definition jumpsOver (b : board) (m : move) : bool :=
  let '(fr, fc) := from m in
  let '(tr, tc) := to m in
  (toLowerCase (cell b fr fc) =c? "p") && (fc =? tc) && (Z.abs (tr - fr) =? 2)
  && negb (cell b ((fr + tr) / 2) fc =c? ".").

(** A recursive call that returns a finite score, at most the static
    evaluation of the 8x8 board it is given. *)
Definition belowStatic (rec : nat -> num -> num -> W num) : Prop :=
  forall nb a be w,
    isBoard (heap w) nb = true -> wf_board (readBoard (heap w) nb) = true ->
    exists z, fst (rec nb a be w) = Num z
              /\ z <= evaluateBoardSimple (readBoard (heap w) nb).

(** ** The timer text *)

(** [String(n)] for an integer [n]: its decimal numeral, with a minus sign
    when negative (for [|n| < 1e21], beyond which JavaScript switches to
    the exponent form). *)
Definition numberToString (n : Z) : string :=
  NilZero.string_of_int (Z.to_int n).

Fixpoint repeatString (n : nat) (s : string) : string :=
  match n with
  | O => EmptyString
  | S k => (s ++ repeatString k s)%string
  end.

(** [s.padStart(targetLength, padString)]: [s] itself when it is long
    enough or the padding is empty, else [s] after as many characters of
    the repeated padding as are missing. *)
Definition padStart (s : string) (targetLength : nat) (padString : string)
    : string :=
  let len := String.length s in
  if (targetLength <=? len)%nat then s
  else if (String.length padString =? 0)%nat then s
  else
    (String.substring 0 (targetLength - len)
       (repeatString (targetLength - len) padString) ++ s)%string.

(** [formatTime] of [script.js]; [Math.floor(s/60)] is the floor division
    and [s%60] the remainder with the sign of [s]. *)
Definition formatTime (s : Z) : string :=
  let mm := padStart (numberToString (s / 60)) 2 "0" in
  let ss := padStart (numberToString (Z.rem s 60)) 2 "0" in
  (mm ++ ":" ++ ss)%string.

(** The text the interval callback of [startTimer] in the second script
    writes into the timer element, given [Date.now()] and [startTime]. *)
Definition timerCallback (now startTime : Z) : string :=
  let diff := (now - startTime) / 1000 in
  let minutes := padStart (numberToString (diff / 60)) 2 "0" in
  let seconds := padStart (numberToString (Z.rem diff 60)) 2 "0" in
  (minutes ++ ":" ++ seconds)%string.

(** ** Difficulty *)

Record level := Level { label : string; depth : nat }.

(** [DIFFICULTIES[v]] for a number [v]: [undefined] off the five keys.  A
    value of the select that is no integer ([NaN], a fraction) is off the
    keys like any integer outside 1..5. *)
Definition DIFFICULTIES (v : Z) : option level :=
  if v =? 1 then Some (Level "Beginner" 1)
  else if v =? 2 then Some (Level "Advanced" 2)
  else if v =? 3 then Some (Level "Master" 3)
  else if v =? 4 then Some (Level "Expert" 4)
  else if v =? 5 then Some (Level "Grandmaster" 5)
  else None.




(** The depth [aiMove] searches to and its time budget. *)
Definition aiDepth (difficulty : Z) : nat :=
  depth (match DIFFICULTIES difficulty with
         | Some dd => dd
         | None => Level "Advanced" 2
         end).

Definition timeBudget (depth : nat) : Z := Z.min 4000 (500 * Z.of_nat depth + 400).

(** ** The page *)

Definition getPieceChar (p : ascii) : string :=
  (if p =c? "K" then "♔" else if p =c? "Q" then "♕"
   else if p =c? "R" then "♖" else if p =c? "B" then "♗"
   else if p =c? "N" then "♘" else if p =c? "P" then "♙"
   else if p =c? "k" then "♚" else if p =c? "q" then "♛"
   else if p =c? "r" then "♜" else if p =c? "b" then "♝"
   else if p =c? "n" then "♞" else if p =c? "p" then "♟"
   else "")%string.

(** A [div.square]: its [dataset.r] and [dataset.c] (as the numbers the
    click handler reads back), its background, its content and its
    outline. *)
Record square := Square {
  sq_r : Z;
  sq_c : Z;
  sq_background : string;
  sq_innerHTML : string;
  sq_outline : string
}.

(** An entry of the move list shown: its text, and whether it carries the
    class [move-highlight]. *)
Record item := Item { li_text : string; li_highlight : bool }.

(** The variables of the script next to the game, and the part of the
    document it writes: the squares under [boardEl] in document order, the
    entries of [movesEl], the text of [timerEl], and how many
    [setTimeout(aiMove)] calls are pending. *)
Record page := Page {
  p_game : game;
  selectedCell : option (Z * Z);
  seconds : Z;
  boardEl : list square;
  movesEl : list item;
  timerEl : string;
  aiTimers : nat
}.

Definition set_game (p : page) (g : game) : page :=
  Page g (selectedCell p) (seconds p) (boardEl p) (movesEl p) (timerEl p) (aiTimers p).
Definition set_selectedCell (p : page) (s : option (Z * Z)) : page :=
  Page (p_game p) s (seconds p) (boardEl p) (movesEl p) (timerEl p) (aiTimers p).
Definition set_seconds (p : page) (s : Z) : page :=
  Page (p_game p) (selectedCell p) s (boardEl p) (movesEl p) (timerEl p) (aiTimers p).
Definition set_boardEl (p : page) (sqs : list square) : page :=
  Page (p_game p) (selectedCell p) (seconds p) sqs (movesEl p) (timerEl p) (aiTimers p).
Definition set_movesEl (p : page) (l : list item) : page :=
  Page (p_game p) (selectedCell p) (seconds p) (boardEl p) l (timerEl p) (aiTimers p).
Definition set_timerEl (p : page) (t : string) : page :=
  Page (p_game p) (selectedCell p) (seconds p) (boardEl p) (movesEl p) t (aiTimers p).
Definition set_aiTimers (p : page) (n : nat) : page :=
  Page (p_game p) (selectedCell p) (seconds p) (boardEl p) (movesEl p) (timerEl p) n.

Definition set_outline (s : square) (o : string) : square :=
  Square (sq_r s) (sq_c s) (sq_background s) (sq_innerHTML s) o.

(** Code that reads and writes the page and may throw. *)
Definition P (A : Type) : Type := page -> completion A * page.

Definition pbind {A B} (m : P A) (k : A -> P B) : P B :=
  fun p =>
    match m p with
    | (Normal v, p') => k v p'
    | (TypeError, p') => (TypeError, p')
    | (OutOfFuel, p') => (OutOfFuel, p')
    end.
(** A step that only writes. *)
Definition pdo (f : page -> page) : P unit := fun p => (Normal tt, f p).

Declare Scope page_scope.
Delimit Scope page_scope with page.
Notation "x <- m ;; k" := (pbind m (fun x => k))
  (at level 100, m at next level, right associativity) : page_scope.

(** The square [renderBoard] makes for the cell [(r, c)]. *)
Definition renderSquare (b : board) (r c : Z) : square :=
  let dark := Z.rem (r + c) 2 =? 1 in
  let piece := cell b r c in
  Square r c (if dark then "#151515" else "#0b0b0b")
    (if negb (piece =c? ".") then getPieceChar piece else "") "".

Definition renderBoard (p : page) : page :=
  set_boardEl p
    (flat_map (fun r => map (fun c => renderSquare (g_board (p_game p)) r c) range8)
       range8).

Definition outlineStyle : string := "3px solid rgba(255,44,251,0.6)".

Definition highlightSelection : P unit :=
  fun p =>
    let squares := map (fun s => set_outline s "") (boardEl p) in
    let p1 := set_boardEl p squares in
    match selectedCell p with
    | None => (Normal tt, p1)
    | Some (sr, sc) =>
        let i := sr * 8 + sc in
        match idx squares i with
        | Some s => (Normal tt, set_boardEl p1 (upd squares i (set_outline s outlineStyle)))
        | None => (TypeError, p1)          (* squares[idx].style on undefined *)
        end
    end.

Definition updateMovesUI (p : page) : page :=
  let moveList := g_moveList (p_game p) in
  set_movesEl p
    (imap (fun i m => Item m (Z.of_nat i =? Z.of_nat (length moveList) - 1)) moveList).

(** [makeMoveIfLegal] on the page: the game part, and [updateMovesUI] on
    the path that commits. *)
Definition makeMoveIfLegalP (m : move) : P bool :=
  fun p =>
    match makeMoveIfLegal m (p_game p) with
    | (Normal true, g') => (Normal true, updateMovesUI (set_game p g'))
    | (c, g') => (c, set_game p g')
    end.

Definition postMoveActions (p : page) : page :=
  let p1 := renderBoard p in
  if g_sideToMove (p_game p1) =c? "b"
  then set_aiTimers p1 (S (aiTimers p1))       (* setTimeout(() => aiMove(), 350) *)
  else p1.

(** The two places of [onSquareClick] that select the clicked cell:
    [if (piece !== '.' && isPieceOwnedBySide(piece, sideToMove))]. *)
Definition selectIfOwned (piece : option ascii) (r c : Z) : P unit :=
  fun p =>
    if negb (isChar piece ".") then
      match isPieceOwnedBySide piece (g_sideToMove (p_game p)) with
      | Normal true => highlightSelection (set_selectedCell p (Some (r, c)))
      | Normal false => (Normal tt, p)
      | TypeError => (TypeError, p)
      | OutOfFuel => (OutOfFuel, p)
      end
    else (Normal tt, p).

(** [onSquareClick] with [this] the square clicked. *)
Definition onSquareClick (this : square) : P unit :=
  fun p =>
    let r := sq_r this in
    let c := sq_c this in
    match index2 (g_board (p_game p)) r c with
    | Normal piece =>
        match selectedCell p with
        | Some (sr, sc) =>
            if (sr =? r) && (sc =? c) then
              (Normal tt, renderBoard (set_selectedCell p None))
            else
              (ok <- makeMoveIfLegalP (Move (sr, sc) (r, c)) ;;
               if ok : bool then
                 pdo (fun p => postMoveActions (renderBoard (set_selectedCell p None)))
               else selectIfOwned piece r c)%page p
        | None => selectIfOwned piece r c p
        end
    | TypeError => (TypeError, p)
    | OutOfFuel => (OutOfFuel, p)
    end.

(** The click handlers of [undoBtn] and [restartBtn] on the page. *)
Definition undoHandler (p : page) : page :=
  match g_moves (p_game p) with
  | [] => p
  | _ :: _ => updateMovesUI (renderBoard (set_game p (snd (undoClick (p_game p)))))
  end.

Definition restartHandler (p : page) : page :=
  updateMovesUI
    (renderBoard (set_seconds (set_game p (snd (restartClick (p_game p)))) 0)).

(** [startTimer] and the callback it installs. *)
Definition startTimer (p : page) : page :=
  set_timerEl (set_seconds p 0) (formatTime 0).

Definition timerTick (p : page) : page :=
  let p1 := set_seconds p (seconds p + 1) in
  set_timerEl p1 (formatTime (seconds p1)).

(** [aiMove], given the value of the difficulty select, the number
    [Math.random()] returns (a rational of [0, 1) here; the index drawn
    from it lies in the list, as it does in floating point) and the clock
    the search reads.  The search runs on the live board put on a heap of
    its own; it leaves the board as it is. *)
Definition aiMove (clock : nat -> Z) (difficulty : Z) (random : Q) : P unit :=
  fun p =>
    let depth := aiDepth difficulty in
    let play (mv : move) : P unit :=
      (_ <- makeMoveIfLegalP mv ;;
       pdo (fun p => postMoveActions (renderBoard p)))%page in
    if difficulty =? 1 then
      let legal := generateMovesForSide (g_board (p_game p)) "b" in
      match legal with
      | [] => (Normal tt, p)
      | _ :: _ =>
          let i := Qfloor (random * inject_Z (Z.of_nat (length legal))) in
          match idx legal i with
          | Some mv => play mv p
          | None => (TypeError, p)           (* [move.from] on undefined *)
          end
      end
    else
      let '(b, w) := world0 (g_board (p_game p)) in
      match fst (minimaxRoot clock b depth "b" (timeBudget depth) w) with
      | Some candidate => play candidate p
      | None => (Normal tt, p)
      end.

(** [getBestMove] of the second script, given the list [game.moves()]
    returns and the number [Math.random()] returns. *)
Definition getBestMove (moves : list string) (level : Z) (random : Q)
    : option string :=
  idx moves (Qfloor (random * inject_Z (Z.of_nat (length moves)))).

(** ** Vocabulary of the statements on the page *)

Definition digitChar (d : Z) : ascii := ascii_of_N (48 + Z.to_N d).

(** The square the page should show for the cell [(r, c)]: the rendered
    one, outlined when the cell is the selected one. *)
Definition shownSquare (p : page) (r c : Z) : square :=
  let s := renderSquare (g_board (p_game p)) r c in
  match selectedCell p with
  | Some (sr, sc) =>
      if (sr =? r) && (sc =? c) then set_outline s outlineStyle else s
  | None => s
  end.

(** The board element shows the game: cell by cell the rendered square,
    and the outline on the selected cell and nowhere else. *)
Definition shows (p : page) : Prop :=
  boardEl p
  = flat_map (fun r => map (fun c => shownSquare p r c) range8) range8.

Definition selectionOnBoard (p : page) : Prop :=
  match selectedCell p with
  | Some sq => onBoard sq = true
  | None => True
  end.

(** The move list shown is the move list of the game. *)
Definition lists (p : page) : Prop :=
  movesEl p = movesEl (updateMovesUI p).

(** A freshly drawn page for the game [g]: nothing selected, the timer at
    zero, no [aiMove] pending. *)
Definition pageOf (g : game) : page :=
  updateMovesUI (renderBoard (Page g None 0 [] [] (formatTime 0) 0)).

(** After 1. e2-e4: black to move. *)
Definition afterE4 : game := play [Move (6, 4) (4, 4)] initialGame.

(** * Properties *)

(** ** Characters *)
Lemma forall_ascii (P : ascii -> bool) :
  forallb P allChars = true -> forall p, P p = true.
Proof.
  intros H p. rewrite forallb_forall in H. apply H.
  rewrite <- (ascii_nat_embedding p). unfold allChars.
  apply in_map, in_seq. pose proof (nat_ascii_bounded p). lia.
Qed.

Lemma lower_of_not_upper (p : ascii) :
  (p =c? toUpperCase p) = false -> (p =c? toLowerCase p) = true.
Proof.
  assert (H : (p =c? toUpperCase p) || (p =c? toLowerCase p) = true).
  { revert p. apply forall_ascii. vm_compute. reflexivity. }
  intros E. by rewrite E in H.
Qed.

Lemma upper_piece_not_lower (p : ascii) :
  isCellValue p = true -> (p =c? ".") = false ->
  (p =c? toUpperCase p) = true -> (p =c? toLowerCase p) = false.
Proof.
  assert (H : negb (isCellValue p) || (p =c? ".")
              || negb (p =c? toUpperCase p) || negb (p =c? toLowerCase p) = true).
  { revert p. apply forall_ascii. vm_compute. reflexivity. }
  intros E1 E2 E3. rewrite E1, E2, E3 in H. cbn in H.
  by destruct (p =c? toLowerCase p).
Qed.

Lemma pawn_letter (p : ascii) :
  toLowerCase p = "p" -> (p = "P" /\ (p =c? toUpperCase p) = true)
                          \/ (p = "p" /\ (p =c? toUpperCase p) = false).
Proof.
  assert (H : negb (toLowerCase p =c? "p")
              || ((p =c? "P") && (p =c? toUpperCase p))
              || ((p =c? "p") && negb (p =c? toUpperCase p)) = true).
  { revert p. apply forall_ascii. vm_compute. reflexivity. }
  intros E. rewrite E in H. cbn [Ascii.eqb Bool.eqb negb orb] in H.
  apply orb_prop in H as [H|H]; apply andb_prop in H as [H1 H2];
    apply Ascii.eqb_eq in H1; [left|right]; split; try done.
  by destruct (p =c? toUpperCase p).
Qed.

(** The colour test of the generator does not look at the moving piece:
    [pieceColor(p)] is ['w'] or ['b'], and [pieceColor] of either is ['b']. *)
Lemma isOpposite_pieceColor (p t2 : ascii) :
  isOpposite (pieceColor p) t2 = (t2 =c? toUpperCase t2).
Proof.
  unfold isOpposite, pieceColor at 1 2.
  destruct (p =c? toUpperCase p); cbn;
    unfold pieceColor; by destruct (t2 =c? toUpperCase t2).
Qed.

(** ** Boards *)
Lemma length8_inv {A} (l : list A) :
  length l = 8%nat ->
  exists a0 a1 a2 a3 a4 a5 a6 a7, l = [a0; a1; a2; a3; a4; a5; a6; a7].
Proof.
  intros H.
  do 8 (destruct l as [|? l]; [discriminate H|]).
  destruct l; [|discriminate H].
  eauto 10.
Qed.

Lemma wf_board_rows (b : board) :
  wf_board b = true ->
  length b = 8%nat /\ Forall (fun row => length row = 8%nat) b.
Proof.
  unfold wf_board. intros H.
  apply andb_prop in H as [Hl Hr].
  split; [by apply Nat.eqb_eq|].
  apply Forall_forall. intros row Hin.
  rewrite forallb_forall in Hr.
  apply list_elem_of_In, Hr, andb_prop in Hin as [Hin _].
  by apply Nat.eqb_eq.
Qed.

Lemma idx_inRange {A} (l : list A) (i : Z) :
  length l = 8%nat -> inRange i = true -> exists x, idx l i = Some x /\ In x l.
Proof.
  intros Hl Hi. unfold inRange in Hi. unfold idx.
  apply andb_prop in Hi as [H0 H8].
  rewrite H0.
  destruct (l !! Z.to_nat i) as [x|] eqn:E.
  - exists x. split; [done|]. apply list_elem_of_In. by eapply list_elem_of_lookup_2.
  - apply lookup_ge_None in E. lia.
Qed.

Lemma idx_outRange {A} (l : list A) (i : Z) :
  length l = 8%nat -> inRange i = false -> idx l i = None.
Proof.
  intros Hl Hi. unfold inRange in Hi. unfold idx.
  destruct (0 <=? i) eqn:H0; [|done].
  apply lookup_ge_None. cbn in Hi. lia.
Qed.

Lemma wf_board_length (b : board) : wf_board b = true -> length b = 8%nat.
Proof. unfold wf_board. intros H. apply andb_prop in H as [H _]. by apply Nat.eqb_eq. Qed.

Lemma wf_board_row (b : board) (row : list ascii) :
  wf_board b = true -> In row b -> length row = 8%nat.
Proof.
  unfold wf_board. intros H Hin. apply andb_prop in H as [_ H].
  rewrite forallb_forall in H. apply H, andb_prop in Hin as [Hin _].
  by apply Nat.eqb_eq.
Qed.

(** On an 8x8 board the guarded read [cell] is the JavaScript read. *)
Lemma index2_onBoard (b : board) (r c : Z) :
  wf_board b = true -> onBoard (r, c) = true ->
  index2 b r c = Normal (Some (cell b r c)).
Proof.
  intros Hwf H. apply andb_prop in H as [Hr Hc]. cbn in Hr, Hc.
  destruct (idx_inRange b r (wf_board_length _ Hwf) Hr) as (row & Hrow & Hin).
  destruct (idx_inRange row c (wf_board_row _ _ Hwf Hin) Hc) as (p & Hp & _).
  unfold index2, cell. by rewrite Hrow, Hp.
Qed.

Lemma index2_offBoard (b : board) (r c : Z) :
  wf_board b = true -> onBoard (r, c) = false ->
  index2 b r c = TypeError \/ index2 b r c = Normal None.
Proof.
  intros Hwf H. unfold index2.
  destruct (inRange r) eqn:Hr.
  - destruct (idx_inRange b r (wf_board_length _ Hwf) Hr) as (row & Hrow & Hin).
    rewrite Hrow. right. f_equal.
    apply idx_outRange; [by eapply wf_board_row|].
    unfold onBoard in H. cbn in H. by rewrite Hr in H.
  - left. by rewrite idx_outRange by (by apply wf_board_length || done).
Qed.

Lemma index2_Some_onBoard (b : board) (r c : Z) (p : ascii) :
  wf_board b = true -> index2 b r c = Normal (Some p) ->
  onBoard (r, c) = true /\ cell b r c = p.
Proof.
  intros Hwf H. destruct (onBoard (r, c)) eqn:E.
  - rewrite (index2_onBoard _ _ _ Hwf E) in H. by injection H as ->.
  - destruct (index2_offBoard _ _ _ Hwf E) as [H' | H']; congruence.
Qed.

Lemma wf_cell (b : board) (r c : Z) :
  wf_board b = true -> onBoard (r, c) = true -> isCellValue (cell b r c) = true.
Proof.
  intros Hwf H. apply andb_prop in H as [Hr Hc]. cbn [fst snd] in *.
  destruct (idx_inRange b r (wf_board_length _ Hwf) Hr) as (row & Hrow & Hin).
  destruct (idx_inRange row c (wf_board_row _ _ Hwf Hin) Hc) as (p & Hp & Hinp).
  unfold cell. rewrite Hrow, Hp.
  unfold wf_board in Hwf. apply andb_prop in Hwf as [_ Hwf].
  rewrite forallb_forall in Hwf. apply Hwf, andb_prop in Hin as [_ Hin].
  rewrite forallb_forall in Hin. by apply Hin.
Qed.

Lemma idx_lt {A} (l : list A) (i : Z) (x : A) :
  idx l i = Some x -> 0 <= i /\ (Z.to_nat i < length l)%nat /\ l !! Z.to_nat i = Some x.
Proof.
  unfold idx. destruct (Z.leb_spec 0 i); [|done].
  intros Hx. split; [done|]. split; [by eapply lookup_lt_Some|done].
Qed.

Lemma idx_map {A C} (f : A -> C) (l : list A) (i : Z) :
  idx (map f l) i = f <$> idx l i.
Proof. unfold idx. destruct (0 <=? i); [|done]. apply list_lookup_fmap. Qed.

Lemma upd_map {A C} (f : A -> C) (l : list A) (i : Z) (x : A) :
  map f (upd l i x) = upd (map f l) i (f x).
Proof. unfold upd. destruct (0 <=? i); [|done]. apply list_fmap_insert. Qed.

Lemma length_upd {A} (l : list A) (i : Z) (x : A) : length (upd l i x) = length l.
Proof. unfold upd. destruct (0 <=? i); [|done]. apply length_insert. Qed.

Lemma length_setCell B r c v : length (setCell B r c v) = length B.
Proof. unfold setCell. destruct (idx B r); [|done]. apply length_upd. Qed.

Lemma length_moveOnBoard B m : length (moveOnBoard B m) = length B.
Proof. destruct m as [[fr fc] [tr tc]]. cbn. by rewrite !length_setCell. Qed.

Lemma idx_nat {A} (l : list A) (i : Z) (x : A) :
  idx l i = Some x -> l !! Z.to_nat i = Some x /\ 0 <= i.
Proof. unfold idx. destruct (Z.leb_spec 0 i); [done|done]. Qed.

Lemma setCell_nat (b : board) (r c : Z) (v : ascii) (row : list ascii) :
  b !! Z.to_nat r = Some row -> 0 <= r -> 0 <= c ->
  setCell b r c v = <[Z.to_nat r := <[Z.to_nat c := v]> row]> b.
Proof.
  intros Hrow Hr Hc. unfold setCell, idx, upd.
  destruct (Z.leb_spec 0 r); [|lia]. destruct (Z.leb_spec 0 c); [|lia].
  by rewrite Hrow.
Qed.

(** ** Evaluator *)

Section Evaluator.

Import Material.

Lemma evaluateCell_signedWorth (score : Z) (p : ascii) :
  evaluateCell score p = score + signedWorth p.
Proof.
  assert (H : ((evaluateCell 0 p =? signedWorth p) && (evaluateCell 1 p =? 1 + signedWorth p)) = true).
  { revert p. apply forall_ascii. vm_compute. reflexivity. }
  unfold evaluateCell in *. destruct (p =c? "."); lia.
Qed.

Lemma evaluate_row (b : board) (r : Z) (row : list ascii) (score : Z) :
  idx b r = Some row ->
  length row = 8%nat ->
  fold_left (fun score c => evaluateCell score (cell b r c)) range8 score
  = score + sumZ (map signedWorth row).
Proof.
  intros Hrow Hlen.
  do 8 (destruct row as [|? row]; [discriminate Hlen|]).
  destruct row; [|discriminate Hlen].
  unfold cell. rewrite Hrow. unfold idx, range8, fold_left.
  repeat match goal with
         | |- context [Z.to_nat ?z] =>
             let n := eval vm_compute in (Z.to_nat z) in change (Z.to_nat z) with n
         end.
  cbn.
  rewrite !evaluateCell_signedWorth. lia.
Qed.

(** C7. [evaluateBoardSimple] is the material balance: the sum over the
    occupied cells of pawn 100, knight 320, bishop 330, rook 500, queen
    900, king 20000, positive for white and negative for black; it is 0 on
    the starting position. *)
Theorem evaluateBoardSimple_material (b : board) :
  wf_board b = true ->
  evaluateBoardSimple b = balance b
  /\ evaluateBoardSimple initialBoard = 0.
Proof.
  intros Hwf. split; [|reflexivity].
  destruct (wf_board_rows b Hwf) as [Hlen Hrows].
  destruct (length8_inv _ Hlen) as (r0 & r1 & r2 & r3 & r4 & r5 & r6 & r7 & ->).
  repeat match goal with
         | H : Forall _ (_ :: _) |- _ => apply Forall_cons_1 in H as [? H]
         end.
  unfold evaluateBoardSimple, balance.
  set (f := fun (score r : Z) => fold_left _ range8 score).
  change (fold_left f range8 0)
    with (f (f (f (f (f (f (f (f 0 0) 1) 2) 3) 4) 5) 6) 7).
  subst f. cbv beta.
  rewrite (evaluate_row _ 0 r0), (evaluate_row _ 1 r1), (evaluate_row _ 2 r2),
    (evaluate_row _ 3 r3), (evaluate_row _ 4 r4), (evaluate_row _ 5 r5),
    (evaluate_row _ 6 r6), (evaluate_row _ 7 r7) by (reflexivity || assumption).
  cbn [map sumZ fold_right]. lia.
Qed.

Lemma evaluateBoardSimple_material_witness :
  wf_board initialBoard = true
  /\ evaluateBoardSimple initialBoard = balance initialBoard
  /\ evaluateBoardSimple initialBoard = 0.
Proof.
  split; [reflexivity|].
  apply (evaluateBoardSimple_material initialBoard). reflexivity.
Defined.

End Evaluator.

(** ** What the generator emits *)
Lemma ray_fuel_indep b r c p d :
  forall k fuel1 fuel2 rr cc,
    (k < fuel1)%nat -> (k < fuel2)%nat ->
    inRange (rr + Z.of_nat k * fst d) && inRange (cc + Z.of_nat k * snd d) = false ->
    ray fuel1 b r c p d rr cc = ray fuel2 b r c p d rr cc.
Proof.
  induction k as [|k IH]; intros fuel1 fuel2 rr cc H1 H2 Hout;
    (destruct fuel1 as [|f1]; [lia|]); (destruct fuel2 as [|f2]; [lia|]); cbn [ray].
  - replace (rr + Z.of_nat 0 * fst d) with rr in Hout by lia.
    replace (cc + Z.of_nat 0 * snd d) with cc in Hout by lia.
    by rewrite Hout.
  - destruct (inRange rr && inRange cc); [|done].
    destruct (cell b rr cc =c? "."); [|done].
    f_equal. apply IH; [lia..|].
    rewrite <- Hout. f_equal; f_equal; lia.
Qed.

(** Eight iterations are all a ray on the board can make. *)
Lemma ray_fuel b r c p d n :
  inRange r = true -> inRange c = true -> unitStep d = true ->
  ray (8 + n) b r c p d (r + fst d) (c + snd d)
  = ray 8 b r c p d (r + fst d) (c + snd d).
Proof.
  intros Hr Hc Hd. apply (ray_fuel_indep b r c p d 7); [lia..|].
  destruct d as [d1 d2]. unfold inRange, unitStep in *. cbn [fst snd] in *.
  change (Z.of_nat 7) with 7. lia.
Qed.

Lemma emitted_mv b r c rr cc :
  inRange rr = true -> inRange cc = true ->
  (cell b rr cc =c? ".") || isOpposite (pieceColor (cell b r c)) (cell b rr cc) = true ->
  emitted b r c (mv r c rr cc).
Proof.
  intros Hr Hc H. split; [done|].
  unfold landsOnEmptyOrWhite, onBoard. cbn [mv to fst snd].
  rewrite Hr, Hc. cbn [andb]. by rewrite isOpposite_pieceColor in H.
Qed.

Lemma in_range8 x : In x range8 -> inRange x = true.
Proof. cbn. intros H. repeat (destruct H as [<-|H]; [done|]). done. Qed.

Lemma pawnMoves_emitted b r c isWhite m :
  inRange r = true -> inRange c = true ->
  In m (pawnMoves b r c (cell b r c) isWhite) -> emitted b r c m.
Proof.
  intros Hr Hc. unfold pawnMoves. cbn [flat_map]. rewrite !in_app_iff.
  intros [H | [[H | [H | []]] | H]].
  - destruct (inRange (r + _)) eqn:E1; [|done].
    destruct (cell b _ c =c? ".") eqn:E2; [|done].
    destruct H as [<- | []]. apply emitted_mv; [done..|]. by rewrite E2.
  - destruct (inRange (r + _)) eqn:E1; [|done].
    destruct (inRange (c + -1)) eqn:E2; [|done].
    destruct (negb _) eqn:E3; [|done]. cbn [andb] in H.
    destruct (isOpposite _ _) eqn:E4; [|done].
    destruct H as [<- | []]. apply emitted_mv; [done..|].
    rewrite E4. apply orb_true_r.
  - destruct (inRange (r + _)) eqn:E1; [|done].
    destruct (inRange (c + 1)) eqn:E2; [|done].
    destruct (negb _) eqn:E3; [|done]. cbn [andb] in H.
    destruct (isOpposite _ _) eqn:E4; [|done].
    destruct H as [<- | []]. apply emitted_mv; [done..|].
    rewrite E4. apply orb_true_r.
  - destruct (_ || _) eqn:E1; [|done].
    destruct (cell b (r + _) c =c? "."); [|done]. cbn [andb] in H.
    destruct (cell b (r + _ * 2) c =c? ".") eqn:E2; [|done].
    destruct H as [<- | []]. apply emitted_mv; [|done|by rewrite E2].
    unfold inRange in *. destruct isWhite; lia.
Qed.

Lemma stepMoves_emitted b r c deltas m :
  In m (stepMoves b r c (cell b r c) deltas) -> emitted b r c m.
Proof.
  unfold stepMoves. rewrite in_flat_map. intros ([dr dc] & _ & H). cbn [fst snd] in H.
  destruct (inRange (r + dr)) eqn:E1; [|done].
  destruct (inRange (c + dc)) eqn:E2; [|done]. cbn [negb orb] in H.
  destruct (_ || _) eqn:E3; [|done].
  destruct H as [<- | []]. by apply emitted_mv.
Qed.

Lemma ray_emitted b r c d m fuel :
  forall rr cc, In m (ray fuel b r c (cell b r c) d rr cc) -> emitted b r c m.
Proof.
  induction fuel as [|fuel IH]; intros rr cc H; [done|]. cbn [ray] in H.
  destruct (inRange rr) eqn:E1; [|done].
  destruct (inRange cc) eqn:E2; [|done]. cbn [andb] in H.
  destruct (cell b rr cc =c? ".") eqn:E3.
  - destruct H as [<- | H]; [|by eapply IH].
    apply emitted_mv; [done..|]. by rewrite E3.
  - destruct (isOpposite _ _) eqn:E4; [|done].
    destruct H as [<- | []]. apply emitted_mv; [done..|].
    rewrite E4. apply orb_true_r.
Qed.

Lemma slideMoves_emitted b r c deltas m :
  In m (slideMoves b r c (cell b r c) deltas) -> emitted b r c m.
Proof.
  unfold slideMoves. rewrite in_flat_map. intros (d & _ & H).
  by eapply ray_emitted.
Qed.

Lemma movesFrom_emitted b side r c m :
  inRange r = true -> inRange c = true ->
  In m (movesFrom b side r c) ->
  emitted b r c m
  /\ (cell b r c =c? ".") = false
  /\ (side =c? "w") = (cell b r c =c? toUpperCase (cell b r c)).
Proof.
  intros Hr Hc. unfold movesFrom.
  destruct (cell b r c =c? ".") eqn:E0; [done|].
  destruct (Bool.eqb _ _) eqn:E1; [|done]. cbn [negb].
  apply Bool.eqb_prop in E1. intros H. split; [|done].
  repeat match type of H with
         | In _ (if ?x then _ else _) => destruct x
         end;
    eauto using pawnMoves_emitted, stepMoves_emitted, slideMoves_emitted.
  done.
Qed.

Lemma generated_from b side m :
  In m (generateMovesForSide b side) ->
  exists r c, inRange r = true /\ inRange c = true /\ In m (movesFrom b side r c).
Proof.
  unfold generateMovesForSide. rewrite in_flat_map. intros (r & Hr & H).
  apply in_flat_map in H as (c & Hc & H).
  exists r, c. auto using in_range8.
Qed.

(** Every generated move starts on a piece of the side asked for, and
    lands on the board on an empty cell or on a white piece. *)
Theorem generated_moves_shape (b : board) (side : ascii) (m : move) :
  In m (generateMovesForSide b side) ->
  let p := cell b (fst (from m)) (snd (from m)) in
  onBoard (from m) = true
  /\ (p =c? ".") = false
  /\ (side =c? "w") = (p =c? toUpperCase p)
  /\ landsOnEmptyOrWhite b m = true.
Proof.
  intros H. apply generated_from in H as (r & c & Hr & Hc & H).
  apply movesFrom_emitted in H as ([Hf Hl] & Hp & Hs); [|done..].
  rewrite Hf. cbn [fst snd]. unfold onBoard. cbn [fst snd]. by rewrite Hr, Hc.
Qed.

(** For the black side the generator keeps the containment property:
    the origin holds a black piece and the destination does not. *)
Theorem generated_moves_black (b : board) (side : ascii) (m : move) :
  wf_board b = true ->
  (side =c? "w") = false ->
  In m (generateMovesForSide b side) ->
  isPieceOwnedBySide (Some (cell b (fst (from m)) (snd (from m)))) side = Normal true
  /\ isPieceOwnedBySide (Some (cell b (fst (to m)) (snd (to m)))) side = Normal false.
Proof.
  intros Hwf Hside H.
  destruct (generated_moves_shape b side m H) as (Hon & Hp & Hs & Hl).
  unfold isPieceOwnedBySide, isChar. rewrite Hp, Hside.
  rewrite Hside in Hs. split.
  - f_equal. apply lower_of_not_upper. by rewrite <- Hs.
  - unfold landsOnEmptyOrWhite in Hl. apply andb_prop in Hl as [Hto Hl].
    destruct (cell b (fst (to m)) (snd (to m)) =c? ".") eqn:E; [done|].
    cbn [orb] in Hl. f_equal.
    apply upper_piece_not_lower; [|done..].
    apply wf_cell; [done|]. by destruct (to m).
Qed.

Lemma generated_moves_black_witness :
  wf_board initialBoard = true
  /\ ("b" =c? "w") = false
  /\ In (Move (1, 4) (3, 4)) (generateMovesForSide initialBoard "b")
  /\ isPieceOwnedBySide (Some (cell initialBoard 1 4)) "b" = Normal true
  /\ isPieceOwnedBySide (Some (cell initialBoard 3 4)) "b" = Normal false.
Proof.
  assert (Hin : In (Move (1, 4) (3, 4)) (generateMovesForSide initialBoard "b")).
  { vm_compute. do 13 right. by left. }
  split; [reflexivity|]. split; [reflexivity|]. split; [exact Hin|].
  apply (generated_moves_black initialBoard "b" (Move (1, 4) (3, 4)));
    [reflexivity | reflexivity | exact Hin].
Defined.

(** For the white side every capture the generator emits is of a white
    piece: the destination is never a black piece. *)
Theorem generated_moves_white (b : board) (m : move) :
  wf_board b = true ->
  In m (generateMovesForSide b "w") ->
  let t2 := cell b (fst (to m)) (snd (to m)) in
  isPieceOwnedBySide (Some t2) "w" = Normal (negb (t2 =c? "."))
  /\ isPieceOwnedBySide (Some t2) "b" = Normal false.
Proof.
  intros Hwf H t2.
  destruct (generated_moves_shape b "w" m H) as (_ & _ & _ & Hl).
  unfold landsOnEmptyOrWhite in Hl. apply andb_prop in Hl as [Hto Hl].
  fold t2 in Hl. unfold isPieceOwnedBySide, isChar. cbn [Ascii.eqb Bool.eqb].
  destruct (t2 =c? ".") eqn:E; [done|]. cbn [orb negb] in *. rewrite Hl.
  split; [done|]. f_equal. apply upper_piece_not_lower; [|done..].
  apply wf_cell; [done|]. by destruct (to m).
Qed.

Lemma generated_moves_white_witness :
  wf_board initialBoard = true
  /\ In (Move (7, 1) (6, 3)) (generateMovesForSide initialBoard "w")
  /\ isPieceOwnedBySide (Some (cell initialBoard 6 3)) "w" = Normal true
  /\ isPieceOwnedBySide (Some (cell initialBoard 6 3)) "b" = Normal false.
Proof.
  assert (Hin : In (Move (7, 1) (6, 3)) (generateMovesForSide initialBoard "w")).
  { vm_compute. do 18 right. by left. }
  split; [reflexivity|]. split; [exact Hin|].
  apply (generated_moves_white initialBoard (Move (7, 1) (6, 3)));
    [reflexivity | exact Hin].
Defined.

(** C3.  The claim asks that no generated move lands on a piece of the
    moving side.  From the starting position the generator, asked for
    white, emits the knight move b1-d2 onto white's own pawn. *)
Theorem generator_white_lands_on_own_piece :
  hasMove (Move (7, 1) (6, 3)) (generateMovesForSide initialBoard "w") = true
  /\ cell initialBoard 7 1 = "N"
  /\ cell initialBoard 6 3 = "P"
  /\ isPieceOwnedBySide (Some (cell initialBoard 6 3)) "w" = Normal true
  /\ length (generateMovesForSide initialBoard "w") = 40%nat.
Proof. vm_compute. repeat split; reflexivity. Qed.

(** A pawn two-step is generated only from the side's starting rank and
    through two empty cells. *)
Theorem generated_double_step (b : board) (side : ascii) (r c rr : Z) :
  In (Move (r, c) (rr, c)) (generateMovesForSide b side) ->
  toLowerCase (cell b r c) = "p" ->
  Z.abs (rr - r) = 2 ->
  ((r = 6 /\ rr = 4 /\ cell b r c = "P" /\ cell b 5 c = ".")
   \/ (r = 1 /\ rr = 3 /\ cell b r c = "p" /\ cell b 2 c = "."))
  /\ cell b rr c = ".".
Proof.
  intros H Hp Hd. apply generated_from in H as (r0 & c0 & Hr & Hc & H).
  destruct (movesFrom_emitted _ _ _ _ _ Hr Hc H) as ([Hf _] & _ & _).
  cbn [from] in Hf. injection Hf as <- <-.
  unfold movesFrom in H.
  destruct (cell b r c =c? "."); [done|].
  destruct (negb _); [done|]. rewrite Hp in H. cbn [Ascii.eqb Bool.eqb] in H.
  unfold pawnMoves in H. cbn [flat_map] in H. rewrite !in_app_iff in H.
  assert (Hdir : forall w : bool, Z.abs ((r + (if w then -1 else 1)) - r) <> 2)
    by (intros []; lia).
  destruct H as [H | [[H | [H | []]] | H]].
  - destruct (_ && _); [|done]. destruct H as [[= <-] | []]. by apply Hdir in Hd.
  - destruct (_ && _); [|done]. destruct H as [[= <- ?] | []]. by apply Hdir in Hd.
  - destruct (_ && _); [|done]. destruct H as [[= <- ?] | []]. by apply Hdir in Hd.
  - destruct (pawn_letter _ Hp) as [[Ep Eu] | [Ep Eu]]; rewrite Eu in H;
      cbn [negb andb orb] in H; rewrite ?andb_true_r, ?andb_false_r, ?orb_false_r in H;
      cbn [orb] in H;
      (destruct (r =? _) eqn:Er; [apply Z.eqb_eq in Er; subst r|done]);
      cbn in H;
      (destruct (cell b _ c =c? ".") eqn:E1; [|done]);
      (destruct (cell b _ c =c? ".") eqn:E2 in H; [|done]);
      destruct H as [[= <-] | []];
      apply Ascii.eqb_eq in E1, E2; auto 10.
Qed.

Lemma generated_double_step_witness :
  In (Move (6, 4) (4, 4)) (generateMovesForSide initialBoard "w")
  /\ toLowerCase (cell initialBoard 6 4) = "p"
  /\ Z.abs (4 - 6) = 2
  /\ cell initialBoard 5 4 = "."
  /\ cell initialBoard 4 4 = ".".
Proof.
  assert (Hin : In (Move (6, 4) (4, 4)) (generateMovesForSide initialBoard "w")).
  { vm_compute. do 9 right. by left. }
  split; [exact Hin|]. split; [reflexivity|]. split; [reflexivity|].
  destruct (generated_double_step initialBoard "w" 6 4 4 Hin eq_refl eq_refl)
    as [[(_ & _ & _ & H5) | (H1 & _)] H4]; [by split | discriminate H1].
Defined.

(** ** The validating executor *)
Ltac unfold_game :=
  unfold makeMoveIfLegal, bind, lift, ret, throw, getBoard, getSide,
    isPathClear, commitMove in *.

Lemma makeMoveIfLegal_unchanged (m : move) (g g' : game) (c : completion bool) :
  makeMoveIfLegal m g = (c, g') ->
  c <> Normal true ->
  g' = g.
Proof.
  destruct m as [[fr fc] [tr tc]]. unfold_game. cbn [from to].
  intros H Hc.
  repeat (case_match; simplify_eq; try done).
Qed.

(** C10. Whenever [makeMoveIfLegal] returns [false], the board, the side
    to move and the history (with the move list) are what they were before
    the call. *)
Theorem makeMoveIfLegal_reject_atomic (m : move) (g g' : game) :
  makeMoveIfLegal m g = (Normal false, g') ->
  g' = g.
Proof.
  intros H. by apply makeMoveIfLegal_unchanged in H.
Qed.

Lemma makeMoveIfLegal_reject_atomic_witness :
  makeMoveIfLegal (Move (3, 4) (4, 4)) initialGame = (Normal false, initialGame)
  /\ initialGame = initialGame.
Proof.
  split; [reflexivity|].
  apply (makeMoveIfLegal_reject_atomic (Move (3, 4) (4, 4)) initialGame initialGame).
  reflexivity.
Defined.

(** C4 (amended).  [makeMoveIfLegal] has no bounds check.  A request with
    a coordinate off the 8x8 board returns [false] only when it dies in
    the early lines (origin on the board, empty or of the other side);
    every other such request raises a [TypeError].  Either way nothing of
    the game is changed. *)
Theorem makeMoveIfLegal_offBoard (m : move) (g : game) :
  wf_board (g_board g) = true ->
  onBoard (from m) && onBoard (to m) = false ->
  makeMoveIfLegal m g
  = (if rejectedEarly g m then Normal false else TypeError, g).
Proof.
  destruct m as [[fr fc] [tr tc]]. intros Hwf Hoff.
  unfold rejectedEarly. cbn [from to fst snd] in *.
  destruct (onBoard (fr, fc)) eqn:Hfrom; cbn [andb] in *.
  - pose proof (index2_onBoard _ _ _ Hwf Hfrom) as Hp.
    pose proof (index2_offBoard _ _ _ Hwf Hoff) as Ht.
    assert (Hne : (fr =? tr) && (fc =? tc) = false).
    { destruct (fr =? tr) eqn:E1, (fc =? tc) eqn:E2; try done.
      apply Z.eqb_eq in E1, E2. subst. congruence. }
    unfold_game. cbn [from to]. rewrite Hp. unfold isPieceOwnedBySide, isChar.
    destruct (cell (g_board g) fr fc =c? "."); [done|]. cbn [orb].
    destruct (if g_sideToMove g =c? "w" then _ else _); cbn [negb]; [|done].
    rewrite Hne. by destruct Ht as [-> | ->].
  - pose proof (index2_offBoard _ _ _ Hwf Hfrom) as Hp.
    unfold_game. cbn [from to]. by destruct Hp as [-> | ->].
Qed.

Lemma makeMoveIfLegal_offBoard_witness :
  wf_board (g_board initialGame) = true
  /\ onBoard (6, 4) && onBoard (8, 4) = false
  /\ makeMoveIfLegal (Move (6, 4) (8, 4)) initialGame = (TypeError, initialGame).
Proof.
  split; [reflexivity|]. split; [reflexivity|].
  apply (makeMoveIfLegal_offBoard (Move (6, 4) (8, 4)) initialGame); reflexivity.
Defined.

(** C4 as stated fails: the e2-pawn sent to row 8 raises a [TypeError]. *)
Lemma makeMoveIfLegal_offBoard_throws :
  onBoard (8, 4) = false
  /\ makeMoveIfLegal (Move (6, 4) (8, 4)) initialGame = (TypeError, initialGame)
  /\ fst (makeMoveIfLegal (Move (6, 4) (8, 4)) initialGame) <> Normal false.
Proof. split; [reflexivity|]. split; [reflexivity|discriminate]. Qed.

Lemma isPathClear_loop_fuel b dr dc tr tc :
  wf_board b = true ->
  forall k fuel r c,
    (k < fuel)%nat ->
    inRange (r + Z.of_nat k * dr) && inRange (c + Z.of_nat k * dc) = false ->
    isPathClear_loop fuel b dr dc r c tr tc <> OutOfFuel.
Proof.
  intros Hwf. induction k as [|k IH]; intros fuel r c Hk Hout;
    (destruct fuel as [|f]; [lia|]); cbn [isPathClear_loop];
    (destruct (negb (r =? tr) || negb (c =? tc)); [|done]).
  - replace (r + Z.of_nat 0 * dr) with r in Hout by lia.
    replace (c + Z.of_nat 0 * dc) with c in Hout by lia.
    by destruct (index2_offBoard b r c Hwf Hout) as [-> | ->].
  - destruct (index2 b r c) as [v| |] eqn:E; try done.
    + destruct (negb (isChar v ".")); [done|].
      apply IH; [lia|]. rewrite <- Hout. f_equal; f_equal; lia.
    + unfold index2 in E. by destruct (idx b r).
Qed.

(** On an 8x8 board the path loop of [makeMoveIfLegal] ends within its
    fuel. *)
Lemma makeMoveIfLegal_fuel (m : move) (g : game) :
  wf_board (g_board g) = true ->
  fst (makeMoveIfLegal m g) <> OutOfFuel.
Proof.
  intros Hwf. destruct m as [[fr fc] [tr tc]].
  assert (Hpath : forall g0, g_board g0 = g_board g ->
            index2 (g_board g) fr fc <> Normal None ->
            index2 (g_board g) fr fc <> TypeError ->
            (fr =? tr) && (fc =? tc) = false ->
            fst (isPathClear fr fc tr tc g0) <> OutOfFuel).
  { intros g0 Hg0 Hn Ht Hne. unfold isPathClear. cbn [fst]. rewrite Hg0.
    apply (isPathClear_loop_fuel _ _ _ _ _ Hwf 7); [lia|].
    change (Z.of_nat 7) with 7.
    destruct (onBoard (fr, fc)) eqn:E.
    - unfold onBoard, inRange, sign in *. cbn [fst snd] in E. lia.
    - by destruct (index2_offBoard _ _ _ Hwf E). }
  unfold makeMoveIfLegal, bind, lift, ret, throw, getBoard, getSide, commitMove.
  cbn [from to].
  destruct (index2 (g_board g) fr fc) as [piece| |] eqn:Ep; cbn [fst];
    [|done|unfold index2 in Ep; by destruct (idx (g_board g) fr)].
  destruct (isChar piece "."); [done|].
  destruct (isPieceOwnedBySide piece (g_sideToMove g)) as [owned| |] eqn:Eo;
    [|done|unfold isPieceOwnedBySide in Eo; by repeat case_match].
  destruct (negb owned); [done|].
  destruct ((fr =? tr) && (fc =? tc)) eqn:Hne; [done|].
  destruct (index2 (g_board g) tr tc) as [target| |] eqn:Et; cbn [fst];
    [|done|unfold index2 in Et; by destruct (idx (g_board g) tr)].
  destruct piece as [piece|]; [|done].
  destruct target as [target|]; [|done].
  specialize (Hpath g eq_refl ltac:(done) ltac:(done) eq_refl).
  destruct (isPathClear fr fc tr tc g) as [[clear| |] g1] eqn:Ec;
    cbn [fst] in Hpath; [| |done];
    repeat (case_match; try done).
Qed.

(** What an accepted request has gone through. *)
Lemma makeMoveIfLegal_accepted fr fc tr tc g g' :
  makeMoveIfLegal (Move (fr, fc) (tr, tc)) g = (Normal true, g') ->
  exists piece target,
    index2 (g_board g) fr fc = Normal (Some piece)
    /\ index2 (g_board g) tr tc = Normal (Some target)
    /\ (fr =? tr) && (fc =? tc) = false
    /\ g' = snd (commitMove fr fc tr tc piece target g).
Proof.
  unfold makeMoveIfLegal, bind, lift, ret, throw, getBoard, getSide, isPathClear.
  cbn [from to]. intros H.
  destruct (index2 (g_board g) fr fc) as [[piece|]| |] eqn:Ep;
    try (by repeat (case_match; simplify_eq)).
  destruct (index2 (g_board g) tr tc) as [[target|]| |] eqn:Et;
    try (by repeat (case_match; simplify_eq)).
  exists piece, target.
  destruct ((fr =? tr) && (fc =? tc)) eqn:Hne;
    [by repeat (case_match; simplify_eq)|].
  do 3 (split; [done|]).
  unfold commitMove in *. cbn [snd].
  repeat (case_match; simplify_eq; try done).
Qed.

(** [makeMoveIfLegal] accepts a pawn two-step only from the side's
    starting rank and onto an empty cell; it does not look at the cell in
    between. *)
Theorem accepted_double_step (fr fc tr : Z) (g g' : game) (piece : ascii) :
  makeMoveIfLegal (Move (fr, fc) (tr, fc)) g = (Normal true, g') ->
  index2 (g_board g) fr fc = Normal (Some piece) ->
  toLowerCase piece = "p" ->
  Z.abs (tr - fr) = 2 ->
  ((fr = 6 /\ tr = 4 /\ piece = "P") \/ (fr = 1 /\ tr = 3 /\ piece = "p"))
  /\ index2 (g_board g) tr fc = Normal (Some ".").
Proof.
  intros H Hp Hl Hd.
  unfold makeMoveIfLegal, bind, lift, ret, throw, getBoard, getSide in H.
  cbn [from to] in H. rewrite Hp in H.
  destruct (isChar (Some piece) "."); [done|].
  destruct (isPieceOwnedBySide _ _) as [[]| |]; try done. cbn [negb] in H.
  destruct ((fr =? tr) && (fc =? fc)); [done|].
  destruct (index2 (g_board g) tr fc) as [[target|]| |]; try done.
  destruct (negb (target =c? ".") && _); [done|].
  rewrite Hl in H. cbn [Ascii.eqb Bool.eqb] in H.
  rewrite Z.eqb_refl in H. cbn [andb] in H.
  destruct (target =c? ".") eqn:Et.
  - apply Ascii.eqb_eq in Et. subst target. split; [|done].
    destruct (tr =? fr + _) eqn:E1.
    { apply Z.eqb_eq in E1. destruct (piece =c? "P"); lia. }
    destruct (_ || _) eqn:E2; [|done].
    apply orb_prop in E2 as [E2|E2];
      apply andb_prop in E2 as [E2 E3]; apply andb_prop in E2 as [E2 E4];
      apply Z.eqb_eq in E2, E3; apply Ascii.eqb_eq in E4; auto.
  - replace (fc - fc) with 0 in H by lia. done.
Qed.

Lemma accepted_double_step_witness :
  fst (makeMoveIfLegal (Move (6, 0) (4, 0)) afterNa3) = Normal true
  /\ index2 (g_board afterNa3) 6 0 = Normal (Some "P")
  /\ index2 (g_board afterNa3) 4 0 = Normal (Some ".").
Proof.
  split; [reflexivity|]. split; [reflexivity|].
  apply (accepted_double_step 6 0 4 afterNa3
           (snd (makeMoveIfLegal (Move (6, 0) (4, 0)) afterNa3)) "P");
    reflexivity.
Defined.

(** C5.  The claim asks that a pawn two-step needs both cells in front of
    the pawn empty.  After 1. Nb1-a3 a7-a6 the knight stands on a3, and
    [makeMoveIfLegal] still accepts a2-a4; the generator, which tests the
    cell in between, does not emit that move. *)
Theorem pawn_double_step_jumps :
  cell (g_board afterNa3) 6 0 = "P"
  /\ cell (g_board afterNa3) 5 0 = "N"
  /\ cell (g_board afterNa3) 4 0 = "."
  /\ g_sideToMove afterNa3 = "w"
  /\ fst (makeMoveIfLegal (Move (6, 0) (4, 0)) afterNa3) = Normal true
  /\ cell (g_board (snd (makeMoveIfLegal (Move (6, 0) (4, 0)) afterNa3))) 4 0 = "P"
  /\ hasMove (Move (6, 0) (4, 0))
       (generateMovesForSide (g_board afterNa3) "w") = false.
Proof. vm_compute. repeat split; reflexivity. Qed.

(** ** Undo *)

(** C9 (amended).  With an empty history the click handler of [undoBtn]
    returns at once and leaves the board, the side to move, the history
    and the move list as they are.  It returns no value, as on every
    path. *)
Theorem undoClick_empty (g : game) :
  g_moves g = [] ->
  undoClick g = (Undefined, g).
Proof. intros H. unfold undoClick. by rewrite H. Qed.

Lemma undoClick_empty_witness :
  g_moves initialGame = [] /\ undoClick initialGame = (Undefined, initialGame).
Proof. split; [reflexivity|]. apply (undoClick_empty initialGame). reflexivity. Defined.

(** C9 as stated fails: the handler has no failure indicator.  It
    evaluates to [undefined] whether the history is empty or not. *)
Lemma undoClick_no_indicator :
  g_moves initialGame = []
  /\ fst (undoClick initialGame) <> Boolean false
  /\ g_moves (play [Move (6, 4) (4, 4)] initialGame) <> []
  /\ fst (undoClick initialGame)
     = fst (undoClick (play [Move (6, 4) (4, 4)] initialGame)).
Proof.
  split; [reflexivity|]. split; [discriminate|].
  split; [discriminate|reflexivity].
Qed.

Lemma flipSide_involutive side : validSide side = true -> flipSide (flipSide side) = side.
Proof.
  unfold validSide. intros H.
  destruct (side =c? "w") eqn:Ew.
  - apply Ascii.eqb_eq in Ew. by subst.
  - cbn in H. apply Ascii.eqb_eq in H. by subst.
Qed.

(** Undoing a committed move puts both cells back. *)
Lemma undo_commit_board (b : board) (fr fc tr tc : Z) (piece target : ascii) :
  index2 b fr fc = Normal (Some piece) ->
  index2 b tr tc = Normal (Some target) ->
  (fr =? tr) && (fc =? tc) = false ->
  setCell (setCell (setCell (setCell b tr tc (cell b fr fc)) fr fc ".")
             fr fc piece) tr tc target = b.
Proof.
  intros Hp Ht Hne.
  assert (Hcell : cell b fr fc = piece).
  { unfold index2, cell in *. destruct (idx b fr); [|done]. by injection Hp as ->. }
  rewrite Hcell. clear Hcell.
  unfold index2 in Hp, Ht.
  destruct (idx b fr) as [rowF|] eqn:EF; [|done]. injection Hp as Hp.
  destruct (idx b tr) as [rowT|] eqn:ET; [|done]. injection Ht as Ht.
  apply idx_nat in EF as [EF HF], ET as [ET HT], Hp as [Hp HFc], Ht as [Ht HTc].
  assert (HltF : (Z.to_nat fr < length b)%nat) by (by eapply lookup_lt_Some).
  assert (HltT : (Z.to_nat tr < length b)%nat) by (by eapply lookup_lt_Some).
  rewrite (setCell_nat b tr tc piece rowT) by done.
  destruct (decide (Z.to_nat fr = Z.to_nat tr)) as [Erow|Nrow].
  - (* both cells in one row *)
    assert (fr = tr) by lia. subst tr. simplify_eq.
    assert (Hcol : Z.to_nat fc <> Z.to_nat tc).
    { destruct (Z.eqb_spec fc tc); [|lia]. rewrite Z.eqb_refl in Hne. done. }
    rewrite (setCell_nat _ fr fc "." (<[Z.to_nat tc := piece]> rowF));
      [|by rewrite list_lookup_insert_eq|done..].
    rewrite list_insert_insert_eq.
    rewrite (setCell_nat _ fr fc piece
               (<[Z.to_nat fc := "."]> (<[Z.to_nat tc := piece]> rowF)));
      [|by rewrite list_lookup_insert_eq|done..].
    rewrite !list_insert_insert_eq.
    rewrite (setCell_nat _ fr tc target
               (<[Z.to_nat fc := piece]> (<[Z.to_nat tc := piece]> rowF)));
      [|by rewrite list_lookup_insert_eq|done..].
    rewrite !list_insert_insert_eq.
    rewrite (list_insert_insert_ne _ (Z.to_nat tc) (Z.to_nat fc)) by done.
    rewrite list_insert_insert_eq.
    rewrite (list_insert_id rowF (Z.to_nat tc)) by done.
    rewrite (list_insert_id rowF (Z.to_nat fc)) by done.
    by apply list_insert_id.
  - rewrite (setCell_nat _ fr fc "." rowF);
      [|by rewrite list_lookup_insert_ne|done..].
    rewrite (setCell_nat _ fr fc piece (<[Z.to_nat fc := "."]> rowF));
      [|by rewrite list_lookup_insert_eq by (by rewrite length_insert)|done..].
    rewrite !list_insert_insert_eq.
    rewrite (list_insert_id rowF (Z.to_nat fc)) by done.
    rewrite (list_insert_id _ (Z.to_nat fr) rowF)
      by (by rewrite list_lookup_insert_ne).
    rewrite (setCell_nat _ tr tc target (<[Z.to_nat tc := piece]> rowT));
      [|by rewrite list_lookup_insert_eq|done..].
    rewrite !list_insert_insert_eq.
    rewrite (list_insert_id rowT (Z.to_nat tc)) by done.
    by apply list_insert_id.
Qed.

(** One undo after a committed move gives back the game. *)
Lemma undo_commit (g : game) (fr fc tr tc : Z) (piece target : ascii) :
  validSide (g_sideToMove g) = true ->
  index2 (g_board g) fr fc = Normal (Some piece) ->
  index2 (g_board g) tr tc = Normal (Some target) ->
  (fr =? tr) && (fc =? tc) = false ->
  undoClick (snd (commitMove fr fc tr tc piece target g)) = (Undefined, g).
Proof.
  intros Hside Hp Ht Hne.
  unfold commitMove, undoClick, pop. cbn [snd g_moves g_board g_sideToMove g_moveList].
  rewrite last_snoc. cbn [e_from e_to e_piece e_captured fst snd].
  rewrite !removelast_last, flipSide_involutive by done.
  rewrite (undo_commit_board _ _ _ _ _ _ _ Hp Ht Hne).
  by destruct g.
Qed.

(** Every request [makeMoveIfLegal] accepts is undone exactly by one
    undo: board, side to move, history and move list are as before. *)
Theorem accepted_move_undone (m : move) (g g' : game) :
  validSide (g_sideToMove g) = true ->
  makeMoveIfLegal m g = (Normal true, g') ->
  undoClick g' = (Undefined, g).
Proof.
  destruct m as [[fr fc] [tr tc]]. intros Hside H.
  apply makeMoveIfLegal_accepted in H as (piece & target & Hp & Ht & Hne & ->).
  by apply undo_commit.
Qed.

Lemma accepted_move_undone_witness :
  validSide (g_sideToMove initialGame) = true
  /\ fst (makeMoveIfLegal (Move (6, 4) (4, 4)) initialGame) = Normal true
  /\ undoClick (snd (makeMoveIfLegal (Move (6, 4) (4, 4)) initialGame))
     = (Undefined, initialGame).
Proof.
  split; [reflexivity|]. split; [reflexivity|].
  apply (accepted_move_undone (Move (6, 4) (4, 4)) initialGame); reflexivity.
Defined.

(** *** Generated moves of the black side are accepted *)
Lemma makeMoveIfLegal_commits (g : game) (fr fc tr tc : Z) (piece target : ascii) :
  index2 (g_board g) fr fc = Normal (Some piece) ->
  index2 (g_board g) tr tc = Normal (Some target) ->
  (piece =c? ".") = false ->
  (if g_sideToMove g =c? "w" then piece =c? toUpperCase piece
   else piece =c? toLowerCase piece) = true ->
  (fr =? tr) && (fc =? tc) = false ->
  negb (target =c? ".")
  && Bool.eqb (target =c? toUpperCase target) (piece =c? toUpperCase piece) = false ->
  shapeAccepted (g_board g) piece target fr fc tr tc = true ->
  makeMoveIfLegal (Move (fr, fc) (tr, tc)) g = commitMove fr fc tr tc piece target g.
Proof.
  intros Hp Ht Hne Hown Hsq Hfr Hshape.
  unfold makeMoveIfLegal, bind, lift, ret, throw, getBoard, getSide, isPathClear.
  cbn [from to]. rewrite Hp. unfold isChar at 1. rewrite Hne.
  unfold isPieceOwnedBySide, isChar. rewrite Hne, Hown. cbn [negb].
  rewrite Hsq, Ht, Hfr.
  unfold shapeAccepted, pathClear in Hshape.
  repeat match goal with
         | |- context [if ?x then _ else _] =>
             lazymatch x with
             | context [if _ then _ else _] => fail
             | _ => idtac
             end;
             destruct x eqn:?; cbn [negb andb orb] in *; try done
         | |- context [match ?x with _ => _ end] =>
             destruct x as [[]| |] eqn:?; try done
         end.
  all: exfalso;
    repeat match goal with
           | H : negb _ = true |- _ => apply negb_true_iff in H
           | H : negb _ = false |- _ => apply negb_false_iff in H
           end;
    try match goal with
        | H : isPathClear_loop _ _ _ _ _ _ _ _ = _ |- _ => rewrite H in Hshape
        end;
    try (apply andb_prop in Hshape as [? ?]);
    repeat match goal with
           | H : negb _ = true |- _ => apply negb_true_iff in H
           | H : negb _ = false |- _ => apply negb_false_iff in H
           end;
    (congruence || done).
Qed.

Lemma ray_clear (b : board) (r c : Z) (p : ascii) (d1 d2 : Z) :
  wf_board b = true -> unitStep (d1, d2) = true ->
  forall fuel rr cc tr tc,
    In (mv r c tr tc) (ray fuel b r c p (d1, d2) rr cc) ->
    (exists k, 0 <= k /\ tr = rr + k * d1 /\ tc = cc + k * d2)
    /\ isPathClear_loop fuel b d1 d2 rr cc tr tc = Normal true.
Proof.
  intros Hwf Hd.
  assert (Hd1 : d1 = -1 \/ d1 = 0 \/ d1 = 1) by (unfold unitStep in Hd; cbn in Hd; lia).
  assert (Hd2 : d2 = -1 \/ d2 = 0 \/ d2 = 1) by (unfold unitStep in Hd; cbn in Hd; lia).
  assert (Hnz : d1 <> 0 \/ d2 <> 0) by (unfold unitStep in Hd; cbn in Hd; lia).
  induction fuel as [|fuel IH]; intros rr cc tr tc H; [done|].
  cbn [ray fst snd] in H.
  destruct (inRange rr) eqn:Er; [|done].
  destruct (inRange cc) eqn:Ec; [|done]. cbn [andb] in H.
  assert (Hhere : mv r c rr cc = mv r c tr tc ->
            (exists k, 0 <= k /\ tr = rr + k * d1 /\ tc = cc + k * d2)
            /\ isPathClear_loop (S fuel) b d1 d2 rr cc tr tc = Normal true).
  { intros [= <- <-]. split; [exists 0; lia|].
    cbn [isPathClear_loop]. by rewrite !Z.eqb_refl. }
  destruct (cell b rr cc =c? ".") eqn:Ecell.
  - destruct H as [H | H]; [by apply Hhere|].
    apply IH in H as [(k & Hk & -> & ->) Hloop]. split.
    + exists (k + 1). lia.
    + cbn [isPathClear_loop].
      replace (negb (rr =? rr + d1 + k * d1) || negb (cc =? cc + d2 + k * d2))
        with true.
      2:{ symmetry. apply orb_true_iff. rewrite !negb_true_iff, !Z.eqb_neq.
          destruct Hd1 as [-> | [-> | ->]], Hd2 as [-> | [-> | ->]]; lia. }
      rewrite (index2_onBoard b rr cc Hwf)
        by (unfold onBoard; cbn [fst snd]; by rewrite Er, Ec).
      unfold isChar. rewrite Ecell. cbn [negb]. exact Hloop.
  - destruct (isOpposite _ _); [|done].
    destruct H as [H | []]. by apply Hhere.
Qed.

Lemma black_pawn_letter (p : ascii) :
  toLowerCase p = "p" -> (p =c? toUpperCase p) = false -> p = "p".
Proof.
  intros H1 H2. destruct (pawn_letter p H1) as [[_ H] | [H _]]; [congruence|done].
Qed.

Lemma pawnMoves_pass b r c :
  (toLowerCase (cell b r c) =c? "p") = true ->
  (cell b r c =c? toUpperCase (cell b r c)) = false ->
  forall m, In m (pawnMoves b r c (cell b r c) false) -> passes b r c m.
Proof.
  intros Et Eu m. apply Ascii.eqb_eq in Et.
  pose proof (black_pawn_letter _ Et Eu) as Ep.
  unfold pawnMoves. cbn [flat_map]. rewrite !in_app_iff.
  unfold passes, shapeAccepted. rewrite Ep. cbn [toLowerCase Ascii.eqb Bool.eqb].
  change (toLowerCase "p" =c? "p") with true. cbn iota.
  intros [H | [[H | [H | []]] | H]].
  - destruct (inRange _); [|done].
    destruct (cell b (r + 1) c =c? ".") eqn:E2; [|done].
    destruct H as [<- | []]. cbn [mv from to fst snd].
    rewrite E2, Z.eqb_refl. cbn. split; [done|]. split; lia.
  - destruct (inRange (r + 1)); [|done].
    destruct (inRange (c + -1)); [|done].
    destruct (cell b (r + 1) (c + -1) =c? ".") eqn:E2; [done|].
    destruct (isOpposite _ _); [|done].
    destruct H as [<- | []]. cbn [mv from to fst snd].
    rewrite E2. cbn [negb andb].
    replace (c =? c + -1) with false by lia. cbn [andb].
    split; [done|]. split; lia.
  - destruct (inRange (r + 1)); [|done].
    destruct (inRange (c + 1)); [|done].
    destruct (cell b (r + 1) (c + 1) =c? ".") eqn:E2; [done|].
    destruct (isOpposite _ _); [|done].
    destruct H as [<- | []]. cbn [mv from to fst snd].
    rewrite E2. cbn [negb andb].
    replace (c =? c + 1) with false by lia. cbn [andb].
    split; [done|]. split; lia.
  - cbn [negb andb orb] in H. rewrite andb_false_r, andb_true_r in H. cbn [orb] in H.
    destruct (r =? 1) eqn:Er; [|done]. apply Z.eqb_eq in Er. subst r.
    destruct (cell b (1 + 1) c =c? "."); [|done].
    destruct (cell b (1 + 1 * 2) c =c? ".") eqn:E2; [|done].
    destruct H as [<- | []]. cbn [mv from to fst snd].
    rewrite E2, Z.eqb_refl. cbn. done.
Qed.

Lemma stepMoves_pass_knight b r c :
  (toLowerCase (cell b r c) =c? "n") = true ->
  forall m, In m (stepMoves b r c (cell b r c) knightDeltas) -> passes b r c m.
Proof.
  intros Et m. apply Ascii.eqb_eq in Et.
  unfold stepMoves, passes, shapeAccepted, knightDeltas. rewrite Et.
  change ("n" =c? "p") with false. change ("n" =c? "n") with true. cbn iota.
  cbn [flat_map fst snd]. rewrite !in_app_iff.
  intros H.
  repeat (destruct H as [H | H]);
    try (destruct H);
    (destruct (negb _ || negb _); [done|]);
    (destruct (_ || _); [|done]);
    (destruct H as [<- | []]); cbn [mv from to fst snd];
    (split; [done|]); split; lia.
Qed.

Lemma stepMoves_pass_king b r c :
  (toLowerCase (cell b r c) =c? "k") = true ->
  forall m, In m (stepMoves b r c (cell b r c) kingDeltas) -> passes b r c m.
Proof.
  intros Et m. apply Ascii.eqb_eq in Et.
  unfold stepMoves, passes, shapeAccepted, kingDeltas. rewrite Et.
  change ("k" =c? "p") with false. change ("k" =c? "n") with false.
  change ("k" =c? "b") with false. change ("k" =c? "r") with false.
  change ("k" =c? "q") with false. change ("k" =c? "k") with true. cbn iota.
  cbn [flat_map fst snd]. rewrite !in_app_iff.
  intros H.
  repeat (destruct H as [H | H]);
    try (destruct H);
    (destruct (negb _ || negb _); [done|]);
    (destruct (_ || _); [|done]);
    (destruct H as [<- | []]); cbn [mv from to fst snd];
    (split; [done|]); split; lia.
Qed.

Lemma pathClear_ray (b : board) (r c : Z) (p : ascii) (d1 d2 tr tc : Z) :
  wf_board b = true -> unitStep (d1, d2) = true ->
  In (mv r c tr tc) (ray 8 b r c p (d1, d2) (r + d1) (c + d2)) ->
  pathClear b r c tr tc = true
  /\ exists k, 0 <= k /\ tr = r + d1 + k * d1 /\ tc = c + d2 + k * d2.
Proof.
  intros Hwf Hd H.
  destruct (ray_clear b r c p d1 d2 Hwf Hd 8 _ _ _ _ H) as [(k & Hk & Htr & Htc) Hloop].
  split; [|by exists k].
  unfold pathClear, sign.
  assert (Hd1 : d1 = -1 \/ d1 = 0 \/ d1 = 1) by (unfold unitStep in Hd; cbn in Hd; lia).
  assert (Hd2 : d2 = -1 \/ d2 = 0 \/ d2 = 1) by (unfold unitStep in Hd; cbn in Hd; lia).
  replace (Z.sgn (tr - r)) with d1
    by (destruct Hd1 as [-> | [-> | ->]]; lia).
  replace (Z.sgn (tc - c)) with d2
    by (destruct Hd2 as [-> | [-> | ->]]; lia).
  by rewrite Hloop.
Qed.

Lemma slideMoves_pass b r c deltas :
  wf_board b = true ->
  (let t := toLowerCase (cell b r c) in
   (t = "b" /\ deltas = bishopDeltas)
   \/ (t = "r" /\ deltas = rookDeltas)
   \/ (t = "q" /\ deltas = queenDeltas)) ->
  forall m, In m (slideMoves b r c (cell b r c) deltas) -> passes b r c m.
Proof.
  intros Hwf Ht m H.
  pose proof (slideMoves_emitted _ _ _ _ _ H) as [Hfrom _].
  destruct m as [[fr fc] [tr tc]]. cbn [from] in Hfrom. injection Hfrom as -> ->.
  unfold slideMoves in H. apply in_flat_map in H as ([d1 d2] & Hd & H).
  cbn [fst snd] in H.
  assert (Hunit : unitStep (d1, d2) = true).
  { destruct Ht as [[_ ->] | [[_ ->] | [_ ->]]]; cbn in Hd;
      repeat (destruct Hd as [[= <- <-] | Hd]; [done|]); done. }
  destruct (pathClear_ray b r c _ d1 d2 tr tc Hwf Hunit H)
    as [Hclear (k & Hk & Htr & Htc)].
  unfold passes, shapeAccepted. cbn [from to fst snd]. rewrite Hclear.
  split; [done|].
  destruct Ht as [[Et ->] | [[Et ->] | [Et ->]]]; cbn zeta in Et; rewrite Et;
    cbn [Ascii.eqb Bool.eqb]; cbn iota; cbn in Hd;
    repeat (destruct Hd as [[= <- <-] | Hd]; [split; lia|]); done.
Qed.

Lemma movesFrom_pass b r c m :
  wf_board b = true ->
  (cell b r c =c? toUpperCase (cell b r c)) = false ->
  In m (movesFrom b "b" r c) -> passes b r c m.
Proof.
  intros Hwf Eu. unfold movesFrom.
  destruct (cell b r c =c? "."); [done|]. rewrite Eu.
  cbn [Ascii.eqb Bool.eqb negb].
  destruct (toLowerCase (cell b r c) =c? "p") eqn:Ep;
    [by apply pawnMoves_pass|].
  destruct (toLowerCase (cell b r c) =c? "n") eqn:En;
    [by apply stepMoves_pass_knight|].
  destruct (toLowerCase (cell b r c) =c? "b") eqn:Eb.
  { cbn [orb]. apply slideMoves_pass; [done|]. left. by apply Ascii.eqb_eq in Eb. }
  destruct (toLowerCase (cell b r c) =c? "r") eqn:Er.
  { cbn [orb]. apply slideMoves_pass; [done|]. right. left.
    by apply Ascii.eqb_eq in Er. }
  destruct (toLowerCase (cell b r c) =c? "q") eqn:Eq.
  { cbn [orb]. apply slideMoves_pass; [done|]. right. right.
    by apply Ascii.eqb_eq in Eq. }
  cbn [orb].
  destruct (toLowerCase (cell b r c) =c? "k") eqn:Ek;
    [by apply stepMoves_pass_king|done].
Qed.

(** With black to move, every move the generator returns is accepted by
    [makeMoveIfLegal], and one undo then restores the game: the round trip
    of C2 holds for the side whose generated moves the program executes
    (the automated opponent in [aiMove]). *)
Theorem black_generated_move_round_trip (g : game) (m : move) :
  wf_board (g_board g) = true ->
  g_sideToMove g = "b" ->
  In m (generateMovesForSide (g_board g) "b") ->
  fst (makeMoveIfLegal m g) = Normal true
  /\ undoClick (snd (makeMoveIfLegal m g)) = (Undefined, g).
Proof.
  intros Hwf Hside Hin.
  destruct (generated_moves_shape _ _ _ Hin) as (Hon & Hp & Hs & Hl).
  apply generated_from in Hin as (r & c & Hr & Hc & Hin).
  destruct (movesFrom_emitted _ _ _ _ _ Hr Hc Hin) as ([Hfrom _] & _ & _).
  rewrite Hfrom in Hon, Hp, Hs. cbn [fst snd] in Hp, Hs.
  change ("b" =c? "w") with false in Hs. symmetry in Hs.
  destruct (movesFrom_pass _ _ _ _ Hwf Hs Hin) as (_ & Hsq & Hshape).
  unfold landsOnEmptyOrWhite in Hl. apply andb_prop in Hl as [Hto Hl].
  destruct m as [[fr fc] [tr tc]]. cbn [from to fst snd] in *.
  injection Hfrom as -> ->.
  assert (E : makeMoveIfLegal (Move (r, c) (tr, tc)) g
              = commitMove r c tr tc (cell (g_board g) r c) (cell (g_board g) tr tc) g).
  { apply makeMoveIfLegal_commits; try done.
    - by apply index2_onBoard.
    - by apply index2_onBoard.
    - rewrite Hside. change ("b" =c? "w") with false. cbn iota.
      by apply lower_of_not_upper.
    - rewrite Hs. destruct (cell (g_board g) tr tc =c? "."); [done|].
      cbn [orb] in Hl. by rewrite Hl. }
  rewrite E. split; [done|].
  apply undo_commit.
  - unfold validSide. by rewrite Hside.
  - by apply index2_onBoard.
  - by apply index2_onBoard.
  - done.
Qed.

Lemma black_generated_move_round_trip_witness :
  wf_board (g_board (play [Move (6, 4) (4, 4)] initialGame)) = true
  /\ g_sideToMove (play [Move (6, 4) (4, 4)] initialGame) = "b"
  /\ In (Move (0, 1) (2, 2))
       (generateMovesForSide (g_board (play [Move (6, 4) (4, 4)] initialGame)) "b")
  /\ fst (makeMoveIfLegal (Move (0, 1) (2, 2)) (play [Move (6, 4) (4, 4)] initialGame))
     = Normal true
  /\ undoClick
       (snd (makeMoveIfLegal (Move (0, 1) (2, 2)) (play [Move (6, 4) (4, 4)] initialGame)))
     = (Undefined, play [Move (6, 4) (4, 4)] initialGame).
Proof.
  assert (Hin : In (Move (0, 1) (2, 2))
                  (generateMovesForSide
                     (g_board (play [Move (6, 4) (4, 4)] initialGame)) "b")).
  { vm_compute. by left. }
  split; [reflexivity|]. split; [reflexivity|]. split; [exact Hin|].
  apply (black_generated_move_round_trip (play [Move (6, 4) (4, 4)] initialGame)
           (Move (0, 1) (2, 2)));
    [reflexivity | reflexivity | exact Hin].
Defined.

(** C2.  The claim asks that a generated move, executed and undone, leaves
    board and side as they were.  After 1. e2-e4 e7-e5 the generator
    emits, for white, the knight move b1-d2 onto white's own pawn;
    [makeMoveIfLegal] rejects it, and the undo that follows takes back
    e7-e5 instead. *)
Theorem generated_move_then_undo_drifts :
  hasMove (Move (7, 1) (6, 3))
    (generateMovesForSide (g_board afterE4E5) (g_sideToMove afterE4E5)) = true
  /\ makeMoveIfLegal (Move (7, 1) (6, 3)) afterE4E5 = (Normal false, afterE4E5)
  /\ cell (g_board afterE4E5) 3 4 = "p"
  /\ cell (g_board
             (snd (undoClick (snd (makeMoveIfLegal (Move (7, 1) (6, 3)) afterE4E5)))))
       3 4 = "."
  /\ g_sideToMove afterE4E5 = "w"
  /\ g_sideToMove
       (snd (undoClick (snd (makeMoveIfLegal (Move (7, 1) (6, 3)) afterE4E5))))
     = "b".
Proof. vm_compute. repeat split; reflexivity. Qed.

(** ** The heap during a search *)

Section Heap.

Implicit Types (h k : list obj) (b nb : nat) (B : board) (w : world).

Lemma isBoard_lt h b : isBoard h b = true -> (b < length h)%nat.
Proof.
  unfold isBoard. destruct (h !! b) eqn:E; [|done].
  intros _. by eapply lookup_lt_Some.
Qed.

Lemma isBoard_rows h b r :
  isBoard h b = true -> In r (gridRows h b) ->
  exists cs, h !! r = Some (Row cs).
Proof.
  unfold isBoard, gridRows. destruct (h !! b) as [[|rs]|]; try done.
  intros H Hin. rewrite forallb_forall in H. specialize (H r Hin).
  destruct (h !! r) as [[cs|]|]; try done. eauto.
Qed.

Lemma gridRows_app h k b : (b < length h)%nat -> gridRows (h ++ k) b = gridRows h b.
Proof. intros. unfold gridRows. by rewrite lookup_app_l. Qed.

Lemma rowCells_app h k r : (r < length h)%nat -> rowCells (h ++ k) r = rowCells h r.
Proof. intros. unfold rowCells. by rewrite lookup_app_l. Qed.

Lemma readBoard_app h k b :
  isBoard h b = true -> readBoard (h ++ k) b = readBoard h b.
Proof.
  intros Hb. unfold readBoard.
  rewrite gridRows_app by by apply isBoard_lt.
  apply map_ext_in. intros r Hin.
  destruct (isBoard_rows _ _ _ Hb Hin) as [cs Hcs].
  apply rowCells_app. by eapply lookup_lt_Some.
Qed.

Lemma isBoard_app h k b : isBoard h b = true -> isBoard (h ++ k) b = true.
Proof.
  intros Hb. pose proof (isBoard_lt _ _ Hb) as Hlt.
  pose proof (fun r => isBoard_rows h b r Hb) as Hrows.
  unfold isBoard, gridRows in *. rewrite lookup_app_l by done.
  destruct (h !! b) as [[|rs]|]; try done.
  apply forallb_forall. intros r Hin.
  destruct (Hrows r Hin) as [cs Hcs].
  by rewrite (lookup_app_l_Some _ _ _ _ Hcs).
Qed.

(** A freshly allocated board reads back as its value. *)
Lemma readBoard_boardObjs h B :
  readBoard (h ++ boardObjs (length h) B) (length h + length B) = B.
Proof.
  unfold readBoard, gridRows, boardObjs.
  rewrite lookup_app_r by lia. rewrite lookup_app_r by (rewrite length_map; lia).
  rewrite length_map. replace (_ - _ - _)%nat with 0%nat by lia. cbn.
  apply list_eq. intros i. rewrite list_lookup_fmap.
  destruct (B !! i) as [row|] eqn:E.
  - rewrite lookup_seq_lt by (by eapply lookup_lt_Some). cbn.
    unfold rowCells. rewrite lookup_app_r by lia.
    replace (_ - _)%nat with i by lia.
    rewrite lookup_app_l by (rewrite length_map; by eapply lookup_lt_Some).
    by rewrite list_lookup_fmap, E.
  - rewrite lookup_seq_ge; [done|]. by apply lookup_ge_None.
Qed.

Lemma isBoard_boardObjs h B :
  isBoard (h ++ boardObjs (length h) B) (length h + length B) = true.
Proof.
  unfold isBoard, boardObjs.
  rewrite lookup_app_r by lia. rewrite lookup_app_r by (rewrite length_map; lia).
  rewrite length_map. replace (_ - _ - _)%nat with 0%nat by lia. cbn.
  apply forallb_forall. intros r Hin. apply in_seq in Hin.
  rewrite lookup_app_r by lia.
  rewrite lookup_app_l by (rewrite length_map; lia).
  rewrite list_lookup_fmap.
  destruct (B !! (r - length h)%nat) eqn:E; [done|].
  apply lookup_ge_None in E. lia.
Qed.

Lemma sliceRows_spec rs w :
  (forall r, In r rs -> (r < length (heap w))%nat) ->
  sliceRows rs w
  = (seq (length (heap w)) (length rs),
     World (heap w ++ map (fun r => Row (rowCells (heap w) r)) rs) (ticks w)).
Proof.
  revert w. induction rs as [|r rs IH]; intros [h t] Hv; cbn in *.
  - unfold wret. by rewrite app_nil_r.
  - unfold wbind, alloc, wret. cbn.
    rewrite IH; cbn.
    + rewrite length_app. cbn. rewrite Nat.add_1_r, <- app_assoc. cbn.
      do 4 f_equal. apply map_ext_in. intros r' Hin.
      f_equal. apply rowCells_app. auto.
    + intros r' Hin. rewrite length_app. specialize (Hv r' (or_intror Hin)). cbn. lia.
Qed.

Lemma cloneBoard_spec b w :
  isBoard (heap w) b = true ->
  cloneBoard b w
  = ((length (heap w) + length (readBoard (heap w) b))%nat,
     World (heap w ++ boardObjs (length (heap w)) (readBoard (heap w) b)) (ticks w)).
Proof.
  intros Hb. unfold cloneBoard, wbind.
  rewrite sliceRows_spec.
  - unfold alloc, boardObjs, readBoard. cbn.
    rewrite length_app, !length_map, <- app_assoc, map_map. done.
  - intros r Hin. destruct (isBoard_rows _ _ _ Hb Hin) as [cs Hcs].
    by eapply lookup_lt_Some.
Qed.

(** A write into a freshly allocated board is the write on its value. *)
Lemma writeCell_boardObjs h t B r c v :
  writeCell (length h + length B) r c v
    (World (h ++ boardObjs (length h) B) t)
  = (tt, World (h ++ boardObjs (length h) (setCell B r c v)) t).
Proof.
  unfold writeCell. cbn [heap ticks].
  assert (Hg : gridRows (h ++ boardObjs (length h) B) (length h + length B)
               = seq (length h) (length B)).
  { unfold gridRows, boardObjs.
    rewrite lookup_app_r by lia. rewrite lookup_app_r by (rewrite length_map; lia).
    rewrite length_map. by replace (_ - _ - _)%nat with 0%nat by lia. }
  rewrite Hg. unfold setCell.
  destruct (idx B r) as [row|] eqn:E.
  - apply idx_lt in E as (H0 & Hlt & E).
    unfold idx. destruct (Z.leb_spec 0 r); [|lia].
    rewrite lookup_seq_lt by done.
    do 2 f_equal. unfold boardObjs.
    rewrite length_upd.
    rewrite insert_app_r_alt by lia.
    replace (_ + _ - _)%nat with (Z.to_nat r) by lia.
    rewrite insert_app_l by (by rewrite length_map).
    do 2 f_equal. rewrite upd_map. unfold upd at 2.
    destruct (Z.leb_spec 0 r); [|lia]. do 2 f_equal.
    unfold rowCells. rewrite lookup_app_r by lia.
    replace (_ + _ - _)%nat with (Z.to_nat r) by lia.
    rewrite lookup_app_l by (by rewrite length_map).
    by rewrite list_lookup_fmap, E.
  - unfold idx in *. destruct (0 <=? r); [|done].
    apply lookup_ge_None in E. by rewrite lookup_seq_ge.
Qed.

(** [makeMoveOnBoard] allocates the moved board and touches nothing else. *)
Lemma makeMoveOnBoard_spec b m w :
  isBoard (heap w) b = true ->
  makeMoveOnBoard b m w
  = ((length (heap w) + length (readBoard (heap w) b))%nat,
     World (heap w
              ++ boardObjs (length (heap w)) (moveOnBoard (readBoard (heap w) b) m))
       (ticks w)).
Proof.
  intros Hb. destruct m as [[fr fc] [tr tc]].
  unfold makeMoveOnBoard, wbind. rewrite (cloneBoard_spec _ _ Hb).
  cbn [from to]. unfold snapshot. cbn [heap ticks].
  rewrite readBoard_boardObjs.
  rewrite writeCell_boardObjs.
  rewrite <- (length_setCell (readBoard (heap w) b) tr tc
                (cell (readBoard (heap w) b) fr fc)) at 1.
  rewrite writeCell_boardObjs. reflexivity.
Qed.

Lemma extends_refl w : extends w w.
Proof. exists []. by rewrite app_nil_r. Qed.

Lemma extends_heap w w' : heap w' = heap w -> extends w w'.
Proof. intros H. exists []. by rewrite app_nil_r. Qed.

Lemma extends_trans w1 w2 w3 : extends w1 w2 -> extends w2 w3 -> extends w1 w3.
Proof. intros [k1 H1] [k2 H2]. exists (k1 ++ k2). by rewrite H2, H1, app_assoc. Qed.

Lemma extends_isBoard w w' b :
  extends w w' -> isBoard (heap w) b = true -> isBoard (heap w') b = true.
Proof. intros [k ->]. apply isBoard_app. Qed.

Lemma extends_readBoard w w' b :
  extends w w' -> isBoard (heap w) b = true ->
  readBoard (heap w') b = readBoard (heap w) b.
Proof. intros [k ->]. apply readBoard_app. Qed.

Lemma extends_lookup w w' r o :
  extends w w' -> heap w !! r = Some o -> heap w' !! r = Some o.
Proof. intros [k ->]. apply lookup_app_l_Some. Qed.

Lemma makeMoveOnBoard_child b m w nb w' :
  isBoard (heap w) b = true ->
  makeMoveOnBoard b m w = (nb, w') ->
  extends w w'
  /\ ticks w' = ticks w
  /\ isBoard (heap w') nb = true
  /\ readBoard (heap w') nb = moveOnBoard (readBoard (heap w) b) m.
Proof.
  intros Hb. rewrite (makeMoveOnBoard_spec _ _ _ Hb). intros [= <- <-].
  cbn [heap ticks]. split; [by eexists|]. split; [done|].
  rewrite <- (length_moveOnBoard (readBoard (heap w) b) m).
  split; [apply isBoard_boardObjs | apply readBoard_boardObjs].
Qed.

End Heap.

Section Frame.

Variable clock : nat -> Z.

Lemma maxLoop_extends rec b start limit :
  allocates rec ->
  forall moves m a be w,
    isBoard (heap w) b = true ->
    extends w (snd (maxLoop clock rec b start limit moves m a be w)).
Proof.
  intros Hrec. induction moves as [|mv rest IH]; intros m a be w Hb; cbn.
  - apply extends_refl.
  - unfold wbind.
    destruct (makeMoveOnBoard b mv w) as [nb w1] eqn:E1.
    destruct (makeMoveOnBoard_child _ _ _ _ _ Hb E1) as (X1 & _ & Hnb & _).
    pose proof (Hrec nb a be w1 Hnb) as X2.
    destruct (rec nb a be w1) as [ev w2]. cbn [snd] in X2.
    pose proof (extends_trans _ _ _ X1 X2) as X12.
    destruct (NumOps.leb _ _); [done|].
    cbn. destruct (_ >? _); [done|].
    eapply extends_trans; [|apply IH].
    + destruct X12 as [k Hk]. exists k. done.
    + cbn. eapply extends_isBoard; [|done]. done.
Qed.

Lemma minLoop_extends rec b start limit :
  allocates rec ->
  forall moves m a be w,
    isBoard (heap w) b = true ->
    extends w (snd (minLoop clock rec b start limit moves m a be w)).
Proof.
  intros Hrec. induction moves as [|mv rest IH]; intros m a be w Hb; cbn.
  - apply extends_refl.
  - unfold wbind.
    destruct (makeMoveOnBoard b mv w) as [nb w1] eqn:E1.
    destruct (makeMoveOnBoard_child _ _ _ _ _ Hb E1) as (X1 & _ & Hnb & _).
    pose proof (Hrec nb a be w1 Hnb) as X2.
    destruct (rec nb a be w1) as [ev w2]. cbn [snd] in X2.
    pose proof (extends_trans _ _ _ X1 X2) as X12.
    destruct (NumOps.leb _ _); [done|].
    cbn. destruct (_ >? _); [done|].
    eapply extends_trans; [|apply IH].
    + destruct X12 as [k Hk]. exists k. done.
    + cbn. eapply extends_isBoard; [|done]. done.
Qed.

Lemma minimax_extends depth :
  forall b side a be start limit w,
    isBoard (heap w) b = true ->
    extends w (snd (minimax clock depth b side a be start limit w)).
Proof.
  induction depth as [|d IH]; intros b side a be start limit w Hb;
    cbn -[evaluateBoardSimple generateMovesForSide maxLoop minLoop];
    unfold wbind, performanceNow, evaluate, generate;
    cbn -[evaluateBoardSimple generateMovesForSide maxLoop minLoop].
  - destruct (_ >? _); by apply extends_heap.
  - destruct (_ >? _); [by apply extends_heap|].
    destruct (generateMovesForSide _ _) as [|m0 ms]; [by apply extends_heap|].
    destruct (side =c? "w").
    + apply (maxLoop_extends _ b start limit
               (fun nb a be w Hnb => IH nb "b" a be start limit w Hnb)
               (m0 :: ms) NegInf a be (World (heap w) (S (ticks w))) Hb).
    + apply (minLoop_extends _ b start limit
               (fun nb a be w Hnb => IH nb "w" a be start limit w Hnb)
               (m0 :: ms) PosInf a be (World (heap w) (S (ticks w))) Hb).
Qed.

Lemma rootLoop_extends (rec : nat -> W num) b side start limit :
  (forall nb w, isBoard (heap w) nb = true -> extends w (snd (rec nb w))) ->
  forall moves bm bs w,
    isBoard (heap w) b = true ->
    extends w (snd (rootLoop clock rec b side start limit moves bm bs w)).
Proof.
  intros Hrec. induction moves as [|mv rest IH]; intros bm bs w Hb; cbn.
  - apply extends_refl.
  - unfold wbind.
    destruct (makeMoveOnBoard b mv w) as [nb w1] eqn:E1.
    destruct (makeMoveOnBoard_child _ _ _ _ _ Hb E1) as (X1 & _ & Hnb & _).
    pose proof (Hrec nb w1 Hnb) as X2.
    destruct (rec nb w1) as [ev w2]. cbn [snd] in X2.
    pose proof (extends_trans _ _ _ X1 X2) as X12.
    cbn. destruct (_ >? _); [done|].
    eapply extends_trans; [|apply IH].
    + destruct X12 as [k Hk]. exists k. done.
    + cbn. eapply extends_isBoard; [|done]. done.
Qed.

Lemma minimaxRoot_extends b depth side limit w :
  isBoard (heap w) b = true ->
  extends w (snd (minimaxRoot clock b depth side limit w)).
Proof.
  intros Hb. unfold minimaxRoot, minimaxRootScored, wbind,
    performanceNow, generate, snapshot.
  cbn -[generateMovesForSide rootLoop minimax sortBy].
  match goal with
  | |- context [rootLoop ?c ?rec ?b ?s ?st ?l ?ms ?bm ?bs ?w0] =>
      pose proof (rootLoop_extends rec b s st l
                    (fun nb w Hnb => minimax_extends _ nb _ _ _ _ _ w Hnb)
                    ms bm bs w0 Hb) as X;
      destruct (rootLoop c rec b s st l ms bm bs w0) as [res w']
  end.
  cbn in *. destruct X as [k Hk]. by exists k.
Qed.

End Frame.

(** C8. [minimaxRoot] and [minimax] never write to the board they are
    given: whatever the depth, the side, the window and the clock, every
    array that was on the heap before the call is unchanged after it, so
    the caller's board reads cell for cell as before. *)
Theorem search_leaves_board (clock : nat -> Z) (b depth : nat) (side : ascii)
    (a be : num) (start limit : Z) (w : world) :
  isBoard (heap w) b = true ->
  let afterRoot := snd (minimaxRoot clock b depth side limit w) in
  let afterNode := snd (minimax clock depth b side a be start limit w) in
  (forall r o, heap w !! r = Some o ->
     heap afterRoot !! r = Some o /\ heap afterNode !! r = Some o)
  /\ readBoard (heap afterRoot) b = readBoard (heap w) b
  /\ readBoard (heap afterNode) b = readBoard (heap w) b.
Proof.
  intros Hb afterRoot afterNode.
  pose proof (minimaxRoot_extends clock b depth side limit w Hb) as X1.
  pose proof (minimax_extends clock depth b side a be start limit w Hb) as X2.
  split; [|split].
  - intros r o Hr. split; eapply extends_lookup; eauto.
  - by apply extends_readBoard.
  - by apply extends_readBoard.
Qed.

Lemma search_leaves_board_witness :
  isBoard (heap endgameWorld) endgameRef = true
  /\ readBoard
       (heap (snd (minimaxRoot (fun k => Z.of_nat k) endgameRef 3 "b" 900 endgameWorld)))
       endgameRef
     = readBoard (heap endgameWorld) endgameRef
  /\ readBoard
       (heap (snd (minimax (fun k => Z.of_nat k) 3 endgameRef "b" NegInf PosInf 0 900
                     endgameWorld)))
       endgameRef
     = readBoard (heap endgameWorld) endgameRef.
Proof.
  split; [reflexivity|].
  apply (search_leaves_board (fun k => Z.of_nat k) endgameRef 3 "b" NegInf PosInf 0 900
           endgameWorld).
  reflexivity.
Defined.

(** The heap tells a deep copy from a shallow one: a write through a copy
    of the outer array alone would reach the caller's board. *)
Example shallow_copy_would_alias :
  let '(nb, w1) := cloneOuterOnly endgameRef endgameWorld in
  let '(_, w2) := writeCell nb 0 4 "." w1 in
  cell (readBoard (heap endgameWorld) endgameRef) 0 4 = "k"
  /\ cell (readBoard (heap w2) endgameRef) 0 4 = "."
  /\ cell (readBoard
             (heap (snd (makeMoveOnBoard endgameRef (Move (0, 4) (0, 3)) endgameWorld)))
             endgameRef) 0 4 = "k".
Proof. vm_compute. repeat split; reflexivity. Qed.

(** ** Numbers *)

Section Numbers.

Import NumOps.

Section Rank.

Variable B : Z.
Hypothesis HB : 0 < B.

Lemma rank_ltb a b : fits B a -> fits B b -> ltb a b = (rank B a <? rank B b).
Proof using HB. destruct a, b; cbn; intros; lia. Qed.

Lemma rank_leb a b : fits B a -> fits B b -> leb a b = (rank B a <=? rank B b).
Proof using HB. intros. unfold leb. rewrite rank_ltb by done. lia. Qed.

Lemma rank_inj a b : fits B a -> fits B b -> rank B a = rank B b -> a = b.
Proof using HB. destruct a, b; cbn; intros; try lia; try done. by f_equal. Qed.

Lemma fits_max a b : fits B a -> fits B b -> fits B (max a b).
Proof. unfold max. by destruct (ltb a b). Qed.

Lemma fits_min a b : fits B a -> fits B b -> fits B (min a b).
Proof. unfold min. by destruct (ltb b a). Qed.

Lemma rank_max a b :
  fits B a -> fits B b -> rank B (max a b) = Z.max (rank B a) (rank B b).
Proof using HB.
  intros. unfold max. rewrite rank_ltb by done.
  destruct (Z.ltb_spec (rank B a) (rank B b)); lia.
Qed.

Lemma rank_min a b :
  fits B a -> fits B b -> rank B (min a b) = Z.min (rank B a) (rank B b).
Proof using HB.
  intros. unfold min. rewrite rank_ltb by done.
  destruct (Z.ltb_spec (rank B b) (rank B a)); lia.
Qed.

Lemma sound_rank alpha beta r v :
  fits B alpha -> fits B beta -> fits B r -> fits B v ->
  sound alpha beta r v
  <-> soundZ (rank B alpha) (rank B beta) (rank B r) (rank B v).
Proof using HB.
  intros Ha Hb Hr Hv. unfold sound, soundZ.
  rewrite !rank_leb, !rank_ltb by done.
  split; intros (H1 & H2 & H3); (split; [|split]); intros.
  - apply Z.leb_le, H1. lia.
  - apply Z.leb_le, H2. lia.
  - f_equal. apply H3; lia.
  - apply Z.leb_le, H1. lia.
  - apply Z.leb_le, H2. lia.
  - apply rank_inj; [done..|]. apply H3; lia.
Qed.

End Rank.

Lemma fits_mono B B' n : B <= B' -> fits B n -> fits B' n.
Proof. destruct n; cbn; lia. Qed.

Lemma exists_bound (l : list num) : exists B, 0 < B /\ Forall (fits B) l.
Proof.
  induction l as [|n l (B & HB & HF)].
  - exists 1. split; [lia|constructor].
  - exists (Z.max B (Z.abs (rank 0 n) + 1)). split; [lia|].
    constructor.
    + destruct n; cbn; lia.
    + eapply Forall_impl; [exact HF|]. intros x. apply fits_mono. lia.
Qed.

(** Move a goal about a few numbers to integers. *)
Ltac to_rank l :=
  let B := fresh "B" in
  let HB := fresh "HB" in
  let HF := fresh "HF" in
  destruct (exists_bound l) as (B & HB & HF);
  repeat match type of HF with
         | Forall _ (_ :: _) => let F := fresh "F" in apply Forall_cons_1 in HF as [F HF]
         end;
  clear HF.

Lemma sound_full (r v : num) : sound NegInf PosInf r v -> r = v.
Proof.
  intros H. to_rank [r; v].
  apply (sound_rank B) in H; [|done..]. unfold soundZ in H. cbn [rank] in H.
  apply (rank_inj B); [done..|].
  assert (- B <= rank B r <= B) by (destruct r; cbn in *; lia).
  assert (- B <= rank B v <= B) by (destruct v; cbn in *; lia).
  lia.
Qed.

Lemma sound_start_max (alpha beta : num) : sound alpha beta NegInf NegInf.
Proof.
  to_rank [alpha; beta]. apply (sound_rank B); [done..|].
  unfold soundZ. cbn. lia.
Qed.

Lemma sound_start_min (alpha beta : num) : sound alpha beta PosInf PosInf.
Proof.
  to_rank [alpha; beta]. apply (sound_rank B); [done..|].
  unfold soundZ. cbn. lia.
Qed.

Create HintDb fits.
Local Hint Resolve fits_max fits_min : fits.

Lemma max_break (alpha beta m M ev v Vf : num) :
  ltb (max alpha m) beta = true ->
  sound alpha beta m M -> sound (max alpha m) beta ev v ->
  leb beta (max (max alpha m) ev) = true ->
  leb (max M v) Vf = true ->
  sound alpha beta (max m ev) Vf.
Proof.
  intros Hab A S Hbr HV. to_rank [alpha; beta; m; M; ev; v; Vf].
  apply (sound_rank B) in A, S; auto with fits.
  apply (sound_rank B); auto with fits.
  rewrite (rank_ltb B) in Hab by auto with fits.
  rewrite (rank_leb B) in Hbr, HV by auto with fits.
  rewrite ?(rank_max B) in * by auto with fits.
  unfold soundZ in *. lia.
Qed.

Lemma max_continue (alpha beta m M ev v : num) :
  ltb (max alpha m) beta = true ->
  sound alpha beta m M -> sound (max alpha m) beta ev v ->
  leb beta (max (max alpha m) ev) = false ->
  max (max alpha m) ev = max alpha (max m ev)
  /\ ltb (max alpha (max m ev)) beta = true
  /\ sound alpha beta (max m ev) (max M v).
Proof.
  intros Hab A S Hbr. to_rank [alpha; beta; m; M; ev; v].
  apply (sound_rank B) in A, S; auto with fits.
  rewrite (rank_ltb B) in Hab by auto with fits.
  rewrite (rank_leb B) in Hbr by auto with fits.
  split; [|split].
  - apply (rank_inj B); auto with fits.
    rewrite ?(rank_max B) in * by auto with fits. lia.
  - rewrite (rank_ltb B) by auto with fits.
    rewrite ?(rank_max B) in * by auto with fits. lia.
  - apply (sound_rank B); auto with fits.
    rewrite ?(rank_max B) in * by auto with fits.
    unfold soundZ in *. lia.
Qed.

Lemma min_break (alpha beta m M ev v Vf : num) :
  ltb alpha (min beta m) = true ->
  sound alpha beta m M -> sound alpha (min beta m) ev v ->
  leb (min (min beta m) ev) alpha = true ->
  leb Vf (min M v) = true ->
  sound alpha beta (min m ev) Vf.
Proof.
  intros Hab A S Hbr HV. to_rank [alpha; beta; m; M; ev; v; Vf].
  apply (sound_rank B) in A, S; auto with fits.
  apply (sound_rank B); auto with fits.
  rewrite (rank_ltb B) in Hab by auto with fits.
  rewrite (rank_leb B) in Hbr, HV by auto with fits.
  rewrite ?(rank_min B) in * by auto with fits.
  unfold soundZ in *. lia.
Qed.

Lemma min_continue (alpha beta m M ev v : num) :
  ltb alpha (min beta m) = true ->
  sound alpha beta m M -> sound alpha (min beta m) ev v ->
  leb (min (min beta m) ev) alpha = false ->
  min (min beta m) ev = min beta (min m ev)
  /\ ltb alpha (min beta (min m ev)) = true
  /\ sound alpha beta (min m ev) (min M v).
Proof.
  intros Hab A S Hbr. to_rank [alpha; beta; m; M; ev; v].
  apply (sound_rank B) in A, S; auto with fits.
  rewrite (rank_ltb B) in Hab by auto with fits.
  rewrite (rank_leb B) in Hbr by auto with fits.
  split; [|split].
  - apply (rank_inj B); auto with fits.
    rewrite ?(rank_min B) in * by auto with fits. lia.
  - rewrite (rank_ltb B) by auto with fits.
    rewrite ?(rank_min B) in * by auto with fits. lia.
  - apply (sound_rank B); auto with fits.
    rewrite ?(rank_min B) in * by auto with fits.
    unfold soundZ in *. lia.
Qed.

Lemma leb_max_l a b : leb a (max a b) = true.
Proof.
  to_rank [a; b]. rewrite (rank_leb B), (rank_max B) by auto with fits. lia.
Qed.

Lemma leb_min_l a b : leb (min a b) a = true.
Proof.
  to_rank [a; b]. rewrite (rank_leb B), (rank_min B) by auto with fits. lia.
Qed.

Lemma leb_trans a b c : leb a b = true -> leb b c = true -> leb a c = true.
Proof.
  to_rank [a; b; c]. rewrite !(rank_leb B) by auto with fits. lia.
Qed.

Lemma sound_refl alpha beta r : sound alpha beta r r.
Proof.
  unfold sound. split; [|split]; try done.
  - intros _. unfold leb. destruct r; cbn; try done. by rewrite Z.ltb_irrefl.
  - intros _. unfold leb. destruct r; cbn; try done. by rewrite Z.ltb_irrefl.
Qed.

Lemma fold_max_ge {A} (f : A -> num) (l : list A) (acc : num) :
  leb acc (fold_left (fun acc x => max acc (f x)) l acc) = true.
Proof.
  revert acc. induction l as [|x l IH]; intros acc; cbn.
  - unfold leb. destruct acc; cbn; try done. by rewrite Z.ltb_irrefl.
  - eapply leb_trans; [apply leb_max_l | apply IH].
Qed.

Lemma fold_min_le {A} (f : A -> num) (l : list A) (acc : num) :
  leb (fold_left (fun acc x => min acc (f x)) l acc) acc = true.
Proof.
  revert acc. induction l as [|x l IH]; intros acc; cbn.
  - unfold leb. destruct acc; cbn; try done. by rewrite Z.ltb_irrefl.
  - eapply leb_trans; [apply IH | apply leb_min_l].
Qed.

Lemma max_NegInf_r a : max a NegInf = a.
Proof. by destruct a. Qed.

Lemma min_PosInf_r a : min a PosInf = a.
Proof. by destruct a. Qed.

End Numbers.

(** ** Alpha-beta against the unpruned search *)

Section Pruning.

Import NumOps.

Variable clock : nat -> Z.
Variables start limit : Z.

(** No read of the clock is past the deadline. *)
Hypothesis in_time : forall k, clock k - start <= limit.

Lemma not_late k : (clock k - start >? limit) = false.
Proof using in_time. specialize (in_time k). lia. Qed.

Lemma maxLoop_sound rec V b alpha beta :
  soundFor rec V -> allocates rec ->
  forall moves m M w,
    isBoard (heap w) b = true ->
    ltb (max alpha m) beta = true ->
    sound alpha beta m M ->
    sound alpha beta
      (fst (maxLoop clock rec b start limit moves m (max alpha m) beta w))
      (fold_left
         (fun acc mv => max acc (V (moveOnBoard (readBoard (heap w) b) mv)))
         moves M).
Proof using in_time.
  intros Hrec Halloc. induction moves as [|mv rest IH]; intros m M w Hb Hab Hm.
  - exact Hm.
  - cbn [maxLoop fold_left]. unfold wbind.
    destruct (makeMoveOnBoard b mv w) as [nb w1] eqn:E1.
    destruct (makeMoveOnBoard_child _ _ _ _ _ Hb E1) as (X1 & _ & Hnb & Hread).
    pose proof (Hrec nb (max alpha m) beta w1 Hnb Hab) as Hev.
    pose proof (Halloc nb (max alpha m) beta w1 Hnb) as X2.
    destruct (rec nb (max alpha m) beta w1) as [ev w2]. cbn [fst snd] in Hev, X2.
    rewrite Hread in Hev.
    set (v := V (moveOnBoard (readBoard (heap w) b) mv)) in *.
    destruct (leb beta (max (max alpha m) ev)) eqn:Hbr.
    + cbn [fst wret]. eapply max_break; eauto. apply fold_max_ge.
    + destruct (max_continue _ _ _ _ _ _ Hab Hm Hev Hbr) as (Ea & Hab' & Hm').
      unfold performanceNow. rewrite not_late, Ea.
      set (w3 := World (heap w2) (S (ticks w2))).
      assert (X3 : extends w w3).
      { eapply extends_trans; [exact X1|]. eapply extends_trans; [exact X2|].
        by apply extends_heap. }
      rewrite <- (extends_readBoard _ _ _ X3 Hb).
      apply IH; [|done..]. by eapply extends_isBoard.
Qed.

Lemma minLoop_sound rec V b alpha beta :
  soundFor rec V -> allocates rec ->
  forall moves m M w,
    isBoard (heap w) b = true ->
    ltb alpha (min beta m) = true ->
    sound alpha beta m M ->
    sound alpha beta
      (fst (minLoop clock rec b start limit moves m alpha (min beta m) w))
      (fold_left
         (fun acc mv => min acc (V (moveOnBoard (readBoard (heap w) b) mv)))
         moves M).
Proof using in_time.
  intros Hrec Halloc. induction moves as [|mv rest IH]; intros m M w Hb Hab Hm.
  - exact Hm.
  - cbn [minLoop fold_left]. unfold wbind.
    destruct (makeMoveOnBoard b mv w) as [nb w1] eqn:E1.
    destruct (makeMoveOnBoard_child _ _ _ _ _ Hb E1) as (X1 & _ & Hnb & Hread).
    pose proof (Hrec nb alpha (min beta m) w1 Hnb Hab) as Hev.
    pose proof (Halloc nb alpha (min beta m) w1 Hnb) as X2.
    destruct (rec nb alpha (min beta m) w1) as [ev w2]. cbn [fst snd] in Hev, X2.
    rewrite Hread in Hev.
    set (v := V (moveOnBoard (readBoard (heap w) b) mv)) in *.
    destruct (leb (min (min beta m) ev) alpha) eqn:Hbr.
    + cbn [fst wret]. eapply min_break; eauto. apply fold_min_le.
    + destruct (min_continue _ _ _ _ _ _ Hab Hm Hev Hbr) as (Ea & Hab' & Hm').
      unfold performanceNow. rewrite not_late, Ea.
      set (w3 := World (heap w2) (S (ticks w2))).
      assert (X3 : extends w w3).
      { eapply extends_trans; [exact X1|]. eapply extends_trans; [exact X2|].
        by apply extends_heap. }
      rewrite <- (extends_readBoard _ _ _ X3 Hb).
      apply IH; [|done..]. by eapply extends_isBoard.
Qed.

(** Alpha-beta is sound for the unpruned value at every depth. *)
Lemma minimax_sound depth :
  forall b side alpha beta w,
    isBoard (heap w) b = true -> ltb alpha beta = true ->
    sound alpha beta
      (fst (minimax clock depth b side alpha beta start limit w))
      (best depth (readBoard (heap w) b) side).
Proof using in_time.
  induction depth as [|d IH]; intros b side alpha beta w Hb Hab.
  - cbn [minimax]. unfold wbind, performanceNow. rewrite not_late.
    apply sound_refl.
  - cbn [minimax]. unfold wbind, performanceNow. rewrite not_late.
    unfold generate, evaluate. cbn [heap fst best].
    destruct (generateMovesForSide (readBoard (heap w) b) side) as [|m0 ms] eqn:Eg;
      [apply sound_refl|].
    destruct (side =c? "w").
    + rewrite <- (max_NegInf_r alpha) at 2.
      apply (maxLoop_sound _ (fun B => best d B "b") b alpha beta
               (fun nb a be w0 H1 H2 => IH nb "b" a be w0 H1 H2)
               (fun nb a be w0 H1 => minimax_extends clock d nb "b" a be start limit w0 H1)
               (m0 :: ms) NegInf NegInf (World (heap w) (S (ticks w))) Hb).
      * by rewrite max_NegInf_r.
      * apply sound_start_max.
    + rewrite <- (min_PosInf_r beta) at 2.
      apply (minLoop_sound _ (fun B => best d B "w") b alpha beta
               (fun nb a be w0 H1 H2 => IH nb "w" a be w0 H1 H2)
               (fun nb a be w0 H1 => minimax_extends clock d nb "w" a be start limit w0 H1)
               (m0 :: ms) PosInf PosInf (World (heap w) (S (ticks w))) Hb).
      * by rewrite min_PosInf_r.
      * apply sound_start_min.
Qed.

Lemma maxLoopUnpruned_exact rec V b :
  exactFor rec V ->
  forall moves m w,
    isBoard (heap w) b = true ->
    fst (maxLoopUnpruned clock rec b start limit moves m w)
    = fold_left
        (fun acc mv => max acc (V (moveOnBoard (readBoard (heap w) b) mv)))
        moves m
    /\ extends w (snd (maxLoopUnpruned clock rec b start limit moves m w)).
Proof using in_time.
  intros Hrec. induction moves as [|mv rest IH]; intros m w Hb.
  - split; [done|apply extends_refl].
  - cbn [maxLoopUnpruned fold_left]. unfold wbind.
    destruct (makeMoveOnBoard b mv w) as [nb w1] eqn:E1.
    destruct (makeMoveOnBoard_child _ _ _ _ _ Hb E1) as (X1 & _ & Hnb & Hread).
    destruct (Hrec nb w1 Hnb) as [Hev X2].
    destruct (rec nb w1) as [ev w2]. cbn [fst snd] in Hev, X2.
    rewrite Hread in Hev. subst ev.
    unfold performanceNow. rewrite not_late.
    set (w3 := World (heap w2) (S (ticks w2))).
    assert (X3 : extends w w3).
    { eapply extends_trans; [exact X1|]. eapply extends_trans; [exact X2|].
      by apply extends_heap. }
    destruct (IH (max m (V (moveOnBoard (readBoard (heap w) b) mv))) w3
                (extends_isBoard _ _ _ X3 Hb)) as [IH1 IH2].
    rewrite (extends_readBoard _ _ _ X3 Hb) in IH1.
    split; [exact IH1|]. by eapply extends_trans.
Qed.

Lemma minLoopUnpruned_exact rec V b :
  exactFor rec V ->
  forall moves m w,
    isBoard (heap w) b = true ->
    fst (minLoopUnpruned clock rec b start limit moves m w)
    = fold_left
        (fun acc mv => min acc (V (moveOnBoard (readBoard (heap w) b) mv)))
        moves m
    /\ extends w (snd (minLoopUnpruned clock rec b start limit moves m w)).
Proof using in_time.
  intros Hrec. induction moves as [|mv rest IH]; intros m w Hb.
  - split; [done|apply extends_refl].
  - cbn [minLoopUnpruned fold_left]. unfold wbind.
    destruct (makeMoveOnBoard b mv w) as [nb w1] eqn:E1.
    destruct (makeMoveOnBoard_child _ _ _ _ _ Hb E1) as (X1 & _ & Hnb & Hread).
    destruct (Hrec nb w1 Hnb) as [Hev X2].
    destruct (rec nb w1) as [ev w2]. cbn [fst snd] in Hev, X2.
    rewrite Hread in Hev. subst ev.
    unfold performanceNow. rewrite not_late.
    set (w3 := World (heap w2) (S (ticks w2))).
    assert (X3 : extends w w3).
    { eapply extends_trans; [exact X1|]. eapply extends_trans; [exact X2|].
      by apply extends_heap. }
    destruct (IH (min m (V (moveOnBoard (readBoard (heap w) b) mv))) w3
                (extends_isBoard _ _ _ X3 Hb)) as [IH1 IH2].
    rewrite (extends_readBoard _ _ _ X3 Hb) in IH1.
    split; [exact IH1|]. by eapply extends_trans.
Qed.

(** Without pruning the search returns the unpruned value. *)
Lemma minimaxUnpruned_exact depth :
  forall side, exactFor (fun nb => minimaxUnpruned clock depth nb side start limit)
                 (fun B => best depth B side).
Proof using in_time.
  induction depth as [|d IH]; intros side b w Hb.
  - cbn [minimaxUnpruned]. unfold wbind, performanceNow. rewrite not_late.
    split; [done|by apply extends_heap].
  - cbn [minimaxUnpruned]. unfold wbind, performanceNow. rewrite not_late.
    unfold generate, evaluate. cbn [heap fst snd best].
    destruct (generateMovesForSide (readBoard (heap w) b) side) as [|m0 ms] eqn:Eg;
      [split; [done|by apply extends_heap]|].
    destruct (side =c? "w").
    + apply (maxLoopUnpruned_exact _ (fun B => best d B "b") b (IH "b")
               (m0 :: ms) NegInf (World (heap w) (S (ticks w))) Hb).
    + apply (minLoopUnpruned_exact _ (fun B => best d B "w") b (IH "w")
               (m0 :: ms) PosInf (World (heap w) (S (ticks w))) Hb).
Qed.

(** With the full window alpha-beta returns the unpruned value too. *)
Lemma minimax_exact depth side :
  exactFor (fun nb => minimax clock depth nb side NegInf PosInf start limit)
    (fun B => best depth B side).
Proof using in_time.
  intros nb w Hnb. split.
  - apply sound_full. by apply minimax_sound.
  - by apply minimax_extends.
Qed.

Lemma rootLoop_exact rec V b side :
  exactFor rec V ->
  forall moves bestMove bestScore w,
    isBoard (heap w) b = true ->
    fst (rootLoop clock rec b side start limit moves bestMove bestScore w)
    = rootFold V (readBoard (heap w) b) side moves bestMove bestScore.
Proof using in_time.
  intros Hrec. unfold rootFold.
  induction moves as [|mv rest IH]; intros bm bs w Hb.
  - done.
  - cbn [rootLoop fold_left]. unfold wbind.
    destruct (makeMoveOnBoard b mv w) as [nb w1] eqn:E1.
    destruct (makeMoveOnBoard_child _ _ _ _ _ Hb E1) as (X1 & _ & Hnb & Hread).
    destruct (Hrec nb w1 Hnb) as [Hev X2].
    destruct (rec nb w1) as [ev w2]. cbn [fst snd] in Hev, X2.
    rewrite Hread in Hev. subst ev.
    unfold performanceNow. rewrite not_late.
    set (w3 := World (heap w2) (S (ticks w2))).
    assert (X3 : extends w w3).
    { eapply extends_trans; [exact X1|]. eapply extends_trans; [exact X2|].
      by apply extends_heap. }
    rewrite (IH _ _ w3 (extends_isBoard _ _ _ X3 Hb)).
    rewrite (extends_readBoard _ _ _ X3 Hb). cbn [snd].
    by destruct (if side =c? "w" then _ else _).
Qed.

End Pruning.

(** C1. When no read of the clock is past the deadline, the move (and
    the score that selected it) returned by [minimaxRoot] over the
    alpha-beta [minimax] is the move (and score) returned by the same
    search with alpha fixed to -Infinity, beta fixed to +Infinity and no
    [beta <= alpha] break; at every depth from 1 on, so at depths 1 to 3. *)
Theorem pruning_keeps_root_choice (clock : nat -> Z) (b depth : nat)
    (side : ascii) (limit : Z) (w : world) :
  (1 <= depth)%nat ->
  isBoard (heap w) b = true ->
  (forall k, clock k - clock (ticks w) <= limit) ->
  fst (minimaxRootScored clock b depth side limit w)
  = fst (minimaxRootScoredUnpruned clock b depth side limit w)
  /\ fst (minimaxRoot clock b depth side limit w)
     = fst (minimaxRootUnpruned clock b depth side limit w).
Proof.
  intros _ Hb Hclock.
  assert (E : fst (minimaxRootScored clock b depth side limit w)
              = fst (minimaxRootScoredUnpruned clock b depth side limit w)).
  { unfold minimaxRootScored, minimaxRootScoredUnpruned, wbind, performanceNow,
      generate, snapshot. cbn [heap ticks].
    rewrite (rootLoop_exact clock _ _ Hclock _ _ b side
               (minimax_exact clock _ _ Hclock (Nat.pred depth) (flipSide side)))
      by exact Hb.
    rewrite (rootLoop_exact clock _ _ Hclock _ _ b side
               (minimaxUnpruned_exact clock _ _ Hclock (Nat.pred depth) (flipSide side)))
      by exact Hb.
    reflexivity. }
  split; [exact E|].
  unfold minimaxRoot, minimaxRootUnpruned, wbind.
  destruct (minimaxRootScored clock b depth side limit w) as [r1 w1].
  destruct (minimaxRootScoredUnpruned clock b depth side limit w) as [r2 w2].
  cbn in *. by rewrite E.
Qed.

Lemma pruning_keeps_root_choice_witness :
  (1 <= 3)%nat
  /\ isBoard (heap endgameWorld) endgameRef = true
  /\ (forall k, frozenClock k - frozenClock (ticks endgameWorld) <= 1000)
  /\ fst (minimaxRootScored frozenClock endgameRef 3 "b" 1000 endgameWorld)
     = fst (minimaxRootScoredUnpruned frozenClock endgameRef 3 "b" 1000 endgameWorld)
  /\ fst (minimaxRoot frozenClock endgameRef 3 "b" 1000 endgameWorld)
     = fst (minimaxRootUnpruned frozenClock endgameRef 3 "b" 1000 endgameWorld).
Proof.
  assert (Hclock : forall k, frozenClock k - frozenClock (ticks endgameWorld) <= 1000)
    by (intros k; unfold frozenClock; lia).
  split; [lia|]. split; [reflexivity|]. split; [exact Hclock|].
  apply (pruning_keeps_root_choice frozenClock endgameRef 3 "b" 1000 endgameWorld);
    [lia | reflexivity | exact Hclock].
Defined.

(** The pruned search does less work for the same answer: on the endgame
    position at depth 3 it allocates 1854 arrays where the unpruned one
    allocates 3177, and both choose the pawn capture. *)
Example pruning_on_endgame :
  let pruned := minimaxRootScored frozenClock endgameRef 3 "b" 1000 endgameWorld in
  let full := minimaxRootScoredUnpruned frozenClock endgameRef 3 "b" 1000 endgameWorld in
  fst pruned = (Some (Move (1, 3) (2, 4)), Num (-100))
  /\ fst full = (Some (Move (1, 3) (2, 4)), Num (-100))
  /\ length (heap (snd pruned)) = 1854%nat
  /\ length (heap (snd full)) = 3177%nat.
Proof. vm_compute. repeat split; reflexivity. Qed.

(** ** The order in which children are explored *)
Lemma captureOrder_capture B x y :
  isCapture B x = true -> (captureOrder B x y <=? 0) = true.
Proof.
  unfold isCapture, captureOrder. intros ->.
  destruct (negb _); cbn; lia.
Qed.

Lemma captureOrder_quiet B x y :
  isCapture B x = false -> (captureOrder B x y <=? 0) = negb (isCapture B y).
Proof.
  unfold isCapture, captureOrder. intros ->.
  destruct (negb _); cbn; lia.
Qed.

Lemma insertBy_quiet B x (caps quiet : list move) :
  isCapture B x = false ->
  forallb (isCapture B) caps = true ->
  forallb (fun m => negb (isCapture B m)) quiet = true ->
  insertBy (captureOrder B) x (caps ++ quiet) = caps ++ x :: quiet.
Proof.
  intros Hx. induction caps as [|c caps IH]; cbn; intros Hc Hq.
  - destruct quiet as [|q quiet]; [done|]. cbn in *.
    apply andb_prop in Hq as [Hq _].
    by rewrite captureOrder_quiet, Hq.
  - apply andb_prop in Hc as [Hc1 Hc].
    rewrite captureOrder_quiet, Hc1 by done. cbn. f_equal. by apply IH.
Qed.

Lemma forallb_filter {A} (f : A -> bool) (l : list A) :
  forallb f (List.filter f l) = true.
Proof.
  apply forallb_forall. intros x Hx. by apply filter_In in Hx as [_ ?].
Qed.

(** The sort of [minimaxRoot] puts the captures first and keeps the
    generator's order among captures and among the rest. *)
Lemma sortBy_captureOrder B (l : list move) :
  sortBy (captureOrder B) l
  = List.filter (isCapture B) l
    ++ List.filter (fun m => negb (isCapture B m)) l.
Proof.
  induction l as [|x l IH]; [done|].
  cbn [sortBy fold_right List.filter]. fold (sortBy (captureOrder B) l).
  rewrite IH. destruct (isCapture B x) eqn:Hx; cbn [negb].
  - rewrite <- app_comm_cons.
    destruct (List.filter (isCapture B) l ++ _) as [|y l'] eqn:E; [done|].
    cbn. by rewrite captureOrder_capture.
  - apply insertBy_quiet; [done|apply forallb_filter|].
    apply (forallb_filter (fun m => negb (isCapture B m))).
Qed.

Lemma allocAll_app h Bs : exists k, allocAll h Bs = h ++ k.
Proof.
  revert h. induction Bs as [|B Bs IH]; intros h; cbn.
  - exists []. by rewrite app_nil_r.
  - destruct (IH (h ++ boardObjs (length h) B)) as [k ->].
    eexists. by rewrite <- app_assoc.
Qed.

Lemma boardAt_rows h B k i :
  (i < length B)%nat ->
  boardAt (h ++ boardObjs (length h) B ++ k) (length h + i) = [].
Proof.
  intros Hi. unfold boardAt, boardObjs.
  rewrite lookup_app_r by lia. replace (_ + _ - _)%nat with i by lia.
  rewrite <- app_assoc, lookup_app_l by (by rewrite length_map).
  rewrite list_lookup_fmap.
  destruct (B !! i) eqn:E; [done|]. apply lookup_ge_None in E. lia.
Qed.

Lemma boardAt_grid h B k :
  boardAt (h ++ boardObjs (length h) B ++ k) (length h + length B) = [B].
Proof.
  unfold boardAt.
  rewrite app_assoc, lookup_app_l
    by (unfold boardObjs; rewrite !length_app, length_map; cbn; lia).
  rewrite readBoard_app by apply isBoard_boardObjs.
  rewrite readBoard_boardObjs.
  unfold boardObjs. rewrite lookup_app_r by lia.
  rewrite lookup_app_r by (rewrite length_map; lia).
  rewrite length_map. by replace (_ - _ - _)%nat with 0%nat by lia.
Qed.

Lemma flat_map_nil {A C} (f : A -> list C) (l : list A) :
  (forall x, In x l -> f x = []) -> flat_map f l = [].
Proof.
  induction l as [|x l IH]; intros H; [done|]. cbn.
  rewrite (H x) by by left. apply IH. intros y Hy. apply H. by right.
Qed.

Lemma newBoards_cons h B k :
  newBoards h (h ++ boardObjs (length h) B ++ k)
  = B :: newBoards (h ++ boardObjs (length h) B) (h ++ boardObjs (length h) B ++ k).
Proof.
  unfold newBoards.
  assert (Hl : length (boardObjs (length h) B) = S (length B)).
  { unfold boardObjs. rewrite length_app, length_map. cbn. lia. }
  rewrite !length_app, Hl.
  replace (length h + (S (length B) + length k) - length h)%nat
    with (length B + S (length k))%nat by lia.
  replace (length h + (S (length B) + length k) - (length h + S (length B)))%nat
    with (length k) by lia.
  rewrite seq_app, flat_map_app.
  rewrite flat_map_nil.
  - cbn [app seq flat_map]. rewrite boardAt_grid. cbn [app].
    f_equal. f_equal. f_equal. lia.
  - intros r Hr. apply in_seq in Hr.
    replace r with (length h + (r - length h))%nat by lia.
    apply boardAt_rows. lia.
Qed.

Lemma newBoards_allocAll h Bs : newBoards h (allocAll h Bs) = Bs.
Proof.
  revert h. induction Bs as [|B Bs IH]; intros h; cbn [allocAll].
  - unfold newBoards. by rewrite Nat.sub_diag.
  - destruct (allocAll_app (h ++ boardObjs (length h) B) Bs) as [k Hk].
    specialize (IH (h ++ boardObjs (length h) B)).
    rewrite Hk in *. rewrite <- app_assoc in *.
    rewrite newBoards_cons. by f_equal.
Qed.

Section Order.

Variable clock : nat -> Z.
Variables start limit : Z.
Hypothesis in_time : forall k, clock k - start <= limit.

Lemma minimax_leaf side :
  leafCall (fun nb a be => minimax clock 0 nb side a be start limit).
Proof.
  intros nb a be w. cbn [minimax]. unfold wbind, performanceNow, evaluate.
  destruct (_ >? _); cbn [fst snd heap]; eauto.
Qed.

Lemma maxLoop_order rec b :
  leafCall rec ->
  forall moves m a w,
    isBoard (heap w) b = true -> a <> PosInf ->
    heap (snd (maxLoop clock rec b start limit moves m a PosInf w))
    = allocAll (heap w) (map (moveOnBoard (readBoard (heap w) b)) moves).
Proof using in_time.
  intros Hrec. induction moves as [|mv rest IH]; intros m a w Hb Ha; [done|].
  cbn [maxLoop map allocAll]. unfold wbind.
  rewrite (makeMoveOnBoard_spec _ _ _ Hb).
  match goal with |- context [rec ?nb a PosInf ?w1] =>
    destruct (Hrec nb a PosInf w1) as [Hh [z Hz]];
    destruct (rec nb a PosInf w1) as [ev w2] end.
  cbn [fst snd heap] in *. subst ev.
  assert (Hne : NumOps.max a (Num z) <> PosInf).
  { unfold NumOps.max. by destruct (NumOps.ltb a (Num z)). }
  replace (NumOps.leb PosInf (NumOps.max a (Num z))) with false
    by (by destruct (NumOps.max a (Num z))).
  unfold performanceNow. rewrite (not_late clock start limit in_time).
  rewrite IH; cbn [heap]; rewrite ?Hh; [| by apply isBoard_app | done].
  by rewrite readBoard_app.
Qed.

Lemma minLoop_order rec b :
  leafCall rec ->
  forall moves m be w,
    isBoard (heap w) b = true -> be <> NegInf ->
    heap (snd (minLoop clock rec b start limit moves m NegInf be w))
    = allocAll (heap w) (map (moveOnBoard (readBoard (heap w) b)) moves).
Proof using in_time.
  intros Hrec. induction moves as [|mv rest IH]; intros m be w Hb Ha; [done|].
  cbn [minLoop map allocAll]. unfold wbind.
  rewrite (makeMoveOnBoard_spec _ _ _ Hb).
  match goal with |- context [rec ?nb NegInf be ?w1] =>
    destruct (Hrec nb NegInf be w1) as [Hh [z Hz]];
    destruct (rec nb NegInf be w1) as [ev w2] end.
  cbn [fst snd heap] in *. subst ev.
  assert (Hne : NumOps.min be (Num z) <> NegInf).
  { unfold NumOps.min. by destruct (NumOps.ltb (Num z) be). }
  replace (NumOps.leb (NumOps.min be (Num z)) NegInf) with false
    by (by destruct (NumOps.min be (Num z))).
  unfold performanceNow. rewrite (not_late clock start limit in_time).
  rewrite IH; cbn [heap]; rewrite ?Hh; [| by apply isBoard_app | done].
  by rewrite readBoard_app.
Qed.

Lemma rootLoop_order (rec : nat -> W num) b side :
  (forall nb w, heap (snd (rec nb w)) = heap w) ->
  forall moves bm bs w,
    isBoard (heap w) b = true ->
    heap (snd (rootLoop clock rec b side start limit moves bm bs w))
    = allocAll (heap w) (map (moveOnBoard (readBoard (heap w) b)) moves).
Proof using in_time.
  intros Hrec. induction moves as [|mv rest IH]; intros bm bs w Hb; [done|].
  cbn [rootLoop map allocAll]. unfold wbind.
  rewrite (makeMoveOnBoard_spec _ _ _ Hb).
  match goal with |- context [rec ?nb ?w1] =>
    pose proof (Hrec nb w1) as Hh;
    destruct (rec nb w1) as [ev w2] end.
  cbn [fst snd heap] in *.
  unfold performanceNow. rewrite (not_late clock start limit in_time).
  rewrite IH; cbn [heap]; rewrite ?Hh; [| by apply isBoard_app].
  by rewrite readBoard_app.
Qed.

End Order.

(** At depth 1, with no deadline reached, the boards allocated are exactly
    the children in the order explored: captures first at the root,
    generator order at a node. *)
Theorem exploration_at_depth_one (clock : nat -> Z) (b : nat) (side : ascii)
    (limit : Z) (w : world) :
  isBoard (heap w) b = true ->
  (forall k, clock k - clock (ticks w) <= limit) ->
  let B := readBoard (heap w) b in
  let moves := generateMovesForSide B side in
  let afterRoot := snd (minimaxRootScored clock b 1 side limit w) in
  let afterNode :=
    snd (minimax clock 1 b side NegInf PosInf (clock (ticks w)) limit w) in
  newBoards (heap w) (heap afterRoot)
  = map (moveOnBoard B)
      (List.filter (isCapture B) moves
       ++ List.filter (fun m => negb (isCapture B m)) moves)
  /\ newBoards (heap w) (heap afterNode) = map (moveOnBoard B) moves.
Proof.
  intros Hb Hclock B moves afterRoot afterNode. split.
  - subst afterRoot. unfold minimaxRootScored, wbind, performanceNow, generate,
      snapshot. cbn [heap ticks fst snd Nat.pred].
    rewrite (rootLoop_order clock _ _ Hclock); [| |exact Hb].
    + cbn [heap]. fold B. rewrite newBoards_allocAll, sortBy_captureOrder. done.
    + intros nb w0. apply (minimax_leaf clock _ _ _ nb NegInf PosInf w0).
  - subst afterNode. cbn [minimax]. unfold wbind, performanceNow.
    rewrite (not_late clock _ _ Hclock). unfold generate, evaluate.
    cbn [heap fst snd]. fold B. fold moves.
    destruct moves as [|m0 ms] eqn:Em; [cbn; unfold newBoards; by rewrite Nat.sub_diag|].
    destruct (side =c? "w").
    + rewrite (maxLoop_order clock _ _ Hclock);
        [|apply (minimax_leaf clock _ _ "b")|exact Hb|done].
      cbn [heap]. fold B. by rewrite newBoards_allocAll.
    + rewrite (minLoop_order clock _ _ Hclock);
        [|apply (minimax_leaf clock _ _ "w")|exact Hb|done].
      cbn [heap]. fold B. by rewrite newBoards_allocAll.
Qed.

Lemma exploration_at_depth_one_witness :
  isBoard (heap endgameWorld) endgameRef = true
  /\ (forall k, frozenClock k - frozenClock (ticks endgameWorld) <= 1000)
  /\ newBoards (heap endgameWorld)
       (heap (snd (minimax frozenClock 1 endgameRef "b" NegInf PosInf
                     (frozenClock (ticks endgameWorld)) 1000 endgameWorld)))
     = map (moveOnBoard (readBoard (heap endgameWorld) endgameRef))
         (generateMovesForSide (readBoard (heap endgameWorld) endgameRef) "b").
Proof.
  assert (Hclock : forall k, frozenClock k - frozenClock (ticks endgameWorld) <= 1000)
    by (intros k; unfold frozenClock; lia).
  split; [reflexivity|]. split; [exact Hclock|].
  apply (exploration_at_depth_one frozenClock endgameRef "b" 1000 endgameWorld);
    [reflexivity | exact Hclock].
Defined.

Section Exploration.

Variable clock : nat -> Z.






End Exploration.






(** ** Requests between cells of the board *)

(** The path loop on an aligned pair of cells of the board: it reads cells
    between the two and returns a boolean. *)
Lemma isPathClear_loop_aligned (b : board) (dr dc tr tc : Z) :
  wf_board b = true -> onBoard (tr, tc) = true -> unitStep (dr, dc) = true ->
  forall k fuel r c,
    (k < fuel)%nat -> tr = r + Z.of_nat k * dr -> tc = c + Z.of_nat k * dc ->
    onBoard (r, c) = true ->
    exists ok, isPathClear_loop fuel b dr dc r c tr tc = Normal ok.
Proof.
  intros Hwf Ht Hd.
  assert (Hd1 : dr = -1 \/ dr = 0 \/ dr = 1) by (unfold unitStep in Hd; cbn in Hd; lia).
  assert (Hd2 : dc = -1 \/ dc = 0 \/ dc = 1) by (unfold unitStep in Hd; cbn in Hd; lia).
  assert (Hnz : dr <> 0 \/ dc <> 0) by (unfold unitStep in Hd; cbn in Hd; lia).
  induction k as [|k IH]; intros fuel r c Hk Hr Hc Hon;
    (destruct fuel as [|fuel]; [lia|]); cbn [isPathClear_loop].
  - replace (r =? tr) with true by lia. replace (c =? tc) with true by lia.
    cbn. eauto.
  - destruct (negb (r =? tr) || negb (c =? tc)); [|eauto].
    rewrite (index2_onBoard _ _ _ Hwf Hon). unfold isChar.
    destruct (cell b r c =c? "."); cbn [negb]; [|eauto].
    apply IH; [lia| | |].
    + destruct Hd1 as [-> | [-> | ->]]; lia.
    + destruct Hd2 as [-> | [-> | ->]]; lia.
    + unfold onBoard, inRange in *. cbn [fst snd] in *.
      destruct Hd1 as [-> | [-> | ->]], Hd2 as [-> | [-> | ->]]; lia.
Qed.

Lemma isPathClear_onBoard (g : game) (fr fc tr tc : Z) :
  wf_board (g_board g) = true ->
  onBoard (fr, fc) = true -> onBoard (tr, tc) = true ->
  (fr =? tr) && (fc =? tc) = false ->
  tr = fr \/ tc = fc \/ Z.abs (tr - fr) = Z.abs (tc - fc) ->
  exists ok, isPathClear fr fc tr tc g = (Normal ok, g).
Proof.
  intros Hwf Hf Ht Hne Hal. unfold isPathClear, sign.
  set (k := Z.max (Z.abs (tr - fr)) (Z.abs (tc - fc))).
  assert (Hk : 1 <= k <= 7) by (unfold onBoard, inRange in *; cbn [fst snd] in *; lia).
  destruct (isPathClear_loop_aligned (g_board g) (Z.sgn (tr - fr)) (Z.sgn (tc - fc))
              tr tc Hwf Ht) with (k := Z.to_nat (k - 1)) (fuel := 8%nat)
              (r := fr + Z.sgn (tr - fr)) (c := fc + Z.sgn (tc - fc)) as [ok Hok].
  - unfold unitStep. cbn [fst snd]. lia.
  - lia.
  - rewrite Z2Nat.id by lia. subst k. nia.
  - rewrite Z2Nat.id by lia. subst k. nia.
  - unfold onBoard, inRange in *. cbn [fst snd] in *. lia.
  - exists ok. by rewrite Hok.
Qed.

Lemma makeMoveIfLegal_cells (fr fc tr tc : Z) (g : game) :
  wf_board (g_board g) = true ->
  onBoard (fr, fc) = true -> onBoard (tr, tc) = true ->
  exists ok g', makeMoveIfLegal (Move (fr, fc) (tr, tc)) g = (Normal ok, g').
Proof.
  intros Hwf Hf Ht.
  assert (Hpath : (fr =? tr) && (fc =? tc) = false ->
            tr = fr \/ tc = fc \/ Z.abs (tr - fr) = Z.abs (tc - fc) ->
            exists ok, isPathClear fr fc tr tc g = (Normal ok, g))
    by (intros; by apply isPathClear_onBoard).
  unfold makeMoveIfLegal, bind, lift, ret, throw, getBoard, getSide, commitMove.
  cbn [from to].
  rewrite (index2_onBoard _ _ _ Hwf Hf), (index2_onBoard _ _ _ Hwf Ht).
  unfold isChar, isPieceOwnedBySide, isChar.
  destruct (cell (g_board g) fr fc =c? "."); [eauto|].
  destruct (negb (if g_sideToMove g =c? "w" then _ else _)); [eauto|].
  destruct ((fr =? tr) && (fc =? tc)) eqn:Hne; [eauto|].
  specialize (Hpath eq_refl).
  destruct (negb _ && Bool.eqb _ _); [eauto|].
  destruct (_ =c? "p").
  { repeat (case_match; eauto). }
  destruct (_ =c? "n").
  { repeat (case_match; eauto). }
  destruct (_ =c? "b").
  { destruct (negb _) eqn:E; [eauto|]. apply negb_false_iff, Z.eqb_eq in E.
    destruct Hpath as [ok ->]; [auto|]. destruct ok; cbn; eauto. }
  destruct (_ =c? "r").
  { destruct (negb (tr =? fr) && negb (tc =? fc)) eqn:E; [eauto|].
    destruct Hpath as [ok ->]; [lia|]. destruct ok; cbn; eauto. }
  destruct (_ =c? "q").
  { destruct (negb (tr =? fr) && negb (tc =? fc) && negb _) eqn:E; [eauto|].
    destruct Hpath as [ok ->]; [lia|]. destruct ok; cbn; eauto. }
  repeat (case_match; eauto).
Qed.

(** On the 8x8 board a request between two cells of the board is answered
    with [true] or [false]: no read is out of range and the path loop
    ends; and on [false] the game is left as it was. *)
Theorem makeMoveIfLegal_onBoard (m : move) (g : game) :
  wf_board (g_board g) = true ->
  onBoard (from m) = true -> onBoard (to m) = true ->
  exists ok,
    fst (makeMoveIfLegal m g) = Normal ok
    /\ (ok = false -> snd (makeMoveIfLegal m g) = g).
Proof.
  destruct m as [[fr fc] [tr tc]]. cbn [from to]. intros Hwf Hf Ht.
  destruct (makeMoveIfLegal_cells fr fc tr tc g Hwf Hf Ht) as (ok & g' & E).
  exists ok. rewrite E. split; [done|]. intros ->.
  by apply makeMoveIfLegal_unchanged in E.
Qed.

Lemma makeMoveIfLegal_onBoard_witness :
  wf_board (g_board initialGame) = true
  /\ onBoard (7, 0) = true /\ onBoard (0, 0) = true
  /\ exists ok,
       fst (makeMoveIfLegal (Move (7, 0) (0, 0)) initialGame) = Normal ok
       /\ (ok = false -> snd (makeMoveIfLegal (Move (7, 0) (0, 0)) initialGame) = initialGame).
Proof.
  split; [reflexivity|]. split; [reflexivity|]. split; [reflexivity|].
  apply (makeMoveIfLegal_onBoard (Move (7, 0) (0, 0)) initialGame); reflexivity.
Defined.

(** ** Writes on the 8x8 board *)

Lemma wf_board_Forall (b : board) :
  wf_board b = true <->
  length b = 8%nat
  /\ Forall (fun row => length row = 8%nat /\ Forall (fun p => isCellValue p = true) row) b.
Proof.
  unfold wf_board. rewrite andb_true_iff, Nat.eqb_eq, forallb_forall, Forall_forall.
  split; intros [Hl H]; (split; [done|]); intros row Hin.
  - apply list_elem_of_In, H, andb_prop in Hin as [H1 H2].
    split; [by apply Nat.eqb_eq|].
    apply Forall_forall. intros p Hp. rewrite forallb_forall in H2.
    by apply H2, list_elem_of_In.
  - apply list_elem_of_In, H in Hin as [H1 H2].
    apply andb_true_iff. split; [by apply Nat.eqb_eq|].
    apply forallb_forall. intros p Hp. rewrite Forall_forall in H2.
    by apply H2, list_elem_of_In.
Qed.

Lemma wf_setCell (b : board) (r c : Z) (v : ascii) :
  wf_board b = true -> isCellValue v = true -> wf_board (setCell b r c v) = true.
Proof.
  rewrite !wf_board_Forall. intros [Hl H] Hv.
  split; [by rewrite length_setCell|].
  unfold setCell. destruct (idx b r) as [row|] eqn:E; [|done].
  apply idx_lt in E as (H0 & Hlt & E).
  unfold upd. destruct (0 <=? r); [|done].
  apply Forall_insert; [done|].
  pose proof (Forall_lookup_1 _ _ _ _ H E) as [Hrl Hrow].
  destruct (0 <=? c); [|done].
  split; [by rewrite length_insert|]. by apply Forall_insert.
Qed.

Lemma cell_setCell (b : board) (r c : Z) (v : ascii) (r' c' : Z) :
  wf_board b = true -> onBoard (r, c) = true ->
  cell (setCell b r c v) r' c'
  = if (r' =? r) && (c' =? c) then v else cell b r' c'.
Proof.
  intros Hwf Hon. apply andb_prop in Hon as [Hr Hc]. cbn [fst snd] in Hr, Hc.
  destruct (idx_inRange b r (wf_board_length _ Hwf) Hr) as (row & Hrow & Hin).
  pose proof (wf_board_row _ _ Hwf Hin) as Hlen.
  apply idx_lt in Hrow as (H0 & Hlt & Hrow).
  assert (H0c : 0 <= c) by (unfold inRange in Hc; lia).
  assert (Hltc : (Z.to_nat c < length row)%nat) by (unfold inRange in Hc; lia).
  rewrite (setCell_nat b r c v row) by done.
  unfold cell, idx.
  destruct (Z.leb_spec 0 r'); [|by replace (r' =? r) with false by lia].
  destruct (decide (Z.to_nat r' = Z.to_nat r)) as [Er|Nr].
  - assert (r' = r) by lia. subst r'. rewrite Z.eqb_refl. cbn [andb].
    rewrite list_lookup_insert_eq by done. rewrite Hrow.
    destruct (Z.leb_spec 0 c'); [|by replace (c' =? c) with false by lia].
    destruct (decide (Z.to_nat c' = Z.to_nat c)) as [Ec|Nc].
    + assert (c' = c) by lia. subst c'. rewrite Z.eqb_refl.
      by rewrite list_lookup_insert_eq.
    + replace (c' =? c) with false by lia.
      by rewrite list_lookup_insert_ne.
  - replace (r' =? r) with false by lia. cbn [andb].
    by rewrite list_lookup_insert_ne.
Qed.

Lemma wf_moveOnBoard (b : board) (m : move) :
  wf_board b = true -> onBoard (from m) = true -> wf_board (moveOnBoard b m) = true.
Proof.
  destruct m as [[fr fc] [tr tc]]. cbn [from]. intros Hwf Hf.
  unfold moveOnBoard. cbn [from to].
  apply wf_setCell; [|done]. apply wf_setCell; [done|]. by apply wf_cell.
Qed.

(** The board after a move, cell by cell. *)
Lemma cell_moveOnBoard (b : board) (fr fc tr tc r c : Z) :
  wf_board b = true -> onBoard (fr, fc) = true -> onBoard (tr, tc) = true ->
  cell (moveOnBoard b (Move (fr, fc) (tr, tc))) r c
  = if (r =? fr) && (c =? fc) then "."
    else if (r =? tr) && (c =? tc) then cell b fr fc
    else cell b r c.
Proof.
  intros Hwf Hf Ht. unfold moveOnBoard. cbn [from to].
  rewrite cell_setCell; [|apply wf_setCell; [done|by apply wf_cell]|done].
  destruct ((r =? fr) && (c =? fc)); [done|].
  by rewrite cell_setCell.
Qed.

(** ** What an accepted request is *)

Lemma letter_case (p : ascii) :
  isCellValue p = true -> (p =c? ".") = false ->
  (p =c? toUpperCase p) = negb (p =c? toLowerCase p).
Proof.
  assert (H : negb (isCellValue p) || (p =c? ".")
              || Bool.eqb (p =c? toUpperCase p) (negb (p =c? toLowerCase p)) = true).
  { revert p. apply forall_ascii. vm_compute. reflexivity. }
  intros E1 E2. rewrite E1, E2 in H. cbn in H. by apply Bool.eqb_prop in H.
Qed.

Lemma makeMoveIfLegal_checks fr fc tr tc g g' :
  makeMoveIfLegal (Move (fr, fc) (tr, tc)) g = (Normal true, g') ->
  exists piece target,
    index2 (g_board g) fr fc = Normal (Some piece)
    /\ index2 (g_board g) tr tc = Normal (Some target)
    /\ (piece =c? ".") = false
    /\ (if g_sideToMove g =c? "w" then piece =c? toUpperCase piece
        else piece =c? toLowerCase piece) = true
    /\ negb (target =c? ".")
       && Bool.eqb (target =c? toUpperCase target) (piece =c? toUpperCase piece) = false.
Proof.
  unfold makeMoveIfLegal, bind, lift, ret, throw, getBoard, getSide, isPathClear.
  cbn [from to]. intros H.
  destruct (index2 (g_board g) fr fc) as [[piece|]| |] eqn:Ep;
    try (by repeat (case_match; simplify_eq)).
  destruct (index2 (g_board g) tr tc) as [[target|]| |] eqn:Et;
    try (by repeat (case_match; simplify_eq)).
  exists piece, target. do 2 (split; [done|]).
  unfold isChar, isPieceOwnedBySide, isChar in H.
  destruct (piece =c? ".") eqn:E1; [done|]. split; [done|].
  destruct (if g_sideToMove g =c? "w" then _ else _) eqn:E2; [|done].
  split; [done|]. cbn [negb] in H.
  destruct ((fr =? tr) && (fc =? tc)); [done|].
  by destruct (negb (target =c? ".") && _).
Qed.

(** An accepted request moves a piece of the side to move, between two
    different cells of the board, onto a cell that does not hold a piece
    of that side. *)
Theorem accepted_move_own_piece (m : move) (g g' : game) :
  wf_board (g_board g) = true ->
  makeMoveIfLegal m g = (Normal true, g') ->
  let piece := cell (g_board g) (fst (from m)) (snd (from m)) in
  let target := cell (g_board g) (fst (to m)) (snd (to m)) in
  onBoard (from m) = true /\ onBoard (to m) = true /\ from m <> to m
  /\ isPieceOwnedBySide (Some piece) (g_sideToMove g) = Normal true
  /\ isPieceOwnedBySide (Some target) (g_sideToMove g) = Normal false.
Proof.
  destruct m as [[fr fc] [tr tc]]. cbn [from to fst snd]. intros Hwf H.
  destruct (makeMoveIfLegal_checks _ _ _ _ _ _ H)
    as (piece & target & Hp & Ht & Hne & Hown & Hfr).
  apply makeMoveIfLegal_accepted in H as (_ & _ & _ & _ & Hsq & _).
  destruct (index2_Some_onBoard _ _ _ _ Hwf Hp) as [Hf Ep].
  destruct (index2_Some_onBoard _ _ _ _ Hwf Ht) as [Hto Et].
  rewrite Ep, Et. split; [done|]. split; [done|]. split.
  { intros [= -> ->]. by rewrite !Z.eqb_refl in Hsq. }
  unfold isPieceOwnedBySide, isChar. rewrite Hne, Hown. split; [done|].
  destruct (target =c? ".") eqn:Etd; [done|]. f_equal.
  cbn [negb andb] in Hfr. apply Bool.eqb_false_iff in Hfr.
  pose proof (letter_case piece) as Lp. pose proof (letter_case target) as Lt.
  rewrite <- Ep in Lp at 1. rewrite <- Et in Lt at 1.
  specialize (Lp (wf_cell _ _ _ Hwf Hf) Hne).
  specialize (Lt (wf_cell _ _ _ Hwf Hto) Etd).
  destruct (g_sideToMove g =c? "w").
  - rewrite Hown in Hfr. by destruct (target =c? toUpperCase target).
  - rewrite Hown in Lp. cbn in Lp. rewrite Lp in Hfr.
    destruct (target =c? toUpperCase target); [|done].
    by destruct (target =c? toLowerCase target).
Qed.

Lemma accepted_move_own_piece_witness :
  wf_board (g_board initialGame) = true
  /\ fst (makeMoveIfLegal (Move (7, 6) (5, 5)) initialGame) = Normal true
  /\ isPieceOwnedBySide (Some (cell initialBoard 7 6)) "w" = Normal true
  /\ isPieceOwnedBySide (Some (cell initialBoard 5 5)) "w" = Normal false.
Proof.
  split; [reflexivity|]. split; [reflexivity|].
  destruct (accepted_move_own_piece (Move (7, 6) (5, 5)) initialGame
              (snd (makeMoveIfLegal (Move (7, 6) (5, 5)) initialGame))
              eq_refl eq_refl) as (_ & _ & _ & H1 & H2).
  split; [exact H1 | exact H2].
Defined.

(** ** The states the handlers reach *)

(** What an accepted request writes. *)
Lemma accepted_commit (m : move) (g g' : game) :
  makeMoveIfLegal m g = (Normal true, g') ->
  exists piece target,
    index2 (g_board g) (fst (from m)) (snd (from m)) = Normal (Some piece)
    /\ index2 (g_board g) (fst (to m)) (snd (to m)) = Normal (Some target)
    /\ g_board g' = moveOnBoard (g_board g) m
    /\ g_moves g'
       = g_moves g
         ++ [Entry (from m) (to m) piece target
               (notationForMove (fst (from m)) (snd (from m))
                  (fst (to m)) (snd (to m)) piece target)]
    /\ g_sideToMove g' = flipSide (g_sideToMove g)
    /\ g_moveList g'
       = g_moveList g
         ++ [notationForMove (fst (from m)) (snd (from m))
               (fst (to m)) (snd (to m)) piece target].
Proof.
  destruct m as [[fr fc] [tr tc]]. intros H.
  apply makeMoveIfLegal_accepted in H as (piece & target & Hp & Ht & Hne & ->).
  exists piece, target. cbn [from to fst snd]. by repeat split.
Qed.

Lemma sideAfter_valid (n : nat) : validSide (sideAfter n) = true.
Proof. unfold sideAfter. by destruct (Nat.even n). Qed.

Lemma flipSide_sideAfter (n : nat) : flipSide (sideAfter n) = sideAfter (S n).
Proof.
  unfold sideAfter. rewrite Nat.even_succ, <- Nat.negb_even.
  by destruct (Nat.even n).
Qed.

Lemma played_consistent (g : game) :
  played g ->
  wf_board (g_board g) = true
  /\ g_moveList g = map e_notation (g_moves g)
  /\ g_sideToMove g = sideAfter (length (g_moves g)).
Proof.
  induction 1 as [|g g' m Hg (Hwf & Hl & Hs) Hm]; [by repeat split|].
  destruct (accepted_commit _ _ _ Hm) as (piece & target & Hp & Ht & Hb & Hmv & Hsd & Hml).
  destruct (index2_Some_onBoard _ _ _ _ Hwf Hp) as [Hf _].
  rewrite Hb, Hmv, Hsd, Hml, Hl, Hs. split; [|split].
  - apply wf_moveOnBoard; [done|]. by destruct (from m).
  - by rewrite map_app.
  - rewrite length_app. cbn [length]. rewrite Nat.add_1_r. apply flipSide_sideAfter.
Qed.

Lemma played_undo (g : game) : played g -> played (snd (undoClick g)).
Proof.
  intros H. destruct H as [|g g' m Hg Hm]; [constructor|].
  destruct (played_consistent _ Hg) as (_ & _ & Hs).
  destruct m as [[fr fc] [tr tc]].
  apply makeMoveIfLegal_accepted in Hm as (piece & target & Hp & Ht & Hne & ->).
  rewrite undo_commit; try done.
  rewrite Hs. apply sideAfter_valid.
Qed.

Lemma played_handle (e : request) (g : game) : played g -> played (handle e g).
Proof.
  intros Hg. destruct e as [m| |]; cbn [handle].
  - destruct (makeMoveIfLegal m g) as [c g'] eqn:E. cbn [snd].
    destruct c as [[|]| |]; [by eapply played_move|..];
      by rewrite (makeMoveIfLegal_unchanged _ _ _ _ E).
  - by apply played_undo.
  - constructor.
Qed.

Lemma run_snoc (es : list request) (e : request) :
  run (es ++ [e]) = handle e (run es).
Proof. unfold run. by rewrite fold_left_app. Qed.

Lemma run_played (es : list request) : played (run es).
Proof.
  induction es as [|e es IH] using rev_ind; [constructor|].
  rewrite run_snoc. by apply played_handle.
Qed.

Lemma play_snoc (ms : list move) (m : move) (g : game) :
  play (ms ++ [m]) g = snd (makeMoveIfLegal m (play ms g)).
Proof. unfold play. by rewrite fold_left_app. Qed.

(** Whatever requests, undos and restarts came before, the game is the
    one its history tells: replaying the moves recorded in [moves] from
    the initial game gives the board, the side to move, the history and
    the move list back. *)
Theorem run_replays_history (es : list request) :
  run es = play (map entryMove (g_moves (run es))) initialGame.
Proof.
  pose proof (run_played es) as H. revert H. generalize (run es). clear es.
  induction 1 as [|g g' m Hg IH Hm]; [done|].
  destruct (accepted_commit _ _ _ Hm) as (piece & target & _ & _ & _ & Hmv & _).
  rewrite Hmv, map_app. cbn [map]. rewrite play_snoc, <- IH.
  unfold entryMove. cbn [e_from e_to]. destruct m as [f t]. cbn [from to].
  by rewrite Hm.
Qed.

(** The handlers keep the game in step: the board stays an 8x8 grid of
    cell values, the move list holds the notations of the history entry
    for entry, and white is to move exactly when the history has an even
    number of moves. *)
Theorem run_keeps_game_in_step (es : list request) :
  wf_board (g_board (run es)) = true
  /\ g_moveList (run es) = map e_notation (g_moves (run es))
  /\ g_sideToMove (run es) = sideAfter (length (g_moves (run es))).
Proof.
  induction es as [|e es IH] using rev_ind; [by repeat split|].
  rewrite run_snoc. apply played_consistent, played_handle, run_played.
Qed.

(** As many undos as the history is long lead back to the initial game. *)
Theorem run_undo_all (es : list request) :
  undoTimes (length (g_moves (run es))) (run es) = initialGame.
Proof.
  pose proof (run_played es) as H. revert H. generalize (run es). clear es.
  induction 1 as [|g g' m Hg IH Hm]; [done|].
  destruct (played_consistent _ Hg) as (_ & _ & Hs).
  destruct (accepted_commit _ _ _ Hm) as (piece & target & _ & _ & _ & Hmv & _).
  rewrite Hmv, length_app. cbn [length]. rewrite Nat.add_1_r.
  unfold undoTimes. rewrite Nat.iter_succ_r.
  destruct m as [[fr fc] [tr tc]].
  apply makeMoveIfLegal_accepted in Hm as (piece' & target' & Hp & Ht & Hne & ->).
  rewrite undo_commit; try done.
  rewrite Hs. apply sideAfter_valid.
Qed.

(** ** Material under a move *)

Section MaterialOfMoves.

Import Material.

Lemma evaluateBoardSimple_balance (b : board) :
  wf_board b = true -> evaluateBoardSimple b = balance b.
Proof.
  intros Hwf.
  destruct (wf_board_rows b Hwf) as [Hlen Hrows].
  destruct (length8_inv _ Hlen) as (r0 & r1 & r2 & r3 & r4 & r5 & r6 & r7 & ->).
  repeat match goal with
         | H : Forall _ (_ :: _) |- _ => apply Forall_cons_1 in H as [? H]
         end.
  unfold evaluateBoardSimple, balance.
  set (f := fun (score r : Z) => fold_left _ range8 score).
  change (fold_left f range8 0)
    with (f (f (f (f (f (f (f (f 0 0) 1) 2) 3) 4) 5) 6) 7).
  subst f. cbv beta.
  rewrite (evaluate_row _ 0 r0), (evaluate_row _ 1 r1), (evaluate_row _ 2 r2),
    (evaluate_row _ 3 r3), (evaluate_row _ 4 r4), (evaluate_row _ 5 r5),
    (evaluate_row _ 6 r6), (evaluate_row _ 7 r7) by (reflexivity || assumption).
  cbn [map sumZ fold_right]. lia.
Qed.

Lemma sumZ_insert {A} (f : A -> Z) (l : list A) (i : nat) (x y : A) :
  l !! i = Some x ->
  sumZ (map f (<[i := y]> l)) = sumZ (map f l) - f x + f y.
Proof.
  revert i. induction l as [|a l IH]; intros [|i] H; try done.
  - injection H as ->. cbn. lia.
  - change (sumZ (map f (a :: <[i := y]> l)) = sumZ (map f (a :: l)) - f x + f y).
    cbn [map sumZ fold_right]. fold (sumZ (map f (<[i := y]> l))).
    fold (sumZ (map f l)). rewrite (IH i H). lia.
Qed.

Lemma balance_setCell (b : board) (r c : Z) (v : ascii) :
  wf_board b = true -> onBoard (r, c) = true ->
  balance (setCell b r c v) = balance b - signedWorth (cell b r c) + signedWorth v.
Proof.
  intros Hwf Hon. apply andb_prop in Hon as [Hr Hc]. cbn [fst snd] in Hr, Hc.
  destruct (idx_inRange b r (wf_board_length _ Hwf) Hr) as (row & Hrow & Hin).
  destruct (idx_inRange row c (wf_board_row _ _ Hwf Hin) Hc) as (p & Hp & _).
  unfold cell. rewrite Hrow, Hp.
  apply idx_nat in Hrow as [Hrow H0], Hp as [Hp H0c].
  rewrite (setCell_nat b r c v row) by done.
  unfold balance.
  rewrite (sumZ_insert _ _ _ row) by done.
  rewrite (sumZ_insert _ _ _ p) by done. lia.
Qed.

Lemma balance_moveOnBoard (b : board) (m : move) :
  wf_board b = true -> onBoard (from m) = true -> onBoard (to m) = true ->
  from m <> to m ->
  balance (moveOnBoard b m)
  = balance b - signedWorth (cell b (fst (to m)) (snd (to m))).
Proof.
  destruct m as [[fr fc] [tr tc]]. cbn [from to fst snd]. intros Hwf Hf Ht Hne.
  unfold moveOnBoard. cbn [from to].
  rewrite balance_setCell; [|apply wf_setCell; [done|by apply wf_cell]|done].
  rewrite balance_setCell by done.
  rewrite cell_setCell by done.
  replace ((fr =? tr) && (fc =? tc)) with false.
  2:{ symmetry. apply andb_false_iff.
      destruct (Z.eqb_spec fr tr), (Z.eqb_spec fc tc); subst; auto; congruence. }
  change (signedWorth ".") with 0. lia.
Qed.

Lemma evaluate_moveOnBoard (b : board) (m : move) :
  wf_board b = true -> onBoard (from m) = true -> onBoard (to m) = true ->
  from m <> to m ->
  evaluateBoardSimple (moveOnBoard b m)
  = evaluateBoardSimple b - evaluateCell 0 (cell b (fst (to m)) (snd (to m))).
Proof.
  intros Hwf Hf Ht Hne.
  rewrite !evaluateBoardSimple_balance by (done || by apply wf_moveOnBoard).
  rewrite balance_moveOnBoard by done.
  by rewrite evaluateCell_signedWorth.
Qed.

End MaterialOfMoves.

Lemma not_white_worth (t : ascii) :
  isCellValue t = true ->
  (t =c? ".") || negb (t =c? toUpperCase t) = true -> evaluateCell 0 t <= 0.
Proof.
  assert (H : negb (isCellValue t)
              || negb ((t =c? ".") || negb (t =c? toUpperCase t))
              || (evaluateCell 0 t <=? 0) = true).
  { revert t. apply forall_ascii. vm_compute. reflexivity. }
  intros E1 E2. rewrite E1, E2 in H. cbn in H. lia.
Qed.

Lemma not_black_worth (t : ascii) :
  isCellValue t = true ->
  (t =c? ".") || negb (t =c? toLowerCase t) = true -> 0 <= evaluateCell 0 t.
Proof.
  assert (H : negb (isCellValue t)
              || negb ((t =c? ".") || negb (t =c? toLowerCase t))
              || (0 <=? evaluateCell 0 t) = true).
  { revert t. apply forall_ascii. vm_compute. reflexivity. }
  intros E1 E2. rewrite E1, E2 in H. cbn in H. lia.
Qed.

(** The child board [makeMoveOnBoard] allocates for a move between two
    different cells evaluates to the parent's score less the signed
    worth of what stood on the destination: material changes by the
    captured piece alone. *)
Theorem makeMoveOnBoard_material (b : nat) (m : move) (w : world) :
  isBoard (heap w) b = true ->
  wf_board (readBoard (heap w) b) = true ->
  onBoard (from m) = true -> onBoard (to m) = true -> from m <> to m ->
  let '(nb, w') := makeMoveOnBoard b m w in
  evaluateBoardSimple (readBoard (heap w') nb)
  = evaluateBoardSimple (readBoard (heap w) b)
    - evaluateCell 0 (cell (readBoard (heap w) b) (fst (to m)) (snd (to m))).
Proof.
  intros Hb Hwf Hf Ht Hne.
  destruct (makeMoveOnBoard b m w) as [nb w'] eqn:E.
  destruct (makeMoveOnBoard_child _ _ _ _ _ Hb E) as (_ & _ & _ & ->).
  by apply evaluate_moveOnBoard.
Qed.

Lemma makeMoveOnBoard_material_witness :
  isBoard (heap endgameWorld) endgameRef = true
  /\ wf_board (readBoard (heap endgameWorld) endgameRef) = true
  /\ cell endgame 2 4 = "P"
  /\ evaluateBoardSimple endgame = 0
  /\ evaluateBoardSimple
       (readBoard (heap (snd (makeMoveOnBoard endgameRef (Move (1, 3) (2, 4)) endgameWorld)))
          (fst (makeMoveOnBoard endgameRef (Move (1, 3) (2, 4)) endgameWorld)))
     = evaluateBoardSimple (readBoard (heap endgameWorld) endgameRef)
       - evaluateCell 0 (cell (readBoard (heap endgameWorld) endgameRef) 2 4).
Proof.
  split; [reflexivity|]. split; [reflexivity|]. split; [reflexivity|].
  split; [reflexivity|].
  pose proof (makeMoveOnBoard_material endgameRef (Move (1, 3) (2, 4)) endgameWorld
                eq_refl eq_refl eq_refl eq_refl ltac:(discriminate)) as H.
  destruct (makeMoveOnBoard endgameRef (Move (1, 3) (2, 4)) endgameWorld) as [nb w'].
  exact H.
Defined.

(** An accepted request leaves the board [makeMoveOnBoard] computes for
    it, and the score moves by the signed worth of the captured piece
    alone: it never falls on a move of white and never rises on a move of
    black. *)
Theorem accepted_move_material (m : move) (g g' : game) :
  wf_board (g_board g) = true ->
  makeMoveIfLegal m g = (Normal true, g') ->
  let target := cell (g_board g) (fst (to m)) (snd (to m)) in
  g_board g' = moveOnBoard (g_board g) m
  /\ evaluateBoardSimple (g_board g')
     = evaluateBoardSimple (g_board g) - evaluateCell 0 target
  /\ (if g_sideToMove g =c? "w"
      then evaluateBoardSimple (g_board g) <= evaluateBoardSimple (g_board g')
      else evaluateBoardSimple (g_board g') <= evaluateBoardSimple (g_board g)).
Proof.
  intros Hwf H target.
  destruct (accepted_commit _ _ _ H) as (piece & tg & Hp & Ht & Hb & _).
  destruct (makeMoveIfLegal_checks (fst (from m)) (snd (from m)) (fst (to m)) (snd (to m)) g g')
    as (piece' & tg' & Hp' & Ht' & Hne & Hown & Hfr).
  { by destruct m as [[? ?] [? ?]]. }
  rewrite Hp in Hp'. rewrite Ht in Ht'. simplify_eq.
  destruct (index2_Some_onBoard _ _ _ _ Hwf Hp) as [Hf Ep].
  destruct (index2_Some_onBoard _ _ _ _ Hwf Ht) as [Hto Et].
  assert (Hsq : from m <> to m).
  { destruct m as [[fr fc] [tr tc]].
    apply makeMoveIfLegal_accepted in H as (_ & _ & _ & _ & Hsq & _).
    intros [= -> ->]. by rewrite !Z.eqb_refl in Hsq. }
  split; [done|].
  assert (Hev : evaluateBoardSimple (g_board g')
                = evaluateBoardSimple (g_board g) - evaluateCell 0 target).
  { rewrite Hb. apply evaluate_moveOnBoard; try done; by destruct (from m), (to m). }
  split; [done|]. rewrite Hev.
  pose proof (wf_cell _ _ _ Hwf Hto) as Hcv. fold target in Hcv, Et.
  pose proof (wf_cell _ _ _ Hwf Hf) as Hcp. rewrite Ep in Hcp.
  pose proof (letter_case _ Hcp Hne) as Lp.
  subst tg'.
  destruct (target =c? ".") eqn:Etd.
  { apply Ascii.eqb_eq in Etd. rewrite Etd. cbn. destruct (_ =c? "w"); lia. }
  cbn [negb andb] in Hfr. apply Bool.eqb_false_iff in Hfr.
  destruct (g_sideToMove g =c? "w").
  - enough (evaluateCell 0 target <= 0) by lia.
    apply not_white_worth; [done|]. rewrite Etd. cbn [orb].
    rewrite Hown in Hfr. by destruct (target =c? toUpperCase target).
  - enough (0 <= evaluateCell 0 target) by lia.
    apply not_black_worth; [done|]. rewrite Etd. cbn [orb].
    rewrite Hown in Lp. cbn in Lp. rewrite Lp in Hfr.
    rewrite (letter_case _ Hcv Etd) in Hfr.
    by destruct (target =c? toLowerCase target).
Qed.

Lemma accepted_move_material_witness :
  wf_board (g_board afterE4E5) = true
  /\ fst (makeMoveIfLegal (Move (7, 5) (2, 0)) afterE4E5) = Normal true
  /\ evaluateBoardSimple (g_board (snd (makeMoveIfLegal (Move (7, 5) (2, 0)) afterE4E5)))
     = evaluateBoardSimple (g_board afterE4E5)
       - evaluateCell 0 (cell (g_board afterE4E5) 2 0).
Proof.
  split; [reflexivity|]. split; [reflexivity|].
  destruct (accepted_move_material (Move (7, 5) (2, 0)) afterE4E5
              (snd (makeMoveIfLegal (Move (7, 5) (2, 0)) afterE4E5))
              eq_refl eq_refl) as (_ & H & _).
  exact H.
Defined.

(** ** The notation of a move *)

Lemma inRange_cases (x : Z) :
  inRange x = true ->
  x = 0 \/ x = 1 \/ x = 2 \/ x = 3 \/ x = 4 \/ x = 5 \/ x = 6 \/ x = 7.
Proof. unfold inRange. lia. Qed.

Lemma charAt_one (s : string) (x : Z) :
  (s = files \/ s = ranks) -> inRange x = true ->
  exists ch, charAt s x = String ch EmptyString.
Proof.
  intros Hs Hx.
  destruct Hs as [-> | ->];
    destruct (inRange_cases x Hx) as [-> | [-> | [-> | [-> | [-> | [-> | [-> | ->]]]]]]];
    cbn; eauto.
Qed.

Lemma charAt_inj (s : string) (x y : Z) :
  (s = files \/ s = ranks) -> inRange x = true -> inRange y = true ->
  charAt s x = charAt s y -> x = y.
Proof.
  intros Hs Hx Hy.
  destruct Hs as [-> | ->];
    destruct (inRange_cases x Hx) as [-> | [-> | [-> | [-> | [-> | [-> | [-> | ->]]]]]]];
    destruct (inRange_cases y Hy) as [-> | [-> | [-> | [-> | [-> | [-> | [-> | ->]]]]]]];
    cbn; intros H; done.
Qed.

(** For cells of the board the notation tells the move: two requests with
    the same notation move the same piece letter between the same two
    cells, and both capture or neither does. *)
Theorem notationForMove_injective
    (fr fc tr tc fr' fc' tr' tc' : Z) (piece target piece' target' : ascii) :
  onBoard (fr, fc) = true -> onBoard (tr, tc) = true ->
  onBoard (fr', fc') = true -> onBoard (tr', tc') = true ->
  notationForMove fr fc tr tc piece target
  = notationForMove fr' fc' tr' tc' piece' target' ->
  piece = piece' /\ (fr, fc) = (fr', fc') /\ (tr, tc) = (tr', tc')
  /\ (target =c? ".") = (target' =c? ".").
Proof.
  intros H1 H2 H3 H4.
  apply andb_prop in H1 as [Hfr Hfc], H2 as [Htr Htc],
    H3 as [Hfr' Hfc'], H4 as [Htr' Htc']. cbn [fst snd] in *.
  unfold notationForMove.
  destruct (charAt_one files fc) as [a Ea]; [auto..|].
  destruct (charAt_one ranks fr) as [b Eb]; [auto..|].
  destruct (charAt_one files tc) as [c Ec]; [auto..|].
  destruct (charAt_one ranks tr) as [d Ed]; [auto..|].
  destruct (charAt_one files fc') as [a' Ea']; [auto..|].
  destruct (charAt_one ranks fr') as [b' Eb']; [auto..|].
  destruct (charAt_one files tc') as [c' Ec']; [auto..|].
  destruct (charAt_one ranks tr') as [d' Ed']; [auto..|].
  pose proof (charAt_inj files fc fc') as Ifc.
  pose proof (charAt_inj ranks fr fr') as Ifr.
  pose proof (charAt_inj files tc tc') as Itc.
  pose proof (charAt_inj ranks tr tr') as Itr.
  rewrite Ea, Eb, Ec, Ed, Ea', Eb', Ec', Ed' in *. cbn [String.append].
  intros H. injection H as -> -> -> -> -> Hx.
  rewrite Ifc, Ifr, Itc, Itr by auto.
  repeat split.
  by destruct (target =c? "."), (target' =c? ".").
Qed.

Lemma notationForMove_injective_witness :
  notationForMove 6 4 4 4 "P" "." = "Pe2-e4"%string
  /\ notationForMove 3 4 2 3 "P" "p" = "Pe5-d6x"%string
  /\ notationForMove 3 4 2 3 "P" "q" = "Pe5-d6x"%string
  /\ ("P" = "P" /\ (3, 4) = (3, 4) /\ (2, 3) = (2, 3) /\ ("p" =c? ".") = ("q" =c? ".")).
Proof.
  split; [reflexivity|]. split; [reflexivity|]. split; [reflexivity|].
  apply (notationForMove_injective 3 4 2 3 3 4 2 3 "P" "p" "P" "q"); reflexivity.
Defined.

(** ** What the root search returns *)

Lemma max_isNum (a b : num) : a <> PosInf -> isNum b -> isNum (NumOps.max a b).
Proof.
  intros Ha [z ->]. unfold NumOps.max.
  destruct a as [|x|]; cbn; [by exists z| |done].
  destruct (x <? z); by eexists.
Qed.

Lemma min_isNum (a b : num) : a <> NegInf -> isNum b -> isNum (NumOps.min a b).
Proof.
  intros Ha [z ->]. unfold NumOps.min.
  destruct a as [|x|]; cbn; [done| |by exists z].
  destruct (z <? x); by eexists.
Qed.

Lemma isNum_not_PosInf (n : num) : isNum n -> n <> PosInf.
Proof. by intros [z ->]. Qed.

Lemma isNum_not_NegInf (n : num) : isNum n -> n <> NegInf.
Proof. by intros [z ->]. Qed.

Section Finite.

Variable clock : nat -> Z.

Lemma maxLoop_isNum rec b start limit :
  (forall nb a be w, isNum (fst (rec nb a be w))) ->
  forall moves m a be w,
    m <> PosInf -> (moves <> [] \/ isNum m) ->
    isNum (fst (maxLoop clock rec b start limit moves m a be w)).
Proof.
  intros Hrec. induction moves as [|mv rest IH]; intros m a be w Hm Hne.
  - by destruct Hne.
  - cbn [maxLoop]. unfold wbind.
    destruct (makeMoveOnBoard b mv w) as [nb w1].
    pose proof (Hrec nb a be w1) as Hev.
    destruct (rec nb a be w1) as [ev w2]. cbn [fst] in Hev.
    pose proof (max_isNum m ev Hm Hev) as Hmax.
    destruct (NumOps.leb _ _); [done|].
    unfold performanceNow. destruct (_ >? _); [done|].
    apply IH; [by apply isNum_not_PosInf|by right].
Qed.

Lemma minLoop_isNum rec b start limit :
  (forall nb a be w, isNum (fst (rec nb a be w))) ->
  forall moves m a be w,
    m <> NegInf -> (moves <> [] \/ isNum m) ->
    isNum (fst (minLoop clock rec b start limit moves m a be w)).
Proof.
  intros Hrec. induction moves as [|mv rest IH]; intros m a be w Hm Hne.
  - by destruct Hne.
  - cbn [minLoop]. unfold wbind.
    destruct (makeMoveOnBoard b mv w) as [nb w1].
    pose proof (Hrec nb a be w1) as Hev.
    destruct (rec nb a be w1) as [ev w2]. cbn [fst] in Hev.
    pose proof (min_isNum m ev Hm Hev) as Hmin.
    destruct (NumOps.leb _ _); [done|].
    unfold performanceNow. destruct (_ >? _); [done|].
    apply IH; [by apply isNum_not_NegInf|by right].
Qed.

(** [minimax] returns a finite score, whatever the clock does. *)
Lemma minimax_isNum depth :
  forall b side a be start limit w,
    isNum (fst (minimax clock depth b side a be start limit w)).
Proof.
  induction depth as [|d IH]; intros b side a be start limit w;
    cbn [minimax]; unfold wbind, performanceNow, evaluate, generate;
    cbn [fst snd heap ticks].
  - destruct (_ >? _); by eexists.
  - destruct (_ >? _); [by eexists|].
    destruct (generateMovesForSide _ _) as [|m0 ms] eqn:E; [by eexists|].
    destruct (side =c? "w").
    + apply maxLoop_isNum; [intros; apply IH|done|by left].
    + apply minLoop_isNum; [intros; apply IH|done|by left].
Qed.

Lemma rootLoop_result (rec : nat -> W num) b side start limit :
  (forall nb w, isNum (fst (rec nb w))) ->
  forall moves bm bs w,
    (bm = None -> bs = if side =c? "w" then NegInf else PosInf) ->
    let r := fst (fst (rootLoop clock rec b side start limit moves bm bs w)) in
    match moves with
    | [] => r = bm
    | _ :: _ => exists m, r = Some m /\ (In m moves \/ bm = Some m)
    end.
Proof.
  intros Hrec. induction moves as [|mv rest IH]; intros bm bs w Hbm; [done|].
  cbn [rootLoop]. unfold wbind.
  destruct (makeMoveOnBoard b mv w) as [nb w1].
  destruct (Hrec nb w1) as [z Hz].
  destruct (rec nb w1) as [ev w2]. cbn [fst] in Hz. subst ev.
  set (better := if side =c? "w" then NumOps.ltb bs (Num z)
                 else NumOps.ltb (Num z) bs).
  assert (Hsome : exists m, (if better then Some mv else bm) = Some m
                            /\ (m = mv \/ bm = Some m)).
  { destruct bm as [m0|].
    - destruct better; eauto.
    - subst better. rewrite (Hbm eq_refl).
      destruct (side =c? "w"); cbn; eauto. }
  destruct Hsome as (m1 & Hm1 & Hin1).
  unfold performanceNow. cbn zeta.
  destruct (_ >? _).
  { cbn. exists m1. split; [done|]. destruct Hin1; [left; by left|by right]. }
  match goal with |- context [rootLoop _ _ _ _ _ _ rest ?bm' ?bs' ?w'] =>
    specialize (IH bm' bs' w') end.
  rewrite Hm1 in *. cbn zeta in IH. specialize (IH ltac:(done)).
  destruct rest as [|m2 rest'].
  - rewrite IH. exists m1. split; [done|]. destruct Hin1; [left; by left|by right].
  - destruct IH as (m & Hr & [Hin | [= <-]]).
    + exists m. split; [done|]. left. by right.
    + exists m1. split; [done|]. destruct Hin1; [left; by left|by right].
Qed.

End Finite.

Lemma in_sortBy_captureOrder B (l : list move) (m : move) :
  In m (sortBy (captureOrder B) l) <-> In m l.
Proof.
  rewrite sortBy_captureOrder, in_app_iff, !filter_In.
  destruct (isCapture B m); cbn; intuition congruence.
Qed.

(** The move the root loop ends with is one of the sorted list. *)
Lemma minimaxRoot_move (clock : nat -> Z) (b depth : nat) (side : ascii)
    (limit : Z) (w : world) :
  let sorted :=
    sortBy (captureOrder (readBoard (heap w) b))
      (generateMovesForSide (readBoard (heap w) b) side) in
  match fst (minimaxRoot clock b depth side limit w) with
  | None => sorted = []
  | Some m => In m sorted
  end.
Proof.
  unfold minimaxRoot, minimaxRootScored, wbind, performanceNow,
    generate, snapshot. cbn [heap ticks fst snd].
  match goal with
  | |- context [rootLoop ?c ?rec ?b ?s ?st ?l ?ms ?bm ?bs ?w0] =>
      pose proof (rootLoop_result c rec b s st l
                    (fun nb w => minimax_isNum c _ nb _ _ _ _ _ w)
                    ms bm bs w0 (fun _ => eq_refl)) as H;
      destruct (rootLoop c rec b s st l ms bm bs w0) as [[r sc] w']
  end.
  cbn [fst snd wret] in *.
  destruct (sortBy _ _) as [|m0 ms] eqn:E; [by subst r|].
  by destruct H as (m & -> & [Hin | Hn]).
Qed.

(** Whatever the clock and the time budget, [minimaxRoot] returns a move
    of the generated list, and returns [null] only when that list is
    empty: the search never comes back without a move when there is
    one. *)
Theorem minimaxRoot_returns_generated_move (clock : nat -> Z) (b depth : nat)
    (side : ascii) (limit : Z) (w : world) :
  (1 <= depth)%nat ->
  isBoard (heap w) b = true ->
  match fst (minimaxRoot clock b depth side limit w) with
  | None => generateMovesForSide (readBoard (heap w) b) side = []
  | Some m => In m (generateMovesForSide (readBoard (heap w) b) side)
  end.
Proof.
  intros _ _. pose proof (minimaxRoot_move clock b depth side limit w) as H.
  cbn zeta in H.
  destruct (fst (minimaxRoot clock b depth side limit w)) as [m|].
  - by apply in_sortBy_captureOrder in H.
  - destruct (generateMovesForSide _ _) as [|x l] eqn:El; [done|].
    assert (Hin : In x (sortBy (captureOrder (readBoard (heap w) b)) (x :: l)))
      by (apply in_sortBy_captureOrder; by left).
    by rewrite H in Hin.
Qed.

Lemma minimaxRoot_returns_generated_move_witness :
  (1 <= 2)%nat
  /\ isBoard (heap endgameWorld) endgameRef = true
  /\ In (Move (1, 3) (2, 4))
       (generateMovesForSide (readBoard (heap endgameWorld) endgameRef) "b")
  /\ fst (minimaxRoot (fun k => 300 * Z.of_nat k) endgameRef 2 "b" 1400 endgameWorld)
     = Some (Move (1, 3) (2, 4)).
Proof.
  split; [lia|]. split; [reflexivity|].
  pose proof (minimaxRoot_returns_generated_move (fun k => 300 * Z.of_nat k)
                endgameRef 2 "b" 1400 endgameWorld ltac:(lia) eq_refl) as H.
  assert (E : fst (minimaxRoot (fun k => 300 * Z.of_nat k) endgameRef 2 "b" 1400
                     endgameWorld) = Some (Move (1, 3) (2, 4))) by (vm_compute; reflexivity).
  rewrite E in H. split; [exact H | exact E].
Defined.

(** ** The root search when the time is up *)

(** When every read of the clock after the first is past the deadline,
    [minimaxRoot] degrades to one static evaluation: it makes the child
    of the first move in captures-first order, scores that child with
    [evaluateBoardSimple], and returns that move. *)
Theorem minimaxRoot_out_of_time (clock : nat -> Z) (b depth : nat)
    (side : ascii) (limit : Z) (w : world) :
  (1 <= depth)%nat ->
  isBoard (heap w) b = true ->
  (forall k, (ticks w < k)%nat -> limit < clock k - clock (ticks w)) ->
  let B := readBoard (heap w) b in
  let res := minimaxRootScored clock b depth side limit w in
  match capturesFirst B (generateMovesForSide B side) with
  | [] =>
      fst res = (None, if side =c? "w" then NegInf else PosInf)
      /\ heap (snd res) = heap w
  | m0 :: _ =>
      fst res = (Some m0, Num (evaluateBoardSimple (moveOnBoard B m0)))
      /\ newBoards (heap w) (heap (snd res)) = [moveOnBoard B m0]
  end.
Proof.
  intros _ Hb Hlate B res. subst res.
  unfold minimaxRootScored, wbind, performanceNow, generate, snapshot.
  cbn [heap ticks fst snd]. fold B. rewrite sortBy_captureOrder.
  fold (capturesFirst B (generateMovesForSide B side)).
  destruct (capturesFirst B (generateMovesForSide B side)) as [|m0 ms]; [done|].
  cbn [rootLoop]. unfold wbind.
  rewrite makeMoveOnBoard_spec by exact Hb. cbn [heap ticks]. fold B.
  rewrite <- (length_moveOnBoard B m0).
  assert (Hrec : forall h,
            minimax clock (Nat.pred depth) (length (heap w) + length (moveOnBoard B m0))
              (flipSide side) NegInf PosInf (clock (ticks w)) limit
              (World h (S (ticks w)))
            = (Num (evaluateBoardSimple
                      (readBoard h (length (heap w) + length (moveOnBoard B m0)))),
               World h (S (S (ticks w))))).
  { intros h. destruct (Nat.pred depth); cbn [minimax];
      unfold wbind, performanceNow, evaluate; cbn [heap ticks];
      replace (_ >? _) with true by (specialize (Hlate (S (ticks w))); lia);
      done. }
  rewrite Hrec. rewrite readBoard_boardObjs.
  unfold performanceNow. cbn [heap ticks].
  replace (_ >? _) with true by (specialize (Hlate (S (S (ticks w)))); lia).
  cbn [wret fst snd heap]. split.
  - by destruct (side =c? "w").
  - change (heap w ++ boardObjs (length (heap w)) (moveOnBoard B m0))
      with (allocAll (heap w) [moveOnBoard B m0]).
    by rewrite newBoards_allocAll.
Qed.

Lemma minimaxRoot_out_of_time_witness :
  (1 <= 3)%nat
  /\ isBoard (heap endgameWorld) endgameRef = true
  /\ (forall k, (ticks endgameWorld < k)%nat ->
        1900 < 2000 * Z.of_nat k - 2000 * Z.of_nat (ticks endgameWorld))
  /\ fst (minimaxRootScored (fun k => 2000 * Z.of_nat k) endgameRef 3 "b" 1900 endgameWorld)
     = (Some (Move (1, 3) (2, 4)),
        Num (evaluateBoardSimple
               (moveOnBoard (readBoard (heap endgameWorld) endgameRef)
                  (Move (1, 3) (2, 4)))))
  /\ newBoards (heap endgameWorld)
       (heap (snd (minimaxRootScored (fun k => 2000 * Z.of_nat k) endgameRef 3 "b"
                     1900 endgameWorld)))
     = [moveOnBoard (readBoard (heap endgameWorld) endgameRef) (Move (1, 3) (2, 4))].
Proof.
  assert (Hlate : forall k, (ticks endgameWorld < k)%nat ->
            1900 < 2000 * Z.of_nat k - 2000 * Z.of_nat (ticks endgameWorld))
    by (intros k Hk; cbn in *; lia).
  split; [lia|]. split; [reflexivity|]. split; [exact Hlate|].
  apply (minimaxRoot_out_of_time (fun k => 2000 * Z.of_nat k) endgameRef 3 "b" 1900
           endgameWorld ltac:(lia) eq_refl Hlate).
Defined.

(** ** The score of the root *)

Section RootValue.

Import NumOps.

Lemma max_assoc (a b c : num) : max (max a b) c = max a (max b c).
Proof.
  destruct a as [|x|], b as [|y|], c as [|z|]; unfold max, ltb; try done;
    repeat (match goal with
            | |- context [?u <? ?v] => destruct (Z.ltb_spec u v)
            end; cbn; try done; try lia).
Qed.

Lemma max_comm (a b : num) : max a b = max b a.
Proof.
  destruct a as [|x|], b as [|y|]; unfold max, ltb; try done.
  destruct (Z.ltb_spec x y), (Z.ltb_spec y x); try done; f_equal; lia.
Qed.

Lemma min_assoc (a b c : num) : min (min a b) c = min a (min b c).
Proof.
  destruct a as [|x|], b as [|y|], c as [|z|]; unfold min, ltb; try done;
    repeat (match goal with
            | |- context [?u <? ?v] => destruct (Z.ltb_spec u v)
            end; cbn; try done; try lia).
Qed.

Lemma min_comm (a b : num) : min a b = min b a.
Proof.
  destruct a as [|x|], b as [|y|]; unfold min, ltb; try done.
  destruct (Z.ltb_spec x y), (Z.ltb_spec y x); try done; f_equal; lia.
Qed.

Lemma fold_op_shift {A} (op : num -> num -> num) (g : A -> num) :
  (forall a b c, op (op a b) c = op a (op b c)) -> (forall a b, op a b = op b a) ->
  forall l a c,
    fold_left (fun acc x => op acc (g x)) l (op a c)
    = op (fold_left (fun acc x => op acc (g x)) l a) c.
Proof.
  intros Has Hco. induction l as [|x l IH]; intros a c; [done|]. cbn.
  rewrite <- IH. f_equal. rewrite !Has. f_equal. apply Hco.
Qed.

(** Folding an associative and commutative operation over the
    captures-first list or over the list itself gives the same. *)
Lemma fold_capturesFirst {A} (op : num -> num -> num) (g : A -> num)
    (f : A -> bool) :
  (forall a b c, op (op a b) c = op a (op b c)) -> (forall a b, op a b = op b a) ->
  forall l a,
    fold_left (fun acc x => op acc (g x))
      (List.filter f l ++ List.filter (fun x => negb (f x)) l) a
    = fold_left (fun acc x => op acc (g x)) l a.
Proof.
  intros Has Hco. induction l as [|x l IH]; intros a; [done|].
  cbn [List.filter]. destruct (f x); cbn [negb].
  - cbn. apply IH.
  - rewrite fold_left_app. cbn [fold_left].
    rewrite <- (fold_op_shift op g Has Hco), <- fold_left_app. apply IH.
Qed.

Lemma best_isNum (depth : nat) :
  forall (b : board) (side : ascii), isNum (best depth b side).
Proof.
  induction depth as [|d IH]; intros b side; cbn [best]; [by eexists|].
  destruct (generateMovesForSide b side) as [|m0 ms]; [by eexists|].
  destruct (side =c? "w").
  - assert (H : forall l a, a <> PosInf -> (l <> [] \/ isNum a) ->
              isNum (fold_left (fun acc mv => max acc (best d (moveOnBoard b mv) "b"))
                       l a)).
    { induction l as [|x l IHl]; intros a Ha Hl; [by destruct Hl|]. cbn.
      pose proof (max_isNum a _ Ha (IH (moveOnBoard b x) "b")) as Hn.
      apply IHl; [by apply isNum_not_PosInf|by right]. }
    apply H; [done|by left].
  - assert (H : forall l a, a <> NegInf -> (l <> [] \/ isNum a) ->
              isNum (fold_left (fun acc mv => min acc (best d (moveOnBoard b mv) "w"))
                       l a)).
    { induction l as [|x l IHl]; intros a Ha Hl; [by destruct Hl|]. cbn.
      pose proof (min_isNum a _ Ha (IH (moveOnBoard b x) "w")) as Hn.
      apply IHl; [by apply isNum_not_NegInf|by right]. }
    apply H; [done|by left].
Qed.

(** The pair the root loop ends with: the score is the fold of max (or
    min) over the children, and the move is one whose child has it. *)
Lemma rootFold_value (V : board -> num) (B : board) (side : ascii) :
  (forall mv, isNum (V (moveOnBoard B mv))) ->
  forall moves bm bs,
    (match bm with
     | None => bs = if side =c? "w" then NegInf else PosInf
     | Some m => V (moveOnBoard B m) = bs
     end) ->
    let r := rootFold V B side moves bm bs in
    snd r = fold_left
              (fun acc mv =>
                 (if side =c? "w" then max else min) acc (V (moveOnBoard B mv)))
              moves bs
    /\ match fst r with
       | None => moves = [] /\ bm = None
       | Some m => (In m moves \/ bm = Some m) /\ V (moveOnBoard B m) = snd r
       end.
Proof.
  intros HV. unfold rootFold.
  induction moves as [|mv rest IH]; intros bm bs Hbm.
  - cbn. split; [done|]. destruct bm; auto.
  - cbn [fold_left fst snd].
    set (score := V (moveOnBoard B mv)).
    remember (if side =c? "w" then ltb bs score else ltb score bs) as better
      eqn:Hbetter.
    assert (Hsc : (if better then score else bs)
                  = (if side =c? "w" then max else min) bs score).
    { rewrite Hbetter. unfold max, min. by destruct (side =c? "w"). }
    specialize (IH (if better then Some mv else bm) (if better then score else bs)).
    replace (if better then (Some mv, score) else (bm, bs))
      with (if better then Some mv else bm, if better then score else bs)
      by (by destruct better).
    assert (Hbt : bm = None -> better = true).
    { intros ->. rewrite Hbm in Hbetter. destruct (HV mv) as [z Hz].
      fold score in Hz. rewrite Hz in Hbetter. by destruct (side =c? "w"). }
    destruct IH as [IH1 IH2].
    { destruct better; [done|]. destruct bm as [m|]; [done|]. by specialize (Hbt eq_refl). }
    split; [by rewrite IH1, Hsc|].
    destruct (fst (fold_left _ rest _)) as [m|].
    + destruct IH2 as [[Hin | Hm] Hv]; (split; [|done]).
      * left. by right.
      * destruct better; [left; left; congruence|by right].
    + destruct IH2 as [_ Hn]. destruct better; [done|]. by specialize (Hbt Hn).
Qed.

End RootValue.

(** With no deadline reached and a move to make, the score that selects
    the root move is the score [minimax] itself returns for the root
    position at the same depth with the full window, and the child of the
    selected move has that score: sorting the captures first changes the
    order of the search, not its value. *)
Theorem root_score_is_minimax_value (clock : nat -> Z) (b depth : nat)
    (side : ascii) (limit : Z) (w : world) :
  (1 <= depth)%nat ->
  isBoard (heap w) b = true ->
  (forall k, clock k - clock (ticks w) <= limit) ->
  generateMovesForSide (readBoard (heap w) b) side <> [] ->
  let value :=
    fst (minimax clock depth b side NegInf PosInf (clock (ticks w)) limit w) in
  exists m,
    fst (minimaxRootScored clock b depth side limit w) = (Some m, value)
    /\ In m (generateMovesForSide (readBoard (heap w) b) side)
    /\ let '(nb, w1) := makeMoveOnBoard b m w in
       fst (minimax clock (Nat.pred depth) nb (flipSide side) NegInf PosInf
              (clock (ticks w)) limit w1) = value.
Proof.
  intros Hd Hb Hclock Hne value.
  set (B := readBoard (heap w) b) in *.
  pose proof (minimax_exact clock _ _ Hclock) as Hex.
  assert (Hval : value = best depth B side).
  { subst value. by destruct (Hex depth side b w Hb) as [-> _]. }
  destruct depth as [|d]; [lia|]. cbn [Nat.pred].
  set (V := fun B' => best d B' (flipSide side)).
  assert (HV : forall mv, isNum (V (moveOnBoard B mv))) by (intros; apply best_isNum).
  assert (Hroot : fst (minimaxRootScored clock b (S d) side limit w)
                  = rootFold V B side
                      (capturesFirst B (generateMovesForSide B side)) None
                      (if side =c? "w" then NegInf else PosInf)).
  { unfold minimaxRootScored, wbind, performanceNow, generate, snapshot.
    cbn [heap ticks Nat.pred].
    rewrite (rootLoop_exact clock _ _ Hclock _ _ b side (Hex d (flipSide side)))
      by exact Hb.
    cbn [heap]. fold B. by rewrite sortBy_captureOrder. }
  destruct (rootFold_value V B side HV
              (capturesFirst B (generateMovesForSide B side)) None
              (if side =c? "w" then NegInf else PosInf) eq_refl) as [Hs Hm].
  rewrite <- Hroot in Hs, Hm.
  assert (Hbest : best (S d) B side = snd (fst (minimaxRootScored clock b (S d) side limit w))).
  { rewrite Hs. cbn [best].
    destruct (generateMovesForSide B side) as [|m0 ms] eqn:Eg; [done|].
    unfold capturesFirst, V, flipSide.
    destruct (side =c? "w").
    - by rewrite (fold_capturesFirst _ _ _ max_assoc max_comm).
    - by rewrite (fold_capturesFirst _ _ _ min_assoc min_comm). }
  destruct (fst (minimaxRootScored clock b (S d) side limit w)) as [[m|] sc] eqn:Er;
    cbn [fst snd] in *.
  - destruct Hm as [[Hin | Hn] Hv]; [|done].
    exists m. rewrite Hval, Hbest. split; [done|]. split.
    + unfold capturesFirst in Hin.
      apply in_app_iff in Hin as [Hin | Hin]; by apply filter_In in Hin as [? _].
    + destruct (makeMoveOnBoard b m w) as [nb w1] eqn:E1.
      destruct (makeMoveOnBoard_child _ _ _ _ _ Hb E1) as (_ & _ & Hnb & Hread).
      destruct (Hex d (flipSide side) nb w1 Hnb) as [-> _].
      rewrite Hread. exact Hv.
  - destruct Hm as [Hnil _]. exfalso.
    destruct (generateMovesForSide B side) as [|m0 ms] eqn:Eg; [done|].
    assert (Hin : In m0 (capturesFirst B (m0 :: ms))).
    { unfold capturesFirst. rewrite in_app_iff, !filter_In.
      destruct (isCapture B m0); cbn; auto. }
    by rewrite Hnil in Hin.
Qed.

Lemma root_score_is_minimax_value_witness :
  (1 <= 2)%nat
  /\ isBoard (heap endgameWorld) endgameRef = true
  /\ (forall k, frozenClock k - frozenClock (ticks endgameWorld) <= 1400)
  /\ generateMovesForSide (readBoard (heap endgameWorld) endgameRef) "b" <> []
  /\ exists m,
       fst (minimaxRootScored frozenClock endgameRef 2 "b" 1400 endgameWorld)
       = (Some m,
          fst (minimax frozenClock 2 endgameRef "b" NegInf PosInf
                 (frozenClock (ticks endgameWorld)) 1400 endgameWorld)).
Proof.
  assert (Hclock : forall k, frozenClock k - frozenClock (ticks endgameWorld) <= 1400)
    by (intros k; unfold frozenClock; lia).
  assert (Hne : generateMovesForSide (readBoard (heap endgameWorld) endgameRef) "b" <> [])
    by (vm_compute; discriminate).
  split; [lia|]. split; [reflexivity|]. split; [exact Hclock|]. split; [exact Hne|].
  destruct (root_score_is_minimax_value frozenClock endgameRef 2 "b" 1400 endgameWorld
              ltac:(lia) eq_refl Hclock Hne) as (m & H & _).
  exists m. exact H.
Defined.

(** ** No generated move gains material *)

Lemma pawnMoves_moves (b : board) (r c : Z) (p : ascii) (isWhite : bool) (m : move) :
  In m (pawnMoves b r c p isWhite) -> to m <> (r, c).
Proof.
  unfold pawnMoves. cbn [flat_map]. rewrite !in_app_iff.
  intros [H | [[H | [H | []]] | H]];
    repeat match type of H with
           | In _ (if ?x then _ else _) => destruct x; [|done]
           | In _ (let _ := _ in _) => cbn zeta in H
           end;
    destruct H as [<- | []]; cbn [mv to]; intros E; inversion E; destruct isWhite; lia.
Qed.

Lemma stepMoves_moves (b : board) (r c : Z) (p : ascii) (deltas : list (Z * Z))
    (m : move) :
  Forall (fun d => unitStep d = true \/ Z.abs (fst d) + Z.abs (snd d) = 3) deltas ->
  In m (stepMoves b r c p deltas) -> to m <> (r, c).
Proof.
  intros Hd. unfold stepMoves. rewrite in_flat_map. intros ([dr dc] & Hin & H).
  rewrite Forall_forall in Hd. apply list_elem_of_In, Hd in Hin. cbn [fst snd] in *.
  destruct (negb _ || negb _); [done|]. destruct (_ || _); [|done].
  destruct H as [<- | []]. cbn [mv to]. intros E. inversion E.
  unfold unitStep in Hin. cbn [fst snd] in Hin. lia.
Qed.

Lemma slideMoves_moves (b : board) (r c : Z) (p : ascii) (deltas : list (Z * Z))
    (m : move) :
  wf_board b = true ->
  Forall (fun d => unitStep d = true) deltas ->
  In m (slideMoves b r c p deltas) -> to m <> (r, c).
Proof.
  intros Hwf Hd H.
  assert (Hfrom : from m = (r, c)).
  { unfold slideMoves in H. apply in_flat_map in H as (d & _ & H).
    revert H. generalize (r + fst d) (c + snd d). generalize 8%nat.
    induction n as [|n IH]; intros rr cc H; [done|]. cbn [ray] in H.
    destruct (inRange rr && inRange cc); [|done].
    destruct (cell b rr cc =c? ".").
    - destruct H as [<- | H]; [done|]. by eapply IH.
    - destruct (isOpposite _ _); [|done]. by destruct H as [<- | []]. }
  unfold slideMoves in H. apply in_flat_map in H as ([d1 d2] & Hin & H).
  rewrite Forall_forall in Hd. apply list_elem_of_In, Hd in Hin.
  destruct m as [f [tr tc]]. cbn [from to] in *. subst f.
  destruct (ray_clear b r c p d1 d2 Hwf Hin 8 _ _ _ _ H) as [(k & Hk & Htr & Htc) _].
  cbn [fst snd] in *. intros E. inversion E.
  unfold unitStep in Hin. cbn [fst snd] in Hin. nia.
Qed.

Lemma movesFrom_moves (b : board) (side : ascii) (r c : Z) (m : move) :
  wf_board b = true -> In m (movesFrom b side r c) -> to m <> (r, c).
Proof.
  intros Hwf. unfold movesFrom.
  destruct (cell b r c =c? "."); [done|]. destruct (negb _); [done|].
  destruct (_ =c? "p"); [apply pawnMoves_moves|].
  destruct (_ =c? "n").
  { apply stepMoves_moves. unfold knightDeltas.
    repeat (apply Forall_cons; split; [by right|]). done. }
  destruct ((_ =c? "b") || (_ =c? "r") || (_ =c? "q")).
  { apply slideMoves_moves; [done|].
    destruct (_ =c? "b"); [|destruct (_ =c? "r")];
      repeat (apply Forall_cons; split; [done|]); done. }
  destruct (_ =c? "k"); [|done].
  apply stepMoves_moves. unfold kingDeltas.
  repeat (apply Forall_cons; split; [by left|]). done.
Qed.

Lemma empty_or_white_worth (t : ascii) :
  isCellValue t = true ->
  (t =c? ".") || (t =c? toUpperCase t) = true -> 0 <= evaluateCell 0 t.
Proof.
  assert (H : negb (isCellValue t)
              || negb ((t =c? ".") || (t =c? toUpperCase t))
              || (0 <=? evaluateCell 0 t) = true).
  { revert t. apply forall_ascii. vm_compute. reflexivity. }
  intros E1 E2. rewrite E1, E2 in H. cbn in H. lia.
Qed.

Lemma generated_move_cells (b : board) (side : ascii) (m : move) :
  wf_board b = true ->
  In m (generateMovesForSide b side) ->
  onBoard (from m) = true /\ onBoard (to m) = true /\ from m <> to m.
Proof.
  intros Hwf Hin.
  destruct (generated_moves_shape _ _ _ Hin) as (Hf & _ & _ & Hl).
  unfold landsOnEmptyOrWhite in Hl. apply andb_prop in Hl as [Hto Hl].
  do 2 (split; [done|]).
  apply generated_from in Hin as (r & c & Hr & Hc & Hin).
  destruct (movesFrom_emitted _ _ _ _ _ Hr Hc Hin) as ([Hfrom _] & _).
  rewrite Hfrom. intros E. by apply (movesFrom_moves b side r c m Hwf Hin).
Qed.

Lemma generated_child_below (b : board) (side : ascii) (m : move) :
  wf_board b = true ->
  In m (generateMovesForSide b side) ->
  wf_board (moveOnBoard b m) = true
  /\ evaluateBoardSimple (moveOnBoard b m) <= evaluateBoardSimple b.
Proof.
  intros Hwf Hin.
  destruct (generated_move_cells b side m Hwf Hin) as (Hf & Hto & Hne).
  destruct (generated_moves_shape _ _ _ Hin) as (_ & _ & _ & Hl).
  unfold landsOnEmptyOrWhite in Hl. apply andb_prop in Hl as [_ Hl].
  split; [by apply wf_moveOnBoard|].
  rewrite (evaluate_moveOnBoard b m Hwf Hf Hto Hne).
  enough (0 <= evaluateCell 0 (cell b (fst (to m)) (snd (to m)))) by lia.
  apply empty_or_white_worth; [|done]. apply wf_cell; [done|]. by destruct (to m).
Qed.

(** Every move the generator returns, for either side, goes between two
    different cells of the board and lands on an empty cell or a white
    piece; so the child's score is the parent's less the worth of a
    white piece or of nothing: never higher. *)
Theorem generated_move_never_gains (b : board) (side : ascii) (m : move) :
  wf_board b = true ->
  In m (generateMovesForSide b side) ->
  let target := cell b (fst (to m)) (snd (to m)) in
  onBoard (from m) = true /\ onBoard (to m) = true /\ from m <> to m
  /\ (target = "." \/ isPieceOwnedBySide (Some target) "w" = Normal true)
  /\ evaluateBoardSimple (moveOnBoard b m)
     = evaluateBoardSimple b - evaluateCell 0 target
  /\ evaluateBoardSimple (moveOnBoard b m) <= evaluateBoardSimple b.
Proof.
  intros Hwf Hin target.
  destruct (generated_move_cells b side m Hwf Hin) as (Hf & Hto & Hne).
  destruct (generated_moves_shape _ _ _ Hin) as (_ & _ & _ & Hl).
  unfold landsOnEmptyOrWhite in Hl. apply andb_prop in Hl as [_ Hl]. fold target in Hl.
  do 3 (split; [done|]). split.
  { unfold isPieceOwnedBySide, isChar. change ("w" =c? "w") with true. cbn iota.
    destruct (target =c? ".") eqn:E; [left; by apply Ascii.eqb_eq|].
    right. cbn [orb] in Hl. by rewrite Hl. }
  pose proof (evaluate_moveOnBoard b m Hwf Hf Hto Hne) as Hev. fold target in Hev.
  split; [done|]. rewrite Hev.
  enough (0 <= evaluateCell 0 target) by lia.
  apply empty_or_white_worth; [|done]. apply wf_cell; [done|]. by destruct (to m).
Qed.

Lemma generated_move_never_gains_witness :
  wf_board initialBoard = true
  /\ In (Move (7, 1) (6, 3)) (generateMovesForSide initialBoard "w")
  /\ evaluateBoardSimple (moveOnBoard initialBoard (Move (7, 1) (6, 3)))
     = evaluateBoardSimple initialBoard - evaluateCell 0 (cell initialBoard 6 3)
  /\ evaluateBoardSimple (moveOnBoard initialBoard (Move (7, 1) (6, 3)))
     <= evaluateBoardSimple initialBoard.
Proof.
  assert (Hin : In (Move (7, 1) (6, 3)) (generateMovesForSide initialBoard "w")).
  { vm_compute. do 18 right. by left. }
  split; [reflexivity|]. split; [exact Hin|].
  destruct (generated_move_never_gains initialBoard "w" (Move (7, 1) (6, 3))
              eq_refl Hin) as (_ & _ & _ & _ & H1 & H2).
  split; [exact H1 | exact H2].
Defined.

(** ** The search never expects white to win material *)

Section BelowStatic.

Variable clock : nat -> Z.

Lemma max_below (m : num) (z1 bound : Z) :
  (m = NegInf \/ exists z, m = Num z /\ z <= bound) -> z1 <= bound ->
  exists z, NumOps.max m (Num z1) = Num z /\ z <= bound.
Proof.
  intros [-> | (z & -> & Hz)] H1; unfold NumOps.max; cbn; [by exists z1|].
  destruct (z <? z1); eauto.
Qed.

Lemma min_below (m : num) (z1 bound : Z) :
  (m = PosInf \/ exists z, m = Num z /\ z <= bound) -> z1 <= bound ->
  exists z, NumOps.min m (Num z1) = Num z /\ z <= bound.
Proof.
  intros [-> | (z & -> & Hz)] H1; unfold NumOps.min; cbn; [by exists z1|].
  destruct (z1 <? z); eauto.
Qed.

Lemma maxLoop_below rec b start limit (B : board) (bound : Z) :
  belowStatic rec -> allocates rec ->
  forall moves m a be w,
    isBoard (heap w) b = true -> readBoard (heap w) b = B ->
    Forall (fun mv => wf_board (moveOnBoard B mv) = true
                      /\ evaluateBoardSimple (moveOnBoard B mv) <= bound) moves ->
    (m = NegInf \/ exists z, m = Num z /\ z <= bound) ->
    (moves <> [] \/ m <> NegInf) ->
    exists z, fst (maxLoop clock rec b start limit moves m a be w) = Num z
              /\ z <= bound.
Proof.
  intros Hrec Halloc. induction moves as [|mv rest IH]; intros m a be w Hb HB Hmoves Hm Hne.
  - cbn. destruct Hm as [-> | Hm]; [by destruct Hne|done].
  - cbn [maxLoop]. unfold wbind.
    apply Forall_cons in Hmoves as [[Hwf Hle] Hrest].
    destruct (makeMoveOnBoard b mv w) as [nb w1] eqn:E1.
    destruct (makeMoveOnBoard_child _ _ _ _ _ Hb E1) as (X1 & _ & Hnb & Hread).
    rewrite HB in Hread.
    destruct (Hrec nb a be w1 Hnb) as (z1 & Hz1 & Hle1); [by rewrite Hread|].
    pose proof (Halloc nb a be w1 Hnb) as X2.
    destruct (rec nb a be w1) as [ev w2]. cbn [fst snd] in *. subst ev.
    rewrite Hread in Hle1.
    destruct (max_below m z1 bound Hm ltac:(lia)) as (z2 & Hz2 & Hle2).
    rewrite Hz2.
    destruct (NumOps.leb _ _); [by exists z2|].
    unfold performanceNow. destruct (_ >? _); [by exists z2|].
    assert (X3 : extends w (World (heap w2) (S (ticks w2)))).
    { eapply extends_trans; [exact X1|]. eapply extends_trans; [exact X2|].
      by apply extends_heap. }
    apply IH.
    + by eapply extends_isBoard.
    + by rewrite (extends_readBoard _ _ _ X3 Hb).
    + done.
    + right. by exists z2.
    + by right.
Qed.

Lemma minLoop_below rec b start limit (B : board) (bound : Z) :
  belowStatic rec -> allocates rec ->
  forall moves m a be w,
    isBoard (heap w) b = true -> readBoard (heap w) b = B ->
    Forall (fun mv => wf_board (moveOnBoard B mv) = true
                      /\ evaluateBoardSimple (moveOnBoard B mv) <= bound) moves ->
    (m = PosInf \/ exists z, m = Num z /\ z <= bound) ->
    (moves <> [] \/ m <> PosInf) ->
    exists z, fst (minLoop clock rec b start limit moves m a be w) = Num z
              /\ z <= bound.
Proof.
  intros Hrec Halloc. induction moves as [|mv rest IH]; intros m a be w Hb HB Hmoves Hm Hne.
  - cbn. destruct Hm as [-> | Hm]; [by destruct Hne|done].
  - cbn [minLoop]. unfold wbind.
    apply Forall_cons in Hmoves as [[Hwf Hle] Hrest].
    destruct (makeMoveOnBoard b mv w) as [nb w1] eqn:E1.
    destruct (makeMoveOnBoard_child _ _ _ _ _ Hb E1) as (X1 & _ & Hnb & Hread).
    rewrite HB in Hread.
    destruct (Hrec nb a be w1 Hnb) as (z1 & Hz1 & Hle1); [by rewrite Hread|].
    pose proof (Halloc nb a be w1 Hnb) as X2.
    destruct (rec nb a be w1) as [ev w2]. cbn [fst snd] in *. subst ev.
    rewrite Hread in Hle1.
    destruct (min_below m z1 bound Hm ltac:(lia)) as (z2 & Hz2 & Hle2).
    rewrite Hz2.
    destruct (NumOps.leb _ _); [by exists z2|].
    unfold performanceNow. destruct (_ >? _); [by exists z2|].
    assert (X3 : extends w (World (heap w2) (S (ticks w2)))).
    { eapply extends_trans; [exact X1|]. eapply extends_trans; [exact X2|].
      by apply extends_heap. }
    apply IH.
    + by eapply extends_isBoard.
    + by rewrite (extends_readBoard _ _ _ X3 Hb).
    + done.
    + right. by exists z2.
    + by right.
Qed.

Lemma minimax_allocates depth side start limit :
  allocates (fun nb a be => minimax clock depth nb side a be start limit).
Proof. intros nb a be w Hnb. by apply minimax_extends. Qed.

Lemma minimax_below depth :
  forall side start limit,
    belowStatic (fun nb a be => minimax clock depth nb side a be start limit).
Proof.
  induction depth as [|d IH]; intros side start limit b a be w Hb Hwf;
    cbn [minimax]; unfold wbind, performanceNow, evaluate, generate;
    cbn [fst snd heap ticks].
  - destruct (_ >? _); eexists; (split; [reflexivity|apply Z.le_refl]).
  - destruct (_ >? _); [eexists; (split; [reflexivity|apply Z.le_refl])|].
    destruct (generateMovesForSide _ _) as [|m0 ms] eqn:E;
      [eexists; (split; [reflexivity|apply Z.le_refl])|].
    assert (Hmoves : Forall
              (fun mv => wf_board (moveOnBoard (readBoard (heap w) b) mv) = true
                         /\ evaluateBoardSimple (moveOnBoard (readBoard (heap w) b) mv)
                            <= evaluateBoardSimple (readBoard (heap w) b))
              (m0 :: ms)).
    { rewrite <- E. apply Forall_forall. intros mv Hin.
      apply list_elem_of_In in Hin. by eapply generated_child_below. }
    destruct (side =c? "w").
    + apply (maxLoop_below _ b start limit (readBoard (heap w) b) _
               (IH "b" start limit) (minimax_allocates d "b" start limit));
        try done; by left.
    + apply (minLoop_below _ b start limit (readBoard (heap w) b) _
               (IH "w" start limit) (minimax_allocates d "w" start limit));
        try done; by left.
Qed.

End BelowStatic.

(** Whatever the depth, the side, the window and the clock, the score
    [minimax] returns for an 8x8 board is finite and at most the score
    [evaluateBoardSimple] gives that board: no line the search looks at
    has white win material, since no generated move takes a black
    piece. *)
Theorem minimax_never_above_static (clock : nat -> Z) (depth b : nat)
    (side : ascii) (a be : num) (start limit : Z) (w : world) :
  isBoard (heap w) b = true ->
  wf_board (readBoard (heap w) b) = true ->
  exists z,
    fst (minimax clock depth b side a be start limit w) = Num z
    /\ z <= evaluateBoardSimple (readBoard (heap w) b).
Proof.
  intros Hb Hwf.
  destruct (minimax_below clock depth side start limit b a be w Hb Hwf) as (z & Hz & Hle).
  exists z. by split.
Qed.

Lemma minimax_never_above_static_witness :
  isBoard (heap endgameWorld) endgameRef = true
  /\ wf_board (readBoard (heap endgameWorld) endgameRef) = true
  /\ evaluateBoardSimple (readBoard (heap endgameWorld) endgameRef) = 0
  /\ exists z,
       fst (minimax frozenClock 3 endgameRef "w" NegInf PosInf 0 1900 endgameWorld)
       = Num z
       /\ z <= evaluateBoardSimple (readBoard (heap endgameWorld) endgameRef).
Proof.
  split; [reflexivity|]. split; [reflexivity|]. split; [reflexivity|].
  apply (minimax_never_above_static frozenClock 3 endgameRef "w" NegInf PosInf 0 1900
           endgameWorld); reflexivity.
Defined.

(** ** Accepted requests against the generator *)

(** An accepted request has passed the shape checks. *)
Lemma makeMoveIfLegal_shape fr fc tr tc g g' piece target :
  makeMoveIfLegal (Move (fr, fc) (tr, tc)) g = (Normal true, g') ->
  index2 (g_board g) fr fc = Normal (Some piece) ->
  index2 (g_board g) tr tc = Normal (Some target) ->
  shapeAccepted (g_board g) piece target fr fc tr tc = true.
Proof.
  unfold makeMoveIfLegal, bind, lift, ret, throw, getBoard, getSide, isPathClear.
  cbn [from to]. intros H Hp Ht. rewrite Hp, Ht in H.
  destruct (isChar (Some piece) "."); [done|].
  destruct (isPieceOwnedBySide _ _) as [[|]| |]; try done. cbn [negb] in H.
  destruct ((fr =? tr) && (fc =? tc)); [done|].
  destruct (negb (target =c? ".") && _); [done|].
  unfold shapeAccepted, pathClear.
  destruct (toLowerCase piece =c? "p").
  { destruct ((fc =? tc) && (target =c? ".")).
    - destruct (tr =? fr + _); [done|]. cbn [orb]. by destruct (_ || _).
    - by destruct (_ && _ && _). }
  destruct (toLowerCase piece =c? "n"); [by destruct (_ || _)|].
  destruct (toLowerCase piece =c? "b").
  { destruct (Z.abs (tr - fr) =? Z.abs (tc - fc)); cbn [negb andb] in *; [|done].
    by destruct (isPathClear_loop _ _ _ _ _ _ _ _) as [[|]| |]. }
  destruct (toLowerCase piece =c? "r").
  { destruct (negb (tr =? fr) && negb (tc =? fc)); cbn [negb andb] in *; [done|].
    by destruct (isPathClear_loop _ _ _ _ _ _ _ _) as [[|]| |]. }
  destruct (toLowerCase piece =c? "q").
  { destruct (negb (tr =? fr) && negb (tc =? fc) && _); cbn [negb andb] in *; [done|].
    by destruct (isPathClear_loop _ _ _ _ _ _ _ _) as [[|]| |]. }
  destruct (toLowerCase piece =c? "k"); [|done].
  by destruct (_ >? 1).
Qed.

Lemma inRange_range8 (x : Z) : inRange x = true -> In x range8.
Proof. unfold inRange, range8. intros H. cbn. lia. Qed.

(** The ray of the generator reaches every cell the path loop of
    [makeMoveIfLegal] finds clear, when the generator's colour test lets
    the destination through. *)
Lemma ray_complete (b : board) (r c : Z) (p : ascii) (d1 d2 tr tc : Z) :
  wf_board b = true -> unitStep (d1, d2) = true -> onBoard (tr, tc) = true ->
  (cell b tr tc =c? ".") || isOpposite (pieceColor p) (cell b tr tc) = true ->
  forall k fuel1 fuel2 rr cc,
    (k < fuel2)%nat ->
    tr = rr + Z.of_nat k * d1 -> tc = cc + Z.of_nat k * d2 ->
    onBoard (rr, cc) = true ->
    isPathClear_loop fuel1 b d1 d2 rr cc tr tc = Normal true ->
    In (mv r c tr tc) (ray fuel2 b r c p (d1, d2) rr cc).
Proof.
  intros Hwf Hd Ht Hl.
  assert (Hd1 : d1 = -1 \/ d1 = 0 \/ d1 = 1) by (unfold unitStep in Hd; cbn in Hd; lia).
  assert (Hd2 : d2 = -1 \/ d2 = 0 \/ d2 = 1) by (unfold unitStep in Hd; cbn in Hd; lia).
  assert (Hnz : d1 <> 0 \/ d2 <> 0) by (unfold unitStep in Hd; cbn in Hd; lia).
  induction k as [|k IH]; intros fuel1 fuel2 rr cc Hk Hr Hc Hon Hclear;
    (destruct fuel2 as [|fuel2]; [lia|]); cbn [ray fst snd];
    pose proof Hon as Hon'; apply andb_prop in Hon' as [Hrr Hcc];
    cbn [fst snd] in Hrr, Hcc; rewrite Hrr, Hcc; cbn [andb].
  - assert (rr = tr) by lia. assert (cc = tc) by lia. subst rr cc.
    destruct (cell b tr tc =c? "."); [by left|].
    cbn [orb] in Hl. rewrite Hl. by left.
  - assert (Hfar : negb (rr =? tr) || negb (cc =? tc) = true).
    { apply orb_true_iff. rewrite !negb_true_iff, !Z.eqb_neq.
      destruct Hd1 as [-> | [-> | ->]], Hd2 as [-> | [-> | ->]]; lia. }
    destruct fuel1 as [|fuel1]; cbn [isPathClear_loop] in Hclear;
      rewrite Hfar in Hclear; [done|].
    rewrite (index2_onBoard _ _ _ Hwf Hon) in Hclear. unfold isChar in Hclear.
    destruct (cell b rr cc =c? "."); cbn [negb] in Hclear; [|done].
    right. apply (IH fuel1); [lia| | | |done].
    + destruct Hd1 as [-> | [-> | ->]]; lia.
    + destruct Hd2 as [-> | [-> | ->]]; lia.
    + apply andb_prop in Ht as [Htr Htc]. unfold onBoard, inRange in *.
      cbn [fst snd] in *.
      destruct Hd1 as [-> | [-> | ->]], Hd2 as [-> | [-> | ->]]; lia.
Qed.

Lemma slideMoves_complete (b : board) (r c : Z) (p : ascii)
    (deltas : list (Z * Z)) (tr tc : Z) :
  wf_board b = true -> onBoard (r, c) = true -> onBoard (tr, tc) = true ->
  ((r =? tr) && (c =? tc)) = false ->
  tr = r \/ tc = c \/ Z.abs (tr - r) = Z.abs (tc - c) ->
  In (sign (tr - r), sign (tc - c)) deltas ->
  pathClear b r c tr tc = true ->
  (cell b tr tc =c? ".") || isOpposite (pieceColor p) (cell b tr tc) = true ->
  In (mv r c tr tc) (slideMoves b r c p deltas).
Proof.
  intros Hwf Hf Ht Hne Hal Hd Hclear Hl.
  unfold slideMoves. apply in_flat_map. exists (sign (tr - r), sign (tc - c)).
  split; [done|]. cbn [fst snd].
  unfold pathClear in Hclear.
  destruct (isPathClear_loop 8 b _ _ _ _ _ _) as [[|]| |] eqn:E; try done.
  set (k := Z.max (Z.abs (tr - r)) (Z.abs (tc - c))).
  assert (Hk : 1 <= k <= 7) by (unfold onBoard, inRange in *; cbn [fst snd] in *; lia).
  apply (ray_complete b r c p _ _ tr tc Hwf) with (k := Z.to_nat (k - 1)) (fuel1 := 8%nat);
    try done; unfold sign in *.
  - unfold unitStep. cbn [fst snd]. lia.
  - lia.
  - rewrite Z2Nat.id by lia. subst k. nia.
  - rewrite Z2Nat.id by lia. subst k. nia.
  - unfold onBoard, inRange in *. cbn [fst snd] in *. lia.
Qed.

Lemma stepMoves_complete (b : board) (r c : Z) (p : ascii)
    (deltas : list (Z * Z)) (tr tc : Z) :
  onBoard (tr, tc) = true ->
  In (tr - r, tc - c) deltas ->
  (cell b tr tc =c? ".") || isOpposite (pieceColor p) (cell b tr tc) = true ->
  In (mv r c tr tc) (stepMoves b r c p deltas).
Proof.
  intros Ht Hd Hl. apply andb_prop in Ht as [Htr Htc]. cbn [fst snd] in *.
  unfold stepMoves. apply in_flat_map. exists (tr - r, tc - c).
  split; [done|]. cbn [fst snd].
  replace (r + (tr - r)) with tr by lia. replace (c + (tc - c)) with tc by lia.
  rewrite Htr, Htc, Hl. by left.
Qed.

Lemma pawnMoves_complete (b : board) (r c tr tc : Z) :
  let p := cell b r c in
  toLowerCase p = "p" ->
  onBoard (tr, tc) = true ->
  shapeAccepted b p (cell b tr tc) r c tr tc = true ->
  (cell b tr tc =c? ".") || isOpposite (pieceColor p) (cell b tr tc) = true ->
  jumpsOver b (Move (r, c) (tr, tc)) = false ->
  In (mv r c tr tc) (pawnMoves b r c p (p =c? toUpperCase p)).
Proof.
  intros p Hp Ht Hshape Hl Hj.
  apply andb_prop in Ht as [Htr Htc]. cbn [fst snd] in *.
  unfold shapeAccepted in Hshape. rewrite Hp in Hshape.
  change ("p" =c? "p") with true in Hshape. cbn iota in Hshape.
  unfold jumpsOver in Hj. cbn [from to] in Hj. fold p in Hj. rewrite Hp in Hj.
  change ("p" =c? "p") with true in Hj. cbn [andb] in Hj.
  unfold pawnMoves. cbn [flat_map]. rewrite !in_app_iff.
  destruct (pawn_letter p Hp) as [[Ep Eu] | [Ep Eu]]; rewrite Eu; rewrite Ep in Hshape;
    cbn [Ascii.eqb Bool.eqb] in Hshape; cbn iota in Hshape;
    cbn [negb andb orb].
  - (* white pawn *)
    destruct ((c =? tc) && (cell b tr tc =c? ".")) eqn:E1.
    + apply andb_prop in E1 as [Ec Et]. apply Z.eqb_eq in Ec. subst tc.
      rewrite Z.eqb_refl in Hj. cbn [andb] in Hj.
      destruct (tr =? r + -1) eqn:E2.
      * apply Z.eqb_eq in E2. subst tr. left. rewrite Htr, Et. by left.
      * cbn [orb] in Hshape. rewrite !andb_false_r, orb_false_r in Hshape.
        apply andb_prop in Hshape as [Hshape E4]. apply andb_prop in Hshape as [E3 _].
        apply Z.eqb_eq in E3, E4. subst r tr. right. right.
        change (Z.abs (4 - 6) =? 2) with true in Hj. cbn [andb] in Hj.
        change ((6 + 4) / 2) with 5 in Hj. apply negb_false_iff in Hj.
        cbn. change (6 + -1) with 5. change (6 + -1 * 2) with 4.
        rewrite Hj, Et. by left.
    + apply andb_prop in Hshape as [Hshape Hnt]. apply andb_prop in Hshape as [Hc Hr].
      apply Z.eqb_eq in Hr. subst tr. apply negb_true_iff in Hnt.
      rewrite Hnt in Hl. cbn [orb] in Hl. right. left.
      assert (Hcases : tc = c + -1 \/ tc = c + 1) by lia.
      destruct Hcases as [-> | ->]; [left | right; left];
        rewrite Htr, Htc, Hnt, Hl; by left.
  - (* black pawn *)
    destruct ((c =? tc) && (cell b tr tc =c? ".")) eqn:E1.
    + apply andb_prop in E1 as [Ec Et]. apply Z.eqb_eq in Ec. subst tc.
      rewrite Z.eqb_refl in Hj. cbn [andb] in Hj.
      destruct (tr =? r + 1) eqn:E2.
      * apply Z.eqb_eq in E2. subst tr. left. rewrite Htr, Et. by left.
      * cbn [orb] in Hshape. rewrite !andb_false_r in Hshape. cbn [orb] in Hshape.
        apply andb_prop in Hshape as [Hshape E4]. apply andb_prop in Hshape as [E3 _].
        apply Z.eqb_eq in E3, E4. subst r tr. right. right.
        change (Z.abs (3 - 1) =? 2) with true in Hj. cbn [andb] in Hj.
        change ((1 + 3) / 2) with 2 in Hj. apply negb_false_iff in Hj.
        cbn. change (1 + 1) with 2. change (1 + 1 * 2) with 3.
        rewrite Hj, Et. by left.
    + apply andb_prop in Hshape as [Hshape Hnt]. apply andb_prop in Hshape as [Hc Hr].
      apply Z.eqb_eq in Hr. subst tr. apply negb_true_iff in Hnt.
      rewrite Hnt in Hl. cbn [orb] in Hl. right. left.
      assert (Hcases : tc = c + -1 \/ tc = c + 1) by lia.
      destruct Hcases as [-> | ->]; [left | right; left];
        rewrite Htr, Htc, Hnt, Hl; by left.
Qed.

Lemma piece_kinds (p : ascii) :
  isCellValue p = true -> (p =c? ".") = false ->
  let t := toLowerCase p in
  (t =c? "p") || (t =c? "n") || (t =c? "b") || (t =c? "r") || (t =c? "q")
  || (t =c? "k") = true.
Proof.
  assert (H : negb (isCellValue p) || (p =c? ".")
              || (let t := toLowerCase p in
                  (t =c? "p") || (t =c? "n") || (t =c? "b") || (t =c? "r")
                  || (t =c? "q") || (t =c? "k")) = true).
  { revert p. apply forall_ascii. vm_compute. reflexivity. }
  intros E1 E2. rewrite E1, E2 in H. exact H.
Qed.

Lemma movesFrom_complete (b : board) (side : ascii) (r c tr tc : Z) :
  let p := cell b r c in
  let t2 := cell b tr tc in
  wf_board b = true -> onBoard (r, c) = true -> onBoard (tr, tc) = true ->
  (p =c? ".") = false ->
  (if side =c? "w" then p =c? toUpperCase p else p =c? toLowerCase p) = true ->
  ((r =? tr) && (c =? tc)) = false ->
  shapeAccepted b p t2 r c tr tc = true ->
  (t2 =c? ".") || (t2 =c? toUpperCase t2) = true ->
  jumpsOver b (Move (r, c) (tr, tc)) = false ->
  In (mv r c tr tc) (movesFrom b side r c).
Proof.
  intros p t2 Hwf Hf Ht Hne Hown Hsq Hshape Hl Hj.
  assert (Hlands : (t2 =c? ".") || isOpposite (pieceColor p) t2 = true)
    by (by rewrite isOpposite_pieceColor).
  pose proof (wf_cell _ _ _ Hwf Hf) as Hcv. fold p in Hcv.
  pose proof (letter_case p Hcv Hne) as Hcase.
  pose proof (piece_kinds p Hcv Hne) as Hkinds. cbn zeta in Hkinds.
  unfold movesFrom. fold p. rewrite Hne.
  replace (Bool.eqb (side =c? "w") (p =c? toUpperCase p)) with true.
  2:{ symmetry. destruct (side =c? "w").
      - by rewrite Hown.
      - rewrite Hcase, Hown. done. }
  cbn [negb].
  unfold shapeAccepted in Hshape.
  destruct (toLowerCase p =c? "p") eqn:Ep.
  { apply Ascii.eqb_eq in Ep. apply pawnMoves_complete; try done.
    unfold shapeAccepted. fold p. by rewrite Ep. }
  destruct (toLowerCase p =c? "n") eqn:En.
  { apply stepMoves_complete; [done| |done].
    assert (Hc : (tr - r = 1 /\ tc - c = 2) \/ (tr - r = 2 /\ tc - c = 1)
                 \/ (tr - r = -1 /\ tc - c = 2) \/ (tr - r = -2 /\ tc - c = 1)
                 \/ (tr - r = 1 /\ tc - c = -2) \/ (tr - r = 2 /\ tc - c = -1)
                 \/ (tr - r = -1 /\ tc - c = -2) \/ (tr - r = -2 /\ tc - c = -1)) by lia.
    unfold knightDeltas.
    repeat (destruct Hc as [[-> ->] | Hc]; [cbn; auto 10|]).
    destruct Hc as [-> ->]. cbn; auto 10. }
  destruct (toLowerCase p =c? "b") eqn:Eb.
  { cbn [orb]. apply andb_prop in Hshape as [Hd Hclear]. apply Z.eqb_eq in Hd.
    apply slideMoves_complete; try done; [lia|].
    unfold bishopDeltas, sign.
    assert (Hc : (Z.sgn (tr - r) = 1 /\ Z.sgn (tc - c) = 1)
                 \/ (Z.sgn (tr - r) = 1 /\ Z.sgn (tc - c) = -1)
                 \/ (Z.sgn (tr - r) = -1 /\ Z.sgn (tc - c) = 1)
                 \/ (Z.sgn (tr - r) = -1 /\ Z.sgn (tc - c) = -1)) by lia.
    repeat (destruct Hc as [[-> ->] | Hc]; [cbn; auto 10|]).
    destruct Hc as [-> ->]. cbn; auto 10. }
  destruct (toLowerCase p =c? "r") eqn:Er.
  { cbn [orb]. apply andb_prop in Hshape as [Hd Hclear].
    apply slideMoves_complete; try done; [lia|].
    unfold rookDeltas, sign.
    assert (Hc : (Z.sgn (tr - r) = 1 /\ Z.sgn (tc - c) = 0)
                 \/ (Z.sgn (tr - r) = -1 /\ Z.sgn (tc - c) = 0)
                 \/ (Z.sgn (tr - r) = 0 /\ Z.sgn (tc - c) = 1)
                 \/ (Z.sgn (tr - r) = 0 /\ Z.sgn (tc - c) = -1)) by lia.
    repeat (destruct Hc as [[-> ->] | Hc]; [cbn; auto 10|]).
    destruct Hc as [-> ->]. cbn; auto 10. }
  destruct (toLowerCase p =c? "q") eqn:Eq.
  { cbn [orb]. apply andb_prop in Hshape as [Hd Hclear].
    apply slideMoves_complete; try done; [lia|].
    unfold queenDeltas, bishopDeltas, rookDeltas, sign.
    assert (Hc : (Z.sgn (tr - r) = 1 /\ Z.sgn (tc - c) = 1)
                 \/ (Z.sgn (tr - r) = 1 /\ Z.sgn (tc - c) = -1)
                 \/ (Z.sgn (tr - r) = -1 /\ Z.sgn (tc - c) = 1)
                 \/ (Z.sgn (tr - r) = -1 /\ Z.sgn (tc - c) = -1)
                 \/ (Z.sgn (tr - r) = 1 /\ Z.sgn (tc - c) = 0)
                 \/ (Z.sgn (tr - r) = -1 /\ Z.sgn (tc - c) = 0)
                 \/ (Z.sgn (tr - r) = 0 /\ Z.sgn (tc - c) = 1)
                 \/ (Z.sgn (tr - r) = 0 /\ Z.sgn (tc - c) = -1)) by lia.
    repeat (destruct Hc as [[-> ->] | Hc]; [cbn; auto 10|]).
    destruct Hc as [-> ->]. cbn; auto 10. }
  cbn [orb] in *. rewrite Hkinds.
  apply stepMoves_complete; [done| |done].
  rewrite Hkinds in Hshape. apply negb_true_iff in Hshape.
  assert (Hc : (tr - r = -1 /\ tc - c = -1) \/ (tr - r = -1 /\ tc - c = 0)
               \/ (tr - r = -1 /\ tc - c = 1) \/ (tr - r = 0 /\ tc - c = -1)
               \/ (tr - r = 0 /\ tc - c = 1) \/ (tr - r = 1 /\ tc - c = -1)
               \/ (tr - r = 1 /\ tc - c = 0) \/ (tr - r = 1 /\ tc - c = 1)) by lia.
  unfold kingDeltas.
  repeat (destruct Hc as [[-> ->] | Hc]; [cbn; auto 10|]).
  destruct Hc as [-> ->]. cbn; auto 10.
Qed.

(** What [makeMoveIfLegal] accepts, the generator has: with black to move
    (a side other than ['w']), or for a move of white onto an empty cell,
    every accepted request is in the list [generateMovesForSide] returns
    for the side to move, except the pawn two-step over an occupied
    cell. *)
Theorem accepted_move_generated (m : move) (g g' : game) :
  wf_board (g_board g) = true ->
  makeMoveIfLegal m g = (Normal true, g') ->
  (g_sideToMove g =c? "w") = false
  \/ cell (g_board g) (fst (to m)) (snd (to m)) = "." ->
  jumpsOver (g_board g) m = false ->
  In m (generateMovesForSide (g_board g) (g_sideToMove g)).
Proof.
  destruct m as [[fr fc] [tr tc]]. cbn [from to fst snd]. intros Hwf H Hside Hj.
  destruct (makeMoveIfLegal_checks _ _ _ _ _ _ H)
    as (piece & target & Hp & Ht & Hne & Hown & Hfr).
  pose proof (makeMoveIfLegal_shape _ _ _ _ _ _ _ _ H Hp Ht) as Hshape.
  apply makeMoveIfLegal_accepted in H as (_ & _ & _ & _ & Hsq & _).
  destruct (index2_Some_onBoard _ _ _ _ Hwf Hp) as [Hf Ep].
  destruct (index2_Some_onBoard _ _ _ _ Hwf Ht) as [Hto Et].
  subst piece target.
  unfold generateMovesForSide. apply in_flat_map. exists fr. split.
  { apply andb_prop in Hf as [Hf _]. by apply inRange_range8. }
  apply in_flat_map. exists fc. split.
  { apply andb_prop in Hf as [_ Hf]. by apply inRange_range8. }
  apply (movesFrom_complete (g_board g) (g_sideToMove g) fr fc tr tc); try done.
  destruct (cell (g_board g) tr tc =c? ".") eqn:Etd; [done|]. cbn [orb].
  destruct Hside as [Hside | Hside]; [|by rewrite Hside in Etd].
  rewrite Hside in Hown. cbn [negb andb] in Hfr. apply Bool.eqb_false_iff in Hfr.
  pose proof (letter_case _ (wf_cell _ _ _ Hwf Hf) Hne) as Lp.
  rewrite Hown in Lp. cbn in Lp. rewrite Lp in Hfr.
  by destruct (cell (g_board g) tr tc =c? toUpperCase (cell (g_board g) tr tc)).
Qed.

Lemma accepted_move_generated_witness :
  wf_board (g_board (play [Move (6, 4) (4, 4)] initialGame)) = true
  /\ fst (makeMoveIfLegal (Move (0, 6) (2, 5)) (play [Move (6, 4) (4, 4)] initialGame))
     = Normal true
  /\ (g_sideToMove (play [Move (6, 4) (4, 4)] initialGame) =c? "w") = false
  /\ jumpsOver (g_board (play [Move (6, 4) (4, 4)] initialGame)) (Move (0, 6) (2, 5))
     = false
  /\ In (Move (0, 6) (2, 5))
       (generateMovesForSide (g_board (play [Move (6, 4) (4, 4)] initialGame))
          (g_sideToMove (play [Move (6, 4) (4, 4)] initialGame))).
Proof.
  split; [reflexivity|]. split; [reflexivity|]. split; [reflexivity|].
  split; [reflexivity|].
  apply (accepted_move_generated (Move (0, 6) (2, 5))
           (play [Move (6, 4) (4, 4)] initialGame)
           (snd (makeMoveIfLegal (Move (0, 6) (2, 5))
                   (play [Move (6, 4) (4, 4)] initialGame))));
    [reflexivity | reflexivity | left; reflexivity | reflexivity].
Defined.

(** ** The timer text *)

Lemma below_100 (P : Z -> bool) :
  forallb P (map Z.of_nat (seq 0 100)) = true ->
  forall n, 0 <= n < 100 -> P n = true.
Proof.
  intros H n Hn. rewrite forallb_forall in H. apply H.
  rewrite <- (Z2Nat.id n) by lia. apply in_map, in_seq. lia.
Qed.

(** Two digits, for a number below one hundred. *)
Lemma pad2_digits (n : Z) :
  0 <= n < 100 ->
  padStart (numberToString n) 2 "0"
  = String (digitChar (n / 10)) (String (digitChar (n mod 10)) EmptyString).
Proof.
  intros Hn.
  apply String.eqb_eq.
  revert n Hn. apply below_100. vm_compute. reflexivity.
Qed.

Lemma digitChar_inj (a b : Z) :
  0 <= a < 10 -> 0 <= b < 10 -> digitChar a = digitChar b -> a = b.
Proof.
  intros Ha Hb H.
  assert (Ea : a = 0 \/ a = 1 \/ a = 2 \/ a = 3 \/ a = 4 \/ a = 5 \/ a = 6 \/ a = 7
               \/ a = 8 \/ a = 9) by lia.
  assert (Eb : b = 0 \/ b = 1 \/ b = 2 \/ b = 3 \/ b = 4 \/ b = 5 \/ b = 6 \/ b = 7
               \/ b = 8 \/ b = 9) by lia.
  destruct Ea as [-> | [-> | [-> | [-> | [-> | [-> | [-> | [-> | [-> | ->]]]]]]]]];
    destruct Eb as [-> | [-> | [-> | [-> | [-> | [-> | [-> | [-> | [-> | ->]]]]]]]]];
    (reflexivity || (vm_compute in H; discriminate H)).
Qed.

Lemma length_string_of_uint (d : Decimal.uint) :
  String.length (NilEmpty.string_of_uint d) = Decimal.nb_digits d.
Proof. induction d; cbn; congruence. Qed.

Lemma two_digits_below_100 (d : Decimal.uint) :
  (Decimal.nb_digits d <= 2)%nat -> Z.of_uint d < 100.
Proof.
  intros H.
  destruct d as [|d|d|d|d|d|d|d|d|d|d]; cbn in H; try (vm_compute; reflexivity);
    (destruct d as [|d|d|d|d|d|d|d|d|d|d]; cbn in H; try (vm_compute; reflexivity);
     (destruct d; cbn in H; try lia; vm_compute; reflexivity)).
Qed.

(** From one hundred on the numeral has three characters or more. *)
Lemma numberToString_long (n : Z) :
  100 <= n -> (3 <= String.length (numberToString n))%nat.
Proof.
  intros Hn. unfold numberToString.
  pose proof (DecimalZ.of_to n) as Hof.
  destruct (Z.to_int n) as [d|d] eqn:E; cbn [NilZero.string_of_int].
  - cbn in Hof.
    destruct (le_lt_dec 3 (String.length (NilZero.string_of_uint d))) as [|Hlt]; [done|].
    exfalso.
    assert (Hd : (Decimal.nb_digits d <= 2)%nat).
    { destruct d; cbn in Hlt |- *; try lia;
        rewrite length_string_of_uint in Hlt; lia. }
    pose proof (two_digits_below_100 d Hd). lia.
  - exfalso. destruct n as [|p|p]; cbn in E; try done; lia.
Qed.

Lemma numberToString_inj (a b : Z) :
  0 < a -> 0 < b -> numberToString a = numberToString b -> a = b.
Proof.
  intros Ha Hb H. unfold numberToString in H.
  assert (Hnn : forall n, 0 < n ->
            NilZero.int_of_string (NilZero.string_of_int (Z.to_int n))
            = Some (Z.to_int n)).
  { intros n Hn. apply NilZero.isi.
    - destruct n as [|p|p]; cbn; try lia. intros [= Hp].
      by apply (DecimalPos.Unsigned.to_uint_nonnil p).
    - destruct n as [|p|p]; cbn; try lia. done. }
  pose proof (Hnn a Ha) as Ea. pose proof (Hnn b Hb) as Eb.
  rewrite H, Eb in Ea. injection Ea as Ea.
  rewrite <- (DecimalZ.of_to a), <- (DecimalZ.of_to b). by rewrite Ea.
Qed.

Lemma length_pad2 (n : Z) :
  0 <= n ->
  String.length (padStart (numberToString n) 2 "0")
  = if n <? 100 then 2%nat else String.length (numberToString n).
Proof.
  intros Hn. destruct (Z.ltb_spec n 100).
  - by rewrite pad2_digits by lia.
  - pose proof (numberToString_long n ltac:(lia)) as Hl.
    unfold padStart. destruct (Nat.leb_spec 2 (String.length (numberToString n))); [done|lia].
Qed.

Lemma pad2_long (n : Z) :
  100 <= n -> padStart (numberToString n) 2 "0" = numberToString n.
Proof.
  intros Hn. pose proof (numberToString_long n Hn) as Hl.
  unfold padStart. destruct (Nat.leb_spec 2 (String.length (numberToString n))); [done|lia].
Qed.

Lemma pad2_inj (a b : Z) :
  0 <= a -> 0 <= b ->
  padStart (numberToString a) 2 "0" = padStart (numberToString b) 2 "0" -> a = b.
Proof.
  intros Ha Hb H.
  pose proof (f_equal String.length H) as Hlen.
  rewrite !length_pad2 in Hlen by done.
  destruct (Z.ltb_spec a 100), (Z.ltb_spec b 100).
  - rewrite !pad2_digits in H by lia. injection H as E1 E2.
    apply digitChar_inj in E1, E2; Z.div_mod_to_equations; lia.
  - pose proof (numberToString_long b ltac:(lia)). lia.
  - pose proof (numberToString_long a ltac:(lia)). lia.
  - rewrite !pad2_long in H by done. apply numberToString_inj; [lia..|done].
Qed.

Lemma string_app_inj (s1 s2 t1 t2 : string) :
  String.length s1 = String.length s2 ->
  (s1 ++ t1 = s2 ++ t2)%string -> s1 = s2 /\ t1 = t2.
Proof.
  revert s2. induction s1 as [|a s1 IH]; intros [|b s2] Hl H; try done.
  cbn in Hl, H. injection H as -> H. injection Hl as Hl.
  destruct (IH s2 Hl H) as [-> ->]. done.
Qed.

Lemma string_length_app (s t : string) :
  String.length (s ++ t) = (String.length s + String.length t)%nat.
Proof. induction s; cbn; congruence. Qed.

(** Up to 99:59 the text is two digits of minutes, a colon and two digits
    of seconds. *)
Theorem formatTime_digits (s : Z) :
  0 <= s < 6000 ->
  formatTime s
  = String (digitChar (s / 600))
      (String (digitChar (s / 60 mod 10))
         (String ":"
            (String (digitChar (s mod 60 / 10))
               (String (digitChar (s mod 10)) EmptyString)))).
Proof.
  intros Hs. unfold formatTime.
  rewrite Z.rem_mod_nonneg by lia.
  rewrite !pad2_digits by (Z.div_mod_to_equations; lia).
  cbn [String.append].
  assert (E1 : s / 60 / 10 = s / 600) by (Z.div_mod_to_equations; lia).
  assert (E2 : (s mod 60) mod 10 = s mod 10) by (Z.div_mod_to_equations; lia).
  by rewrite E1, E2.
Qed.

Lemma formatTime_digits_witness :
  0 <= 754 < 6000 /\ formatTime 754 = "12:34"%string.
Proof.
  split; [lia|]. rewrite (formatTime_digits 754) by lia. reflexivity.
Defined.

(** The text tells the time: two counts of seconds with the same text are
    the same count.  After 99:59 the minutes take a third digit; the text
    does not wrap. *)
Theorem formatTime_injective (s1 s2 : Z) :
  0 <= s1 < 2 ^ 53 -> 0 <= s2 < 2 ^ 53 ->
  formatTime s1 = formatTime s2 -> s1 = s2.
Proof.
  intros H1 H2. unfold formatTime. rewrite !Z.rem_mod_nonneg by lia. intros H.
  assert (Hm1 : 0 <= s1 / 60) by (Z.div_mod_to_equations; lia).
  assert (Hm2 : 0 <= s2 / 60) by (Z.div_mod_to_equations; lia).
  assert (Hr1 : 0 <= s1 mod 60 < 60) by (Z.div_mod_to_equations; lia).
  assert (Hr2 : 0 <= s2 mod 60 < 60) by (Z.div_mod_to_equations; lia).
  pose proof (f_equal String.length H) as Hlen.
  rewrite !string_length_app in Hlen. cbn [String.length] in Hlen.
  rewrite (length_pad2 (s1 mod 60)), (length_pad2 (s2 mod 60)) in Hlen by lia.
  replace (s1 mod 60 <? 100) with true in Hlen by lia.
  replace (s2 mod 60 <? 100) with true in Hlen by lia.
  apply string_app_inj in H as [Hmm Hss]; [|lia].
  cbn [String.append] in Hss. injection Hss as Hss.
  apply pad2_inj in Hmm, Hss; try lia.
  Z.div_mod_to_equations. lia.
Qed.

Lemma formatTime_injective_witness :
  formatTime 5999 = "99:59"%string
  /\ formatTime 6000 = "100:00"%string
  /\ (0 <= 6000 < 2 ^ 53 /\ 6000 = 6000).
Proof.
  split; [reflexivity|]. split; [reflexivity|]. split; [lia|].
  apply (formatTime_injective 6000 6000); (lia || reflexivity).
Defined.

(** The timer of the second script shows the whole seconds elapsed since
    [startTime], as two digits of minutes and two of seconds, for the
    first hundred minutes. *)
Theorem timerCallback_digits (now startTime : Z) :
  startTime <= now < startTime + 6000000 ->
  let diff := (now - startTime) / 1000 in
  timerCallback now startTime
  = String (digitChar (diff / 600))
      (String (digitChar (diff / 60 mod 10))
         (String ":"
            (String (digitChar (diff mod 60 / 10))
               (String (digitChar (diff mod 10)) EmptyString)))).
Proof.
  intros Hn diff.
  assert (Hd : 0 <= diff < 6000) by (subst diff; Z.div_mod_to_equations; lia).
  unfold timerCallback. fold diff.
  rewrite Z.rem_mod_nonneg by lia.
  rewrite !pad2_digits by (Z.div_mod_to_equations; lia).
  cbn [String.append].
  assert (E1 : diff / 60 / 10 = diff / 600) by (Z.div_mod_to_equations; lia).
  assert (E2 : (diff mod 60) mod 10 = diff mod 10) by (Z.div_mod_to_equations; lia).
  by rewrite E1, E2.
Qed.

Lemma timerCallback_digits_witness :
  1000 <= 84999 < 1000 + 6000000 /\ timerCallback 84999 1000 = "01:23"%string.
Proof.
  split; [lia|]. rewrite (timerCallback_digits 84999 1000) by lia. reflexivity.
Defined.

(** ** Difficulty *)

(** The depth [aiMove] hands to [minimaxRoot] is one of 1 to 5. *)
Lemma aiDepth_positive (v : Z) : (1 <= aiDepth v <= 5)%nat.
Proof.
  unfold aiDepth, DIFFICULTIES.
  destruct (v =? 1); [cbn; lia|]. destruct (v =? 2); [cbn; lia|].
  destruct (v =? 3); [cbn; lia|]. destruct (v =? 4); [cbn; lia|].
  destruct (v =? 5); cbn; lia.
Qed.


(** ** The automated opponent *)

Lemma world0_board (B : board) :
  isBoard (heap (snd (world0 B))) (fst (world0 B)) = true
  /\ readBoard (heap (snd (world0 B))) (fst (world0 B)) = B.
Proof.
  unfold world0, storeBoard. cbn [fst snd heap length Nat.add].
  split.
  - apply (isBoard_boardObjs [] B).
  - apply (readBoard_boardObjs [] B).
Qed.

Lemma random_index (random : Q) (n : nat) :
  (0 <= random)%Q -> (random < 1)%Q -> (0 < n)%nat ->
  0 <= Qfloor (random * inject_Z (Z.of_nat n)) < Z.of_nat n.
Proof.
  intros H0 H1 Hn.
  set (x := (random * inject_Z (Z.of_nat n))%Q).
  assert (Hn' : (0 < inject_Z (Z.of_nat n))%Q).
  { change 0%Q with (inject_Z 0). rewrite <- Zlt_Qlt. lia. }
  assert (Hx0 : (0 <= x)%Q).
  { subst x. apply Qmult_le_0_compat; [done|]. by apply Qlt_le_weak. }
  assert (Hx1 : (x < inject_Z (Z.of_nat n))%Q).
  { subst x. rewrite <- (Qmult_1_l (inject_Z (Z.of_nat n))) at 2.
    by apply Qmult_lt_compat_r. }
  split.
  - rewrite <- (Qfloor_Z 0). by apply Qfloor_resp_le.
  - rewrite Zlt_Qlt. eapply Qle_lt_trans; [apply Qfloor_le|done].
Qed.

(** With black to move a generated move of black is committed. *)
Lemma generated_black_commits (g : game) (m : move) :
  wf_board (g_board g) = true ->
  g_sideToMove g = "b" ->
  In m (generateMovesForSide (g_board g) "b") ->
  exists g', makeMoveIfLegal m g = (Normal true, g') /\ g_sideToMove g' = "w".
Proof.
  intros Hwf Hside Hin.
  destruct (generated_moves_shape _ _ _ Hin) as (Hon & Hp & Hs & Hl).
  apply generated_from in Hin as (r & c & Hr & Hc & Hin).
  destruct (movesFrom_emitted _ _ _ _ _ Hr Hc Hin) as ([Hfrom _] & _ & _).
  rewrite Hfrom in Hon, Hp, Hs. cbn [fst snd] in Hp, Hs.
  change ("b" =c? "w") with false in Hs. symmetry in Hs.
  destruct (movesFrom_pass _ _ _ _ Hwf Hs Hin) as (_ & Hsq & Hshape).
  unfold landsOnEmptyOrWhite in Hl. apply andb_prop in Hl as [Hto Hl].
  destruct m as [[fr fc] [tr tc]]. cbn [from to fst snd] in *.
  injection Hfrom as -> ->.
  rewrite (makeMoveIfLegal_commits g r c tr tc (cell (g_board g) r c)
             (cell (g_board g) tr tc)); try done.
  - eexists. split; [reflexivity|]. cbn. by rewrite Hside.
  - by apply index2_onBoard.
  - by apply index2_onBoard.
  - rewrite Hside. change ("b" =c? "w") with false. cbn iota.
    by apply lower_of_not_upper.
  - rewrite Hs. destruct (cell (g_board g) tr tc =c? "."); [done|].
    cbn [orb] in Hl. by rewrite Hl.
Qed.

(** With white to move a generated move of black is turned down. *)
Lemma generated_black_rejected (g : game) (m : move) :
  wf_board (g_board g) = true ->
  g_sideToMove g = "w" ->
  In m (generateMovesForSide (g_board g) "b") ->
  makeMoveIfLegal m g = (Normal false, g).
Proof.
  intros Hwf Hside Hin.
  destruct (generated_moves_shape _ _ _ Hin) as (Hon & Hp & Hs & _).
  destruct m as [[fr fc] [tr tc]]. cbn [from to fst snd] in *.
  change ("b" =c? "w") with false in Hs.
  unfold makeMoveIfLegal, bind, lift, ret, getBoard, getSide. cbn [from to].
  rewrite (index2_onBoard _ _ _ Hwf Hon). unfold isChar, isPieceOwnedBySide, isChar.
  by rewrite Hp, Hside, <- Hs.
Qed.

Lemma wf_after_accept (m : move) (g g' : game) :
  wf_board (g_board g) = true ->
  makeMoveIfLegal m g = (Normal true, g') ->
  wf_board (g_board g') = true.
Proof.
  intros Hwf H.
  destruct (accepted_commit _ _ _ H) as (piece & target & Hp & _ & -> & _).
  destruct (index2_Some_onBoard _ _ _ _ Hwf Hp) as [Hf _].
  apply wf_moveOnBoard; [done|]. by destruct (from m).
Qed.

(** What [aiMove] does with the move it has chosen. *)
Lemma aiMove_play_accepted (m : move) (p : page) (g' : game) :
  makeMoveIfLegal m (p_game p) = (Normal true, g') ->
  g_sideToMove g' = "w" ->
  exists p',
    (_ <- makeMoveIfLegalP m ;; pdo (fun p => postMoveActions (renderBoard p)))%page p
    = (Normal tt, p')
    /\ p_game p' = g'
    /\ aiTimers p' = aiTimers p
    /\ selectedCell p' = selectedCell p
    /\ boardEl p' = boardEl (renderBoard p')
    /\ movesEl p' = movesEl (updateMovesUI p').
Proof.
  intros H Hside. unfold pbind, makeMoveIfLegalP, pdo. rewrite H.
  eexists. split; [reflexivity|].
  unfold postMoveActions. cbn [renderBoard updateMovesUI set_game set_boardEl
    set_movesEl p_game]. rewrite Hside. change ("w" =c? "b") with false. cbn iota.
  by repeat split.
Qed.

Lemma aiMove_play_rejected (m : move) (p : page) :
  makeMoveIfLegal m (p_game p) = (Normal false, p_game p) ->
  g_sideToMove (p_game p) = "w" ->
  exists p',
    (_ <- makeMoveIfLegalP m ;; pdo (fun p => postMoveActions (renderBoard p)))%page p
    = (Normal tt, p')
    /\ p_game p' = p_game p
    /\ aiTimers p' = aiTimers p
    /\ selectedCell p' = selectedCell p.
Proof.
  intros H Hside. unfold pbind, makeMoveIfLegalP, pdo. rewrite H.
  eexists. split; [reflexivity|].
  unfold postMoveActions. cbn [renderBoard set_game set_boardEl p_game].
  rewrite Hside. change ("w" =c? "b") with false. cbn iota.
  by repeat split.
Qed.

(** The move [aiMove] picks is one of the generated moves of black, and
    there is one whenever the list is not empty. *)
Lemma aiMove_choice (clock : nat -> Z) (difficulty : Z) (random : Q) (p : page) :
  (0 <= random)%Q -> (random < 1)%Q ->
  let legal := generateMovesForSide (g_board (p_game p)) "b" in
  let play (mv : move) : P unit :=
    (_ <- makeMoveIfLegalP mv ;;
     pdo (fun p => postMoveActions (renderBoard p)))%page in
  match legal with
  | [] => aiMove clock difficulty random p = (Normal tt, p)
  | _ :: _ => exists m, In m legal /\ aiMove clock difficulty random p = play m p
  end.
Proof.
  intros H0 H1 legal play. unfold aiMove. fold legal. fold play.
  destruct (difficulty =? 1).
  - destruct legal as [|m0 ms] eqn:El; [done|].
    pose proof (random_index random (length (m0 :: ms)) H0 H1 ltac:(cbn; lia))
      as [Hi0 Hi1].
    unfold idx. destruct (Z.leb_spec 0 (Qfloor (random * inject_Z (Z.of_nat (length (m0 :: ms)))))); [|lia].
    destruct ((m0 :: ms) !! Z.to_nat _) as [mv|] eqn:E.
    + exists mv. split; [|done]. apply list_elem_of_In. by eapply list_elem_of_lookup_2.
    + apply lookup_ge_None in E. lia.
  - pose proof (world0_board (g_board (p_game p))) as [Hb Hread].
    destruct (world0 (g_board (p_game p))) as [b w]. cbn [fst snd] in Hb, Hread.
    pose proof (minimaxRoot_move clock b (aiDepth difficulty) "b"
                  (timeBudget (aiDepth difficulty)) w) as Hm.
    cbn zeta in Hm. rewrite Hread in Hm. fold legal in Hm.
    destruct (fst (minimaxRoot clock b (aiDepth difficulty) "b" _ w)) as [m|].
    + apply in_sortBy_captureOrder in Hm.
      destruct legal; [done|]. by exists m.
    + destruct legal as [|x l]; [done|].
      assert (Hin : In x (sortBy (captureOrder (g_board (p_game p))) (x :: l)))
        by (apply in_sortBy_captureOrder; by left).
      by rewrite Hm in Hin.
Qed.

(** On black's turn [aiMove] plays one move for black: a move of the
    list the generator returns for black, which [makeMoveIfLegal]
    accepts.  The turn goes to white, no further [aiMove] is scheduled,
    the new board and the move list are drawn.  When the generator has
    no move for black, [aiMove] changes nothing. *)
Theorem aiMove_plays_black (clock : nat -> Z) (difficulty : Z) (random : Q)
    (p : page) :
  wf_board (g_board (p_game p)) = true ->
  g_sideToMove (p_game p) = "b" ->
  (0 <= random)%Q -> (random < 1)%Q ->
  match generateMovesForSide (g_board (p_game p)) "b" with
  | [] => aiMove clock difficulty random p = (Normal tt, p)
  | legal =>
      exists m p',
        aiMove clock difficulty random p = (Normal tt, p')
        /\ In m legal
        /\ makeMoveIfLegal m (p_game p) = (Normal true, p_game p')
        /\ g_sideToMove (p_game p') = "w"
        /\ aiTimers p' = aiTimers p
        /\ selectedCell p' = selectedCell p
        /\ boardEl p' = boardEl (renderBoard p')
        /\ movesEl p' = movesEl (updateMovesUI p')
  end.
Proof.
  intros Hwf Hside H0 H1.
  pose proof (aiMove_choice clock difficulty random p H0 H1) as Hc. cbn zeta in Hc.
  destruct (generateMovesForSide (g_board (p_game p)) "b") as [|m0 ms] eqn:El; [done|].
  destruct Hc as (m & Hin & ->).
  destruct (generated_black_commits (p_game p) m Hwf Hside) as (g' & Hacc & Hw).
  { by rewrite El. }
  destruct (aiMove_play_accepted m p g' Hacc Hw) as (p' & E & Hg & Ht & Hsel & Hb & Hm).
  exists m, p'. rewrite Hg. by repeat split.
Qed.

(** With white to move [aiMove] moves nothing: the moves it generates are
    black's, [makeMoveIfLegal] turns them down, and no further [aiMove] is
    scheduled. *)
Theorem aiMove_idle_on_white_turn (clock : nat -> Z) (difficulty : Z)
    (random : Q) (p : page) :
  wf_board (g_board (p_game p)) = true ->
  g_sideToMove (p_game p) = "w" ->
  (0 <= random)%Q -> (random < 1)%Q ->
  exists p',
    aiMove clock difficulty random p = (Normal tt, p')
    /\ p_game p' = p_game p
    /\ aiTimers p' = aiTimers p
    /\ selectedCell p' = selectedCell p.
Proof.
  intros Hwf Hside H0 H1.
  pose proof (aiMove_choice clock difficulty random p H0 H1) as Hc. cbn zeta in Hc.
  destruct (generateMovesForSide (g_board (p_game p)) "b") as [|m0 ms] eqn:El.
  - exists p. by rewrite Hc.
  - destruct Hc as (m & Hin & ->).
    apply aiMove_play_rejected; [|done].
    apply generated_black_rejected; [done..|]. by rewrite El.
Qed.

(** ** A click on a square *)

Lemma set_game_same (p : page) : set_game p (p_game p) = p.
Proof. by destruct p. Qed.

Lemma clear_shownSquare (p : page) (r c : Z) :
  set_outline (shownSquare p r c) "" = renderSquare (g_board (p_game p)) r c.
Proof.
  unfold shownSquare. destruct (selectedCell p) as [[sr sc]|]; [|done].
  by destruct ((sr =? r) && (sc =? c)).
Qed.

Lemma map_flat_map {A B C} (f : B -> C) (g : A -> list B) (l : list A) :
  map f (flat_map g l) = flat_map (fun x => map f (g x)) l.
Proof. induction l as [|x l IH]; [done|]. cbn. by rewrite map_app, IH. Qed.

Lemma clear_shown (p : page) :
  map (fun s => set_outline s "")
    (flat_map (fun r => map (fun c => shownSquare p r c) range8) range8)
  = flat_map (fun r => map (fun c => renderSquare (g_board (p_game p)) r c) range8)
      range8.
Proof.
  rewrite map_flat_map. apply flat_map_ext. intros r.
  rewrite map_map. apply map_ext. intros c. apply clear_shownSquare.
Qed.

(** The square at index [r * 8 + c] of the rendered board is the square
    of the cell [(r, c)]. *)
Lemma outline_at (b : board) (r c : Z) :
  inRange r = true -> inRange c = true ->
  let R := flat_map (fun r0 => map (fun c0 => renderSquare b r0 c0) range8) range8 in
  idx R (r * 8 + c) = Some (renderSquare b r c)
  /\ upd R (r * 8 + c) (set_outline (renderSquare b r c) outlineStyle)
     = flat_map
         (fun r0 =>
            map (fun c0 =>
                   if (r =? r0) && (c =? c0)
                   then set_outline (renderSquare b r0 c0) outlineStyle
                   else renderSquare b r0 c0)
              range8)
         range8.
Proof.
  intros Hr Hc.
  destruct (inRange_cases r Hr) as [-> | [-> | [-> | [-> | [-> | [-> | [-> | ->]]]]]]];
    destruct (inRange_cases c Hc) as [-> | [-> | [-> | [-> | [-> | [-> | [-> | ->]]]]]]];
    split; reflexivity.
Qed.

Lemma highlight_shows (p : page) (r c : Z) :
  shows p -> onBoard (r, c) = true ->
  exists p',
    highlightSelection (set_selectedCell p (Some (r, c))) = (Normal tt, p')
    /\ p_game p' = p_game p
    /\ movesEl p' = movesEl p
    /\ selectedCell p' = Some (r, c)
    /\ shows p'.
Proof.
  intros Hs Hon. apply andb_prop in Hon as [Hr Hc]. cbn [fst snd] in Hr, Hc.
  unfold highlightSelection.
  cbn [set_selectedCell selectedCell boardEl set_boardEl].
  rewrite Hs, clear_shown.
  destruct (outline_at (g_board (p_game p)) r c Hr Hc) as [E1 E2].
  cbn zeta in E1, E2. rewrite E1, E2.
  eexists. split; [reflexivity|]. split; [done|]. split; [done|]. split; [done|].
  unfold shows, shownSquare. cbn [boardEl p_game selectedCell]. done.
Qed.

Lemma render_shows (p : page) :
  selectedCell p = None -> shows (renderBoard p).
Proof.
  intros H. unfold shows, renderBoard, shownSquare.
  cbn [boardEl set_boardEl p_game selectedCell]. by rewrite H.
Qed.

Lemma shown_square_cell (p : page) (i : nat) (this : square) :
  shows p -> boardEl p !! i = Some this ->
  onBoard (sq_r this, sq_c this) = true.
Proof.
  intros Hs Hi. apply list_elem_of_lookup_2, list_elem_of_In in Hi.
  rewrite Hs in Hi. apply in_flat_map in Hi as (r & Hr & Hi).
  apply in_map_iff in Hi as (c & <- & Hc).
  apply in_range8 in Hr, Hc.
  replace (sq_r (shownSquare p r c)) with r.
  2:{ unfold shownSquare. destruct (selectedCell p) as [[sr sc]|]; [|done].
      by destruct ((sr =? r) && (sc =? c)). }
  replace (sq_c (shownSquare p r c)) with c.
  2:{ unfold shownSquare. destruct (selectedCell p) as [[sr sc]|]; [|done].
      by destruct ((sr =? r) && (sc =? c)). }
  unfold onBoard. cbn [fst snd]. by rewrite Hr, Hc.
Qed.

Lemma selectIfOwned_shows (p : page) (r c : Z) :
  wf_board (g_board (p_game p)) = true -> shows p -> selectionOnBoard p ->
  onBoard (r, c) = true ->
  exists p',
    selectIfOwned (Some (cell (g_board (p_game p)) r c)) r c p = (Normal tt, p')
    /\ p_game p' = p_game p
    /\ movesEl p' = movesEl p
    /\ shows p' /\ selectionOnBoard p'.
Proof.
  intros Hwf Hs Hsel Hon. unfold selectIfOwned, isChar, isPieceOwnedBySide, isChar.
  destruct (cell (g_board (p_game p)) r c =c? "."); cbn [negb]; [by exists p|].
  destruct (if g_sideToMove (p_game p) =c? "w" then _ else _); [|by exists p].
  destruct (highlight_shows p r c Hs Hon) as (p' & E & Hg & Hml & Hsl & Hsh).
  exists p'. split; [done|]. split; [done|]. split; [done|]. split; [done|].
  unfold selectionOnBoard. by rewrite Hsl.
Qed.

(** A click on a square of a page that shows its game returns normally and
    leaves a page that shows its game: the board stays 8x8, every square
    shows the piece of its cell, the outline is on the selected cell and
    nowhere else, and the move list shown is the move list of the game. *)
Theorem click_keeps_page_shown (p : page) (i : nat) (this : square) :
  wf_board (g_board (p_game p)) = true ->
  shows p -> lists p -> selectionOnBoard p ->
  boardEl p !! i = Some this ->
  exists p',
    onSquareClick this p = (Normal tt, p')
    /\ wf_board (g_board (p_game p')) = true
    /\ shows p' /\ lists p' /\ selectionOnBoard p'.
Proof.
  intros Hwf Hs Hl Hsel Hi.
  pose proof (shown_square_cell p i this Hs Hi) as Hon.
  assert (Hkeep : forall p', p_game p' = p_game p -> movesEl p' = movesEl p -> lists p').
  { intros p' Hg Hm. unfold lists, updateMovesUI in *.
    cbn [movesEl set_movesEl] in *. by rewrite Hg, Hm. }
  unfold onSquareClick. rewrite (index2_onBoard _ _ _ Hwf Hon).
  destruct (selectedCell p) as [[sr sc]|] eqn:Esel.
  - destruct ((sr =? sq_r this) && (sc =? sq_c this)).
    { eexists. split; [reflexivity|]. split; [done|].
      split; [by apply render_shows|]. split; [by apply Hkeep|]. done. }
    unfold selectionOnBoard in Hsel. rewrite Esel in Hsel.
    destruct (makeMoveIfLegal_cells sr sc (sq_r this) (sq_c this) (p_game p) Hwf Hsel Hon)
      as (ok & g' & E).
    unfold pbind, makeMoveIfLegalP. rewrite E. destruct ok.
    + unfold pdo. eexists. split; [reflexivity|].
      assert (Hwf' : wf_board (g_board g') = true) by (by eapply wf_after_accept).
      unfold postMoveActions.
      set (q := renderBoard (renderBoard (set_selectedCell (updateMovesUI (set_game p g')) None))).
      assert (Hq : shows q) by (by apply render_shows).
      assert (Hg : p_game q = g') by done.
      assert (Hn : selectedCell q = None) by done.
      assert (Hlq : lists q) by done.
      destruct (g_sideToMove (p_game q) =c? "b").
      * split; [by rewrite <- Hg in Hwf'|]. split; [exact Hq|]. split; [exact Hlq|].
        unfold selectionOnBoard. cbn [set_aiTimers selectedCell]. by rewrite Hn.
      * split; [by rewrite <- Hg in Hwf'|]. split; [exact Hq|]. split; [exact Hlq|].
        unfold selectionOnBoard. by rewrite Hn.
    + apply makeMoveIfLegal_unchanged in E as ->; [|done]. rewrite set_game_same.
      destruct (selectIfOwned_shows p (sq_r this) (sq_c this) Hwf Hs)
        as (p' & E' & Hg & Hml & Hsh & Hsl);
        [by unfold selectionOnBoard; rewrite Esel|done|].
      exists p'. rewrite Hg. split; [done|]. split; [done|]. split; [done|].
      split; [by apply Hkeep|done].
  - destruct (selectIfOwned_shows p (sq_r this) (sq_c this) Hwf Hs)
      as (p' & E' & Hg & Hml & Hsh & Hsl);
      [by unfold selectionOnBoard; rewrite Esel|done|].
    exists p'. rewrite Hg. split; [done|]. split; [done|]. split; [done|].
    split; [by apply Hkeep|done].
Qed.

Lemma click_keeps_page_shown_witness :
  wf_board (g_board (p_game (pageOf initialGame))) = true
  /\ shows (pageOf initialGame)
  /\ lists (pageOf initialGame)
  /\ selectionOnBoard (pageOf initialGame)
  /\ boardEl (pageOf initialGame) !! 52%nat = Some (renderSquare initialBoard 6 4)
  /\ exists p',
       onSquareClick (renderSquare initialBoard 6 4) (pageOf initialGame)
       = (Normal tt, p')
       /\ wf_board (g_board (p_game p')) = true
       /\ shows p' /\ lists p' /\ selectionOnBoard p'.
Proof.
  split; [reflexivity|]. split; [reflexivity|]. split; [reflexivity|].
  split; [exact I|]. split; [reflexivity|].
  apply (click_keeps_page_shown (pageOf initialGame) 52 (renderSquare initialBoard 6 4));
    [reflexivity | reflexivity | reflexivity | exact I | reflexivity].
Defined.

Lemma aiMove_plays_black_witness :
  wf_board (g_board (p_game (pageOf afterE4))) = true
  /\ g_sideToMove (p_game (pageOf afterE4)) = "b"
  /\ (0 <= 1 # 2)%Q /\ (1 # 2 < 1)%Q
  /\ exists m p',
       aiMove frozenClock 1 (1 # 2) (pageOf afterE4) = (Normal tt, p')
       /\ In m (generateMovesForSide (g_board afterE4) "b")
       /\ makeMoveIfLegal m afterE4 = (Normal true, p_game p')
       /\ g_sideToMove (p_game p') = "w"
       /\ aiTimers p' = 0%nat.
Proof.
  split; [reflexivity|]. split; [reflexivity|].
  split; [unfold Qle; simpl; lia|]. split; [unfold Qlt; simpl; lia|].
  pose proof (aiMove_plays_black frozenClock 1 (1 # 2) (pageOf afterE4)
                eq_refl eq_refl ltac:(unfold Qle; simpl; lia)
                ltac:(unfold Qlt; simpl; lia)) as H.
  change (g_board (p_game (pageOf afterE4))) with (g_board afterE4) in H.
  destruct (generateMovesForSide (g_board afterE4) "b") as [|m0 ms] eqn:El;
    [vm_compute in El; discriminate El|].
  destruct H as (m & p' & H1 & H2 & H3 & H4 & H5 & _).
  exists m, p'. repeat split; assumption.
Defined.

Lemma aiMove_idle_on_white_turn_witness :
  wf_board (g_board (p_game (pageOf initialGame))) = true
  /\ g_sideToMove (p_game (pageOf initialGame)) = "w"
  /\ (0 <= 1 # 2)%Q /\ (1 # 2 < 1)%Q
  /\ exists p',
       aiMove frozenClock 1 (1 # 2) (pageOf initialGame) = (Normal tt, p')
       /\ p_game p' = initialGame
       /\ aiTimers p' = 0%nat.
Proof.
  split; [reflexivity|]. split; [reflexivity|].
  split; [unfold Qle; simpl; lia|]. split; [unfold Qlt; simpl; lia|].
  destruct (aiMove_idle_on_white_turn frozenClock 1 (1 # 2) (pageOf initialGame)
              eq_refl eq_refl ltac:(unfold Qle; simpl; lia)
              ltac:(unfold Qlt; simpl; lia)) as (p' & H1 & H2 & H3 & _).
  exists p'. repeat split; assumption.
Defined.

(** ** Redrawing under a selection *)

Lemma render_not_shown (p : page) (r c : Z) :
  selectedCell p = Some (r, c) -> onBoard (r, c) = true ->
  ~ shows (renderBoard p).
Proof.
  intros Hsel Hon Hs. apply andb_prop in Hon as [Hr Hc]. cbn [fst snd] in Hr, Hc.
  unfold shows in Hs.
  assert (Hg : p_game (renderBoard p) = p_game p) by done.
  assert (Hsl : selectedCell (renderBoard p) = Some (r, c)) by done.
  assert (Hin : In (shownSquare (renderBoard p) r c) (boardEl (renderBoard p))).
  { rewrite Hs. apply in_flat_map. exists r. split; [by apply inRange_range8|].
    apply in_map_iff. exists c. split; [done|]. by apply inRange_range8. }
  cbn [renderBoard boardEl set_boardEl] in Hin.
  apply in_flat_map in Hin as (r0 & _ & Hin).
  apply in_map_iff in Hin as (c0 & E & _).
  apply (f_equal sq_outline) in E.
  unfold shownSquare in E. rewrite Hsl, !Z.eqb_refl in E. cbn in E. done.
Qed.

(** The undo and restart handlers redraw the board and keep
    [selectedCell]: a cell selected before stays selected, and the board
    shown no longer has its outline. *)
Theorem redraw_keeps_selection_without_outline (p : page) (r c : Z) :
  selectedCell p = Some (r, c) -> onBoard (r, c) = true ->
  g_moves (p_game p) <> [] ->
  selectedCell (undoHandler p) = Some (r, c)
  /\ selectedCell (restartHandler p) = Some (r, c)
  /\ Forall (fun s => sq_outline s = EmptyString) (boardEl (undoHandler p))
  /\ Forall (fun s => sq_outline s = EmptyString) (boardEl (restartHandler p))
  /\ ~ shows (undoHandler p) /\ ~ shows (restartHandler p).
Proof.
  intros Hsel Hon Hm.
  assert (Hout : forall q, Forall (fun s => sq_outline s = EmptyString)
                             (boardEl (renderBoard q))).
  { intros q. apply Forall_forall. intros s Hin. apply list_elem_of_In in Hin.
    cbn [renderBoard boardEl set_boardEl] in Hin.
    apply in_flat_map in Hin as (r0 & _ & Hin).
    by apply in_map_iff in Hin as (c0 & <- & _). }
  unfold undoHandler. destruct (g_moves (p_game p)) as [|e es] eqn:E; [done|].
  unfold restartHandler.
  split; [done|]. split; [done|].
  split; [apply (Hout (set_game p _))|].
  split; [apply (Hout (set_seconds (set_game p _) 0))|].
  split.
  - intros Hs.
    apply (render_not_shown (set_game p (snd (undoClick (p_game p)))) r c); [done..|].
    exact Hs.
  - intros Hs.
    apply (render_not_shown (set_seconds (set_game p (snd (restartClick (p_game p)))) 0) r c);
      [done..|].
    exact Hs.
Qed.

Lemma redraw_keeps_selection_without_outline_witness :
  selectedCell (set_selectedCell (pageOf afterE4) (Some (1, 4))) = Some (1, 4)
  /\ onBoard (1, 4) = true
  /\ selectedCell (undoHandler (set_selectedCell (pageOf afterE4) (Some (1, 4))))
     = Some (1, 4)
  /\ g_sideToMove (p_game (undoHandler (set_selectedCell (pageOf afterE4) (Some (1, 4)))))
     = "w"
  /\ Forall (fun s => sq_outline s = EmptyString)
       (boardEl (undoHandler (set_selectedCell (pageOf afterE4) (Some (1, 4))))).
Proof.
  split; [reflexivity|]. split; [reflexivity|].
  destruct (redraw_keeps_selection_without_outline
              (set_selectedCell (pageOf afterE4) (Some (1, 4))) 1 4
              eq_refl eq_refl ltac:(discriminate)) as (H1 & _ & H3 & _).
  split; [exact H1|]. split; [reflexivity|exact H3].
Defined.

(** ** The timer *)

(** From [startTimer], and from a restart, the timer shows after [n]
    ticks the text of [n] seconds; the ticks touch nothing else. *)
Lemma timer_shows_ticks (p q : page) (n : nat) :
  q = startTimer p \/ q = restartHandler p ->
  (0 < n)%nat ->
  let q' := Nat.iter n timerTick q in
  seconds q' = Z.of_nat n
  /\ timerEl q' = formatTime (Z.of_nat n)
  /\ p_game q' = p_game q /\ selectedCell q' = selectedCell q
  /\ boardEl q' = boardEl q /\ movesEl q' = movesEl q /\ aiTimers q' = aiTimers q.
Proof.
  intros Hq Hn q'.
  assert (H0 : seconds q = 0) by (by destruct Hq as [-> | ->]).
  assert (Hk : forall k,
            seconds (Nat.iter k timerTick q) = Z.of_nat k
            /\ p_game (Nat.iter k timerTick q) = p_game q
            /\ selectedCell (Nat.iter k timerTick q) = selectedCell q
            /\ boardEl (Nat.iter k timerTick q) = boardEl q
            /\ movesEl (Nat.iter k timerTick q) = movesEl q
            /\ aiTimers (Nat.iter k timerTick q) = aiTimers q).
  { induction k as [|k (IH1 & IH2 & IH3 & IH4 & IH5 & IH6)]; [by repeat split|].
    rewrite !Nat.iter_succ. remember (Nat.iter k timerTick q) as x eqn:Ex.
    unfold timerTick.
    cbn [seconds set_seconds set_timerEl p_game selectedCell boardEl movesEl aiTimers].
    rewrite IH1. repeat split; try done. lia. }
  destruct (Hk n) as (K1 & K2 & K3 & K4 & K5 & K6).
  split; [done|]. split; [|by repeat split].
  subst q'. destruct n as [|k]; [lia|].
  rewrite Nat.iter_succ. destruct (Hk k) as (Hs & _).
  remember (Nat.iter k timerTick q) as x eqn:Ex. unfold timerTick.
  cbn [timerEl set_timerEl set_seconds seconds]. rewrite Hs. f_equal. lia.
Qed.

(** ** The opponent of the second script *)

(** [getBestMove] returns one of the moves [game.moves()] lists, whatever
    the level, and [undefined] when the list is empty. *)
Theorem getBestMove_draws_listed_move (moves : list string) (level : Z)
    (random : Q) :
  (0 <= random)%Q -> (random < 1)%Q ->
  match moves with
  | [] => getBestMove moves level random = None
  | _ :: _ => exists m, getBestMove moves level random = Some m /\ In m moves
  end.
Proof.
  intros H0 H1. unfold getBestMove.
  destruct moves as [|m0 ms] eqn:E.
  - cbn [length]. unfold idx. by destruct (0 <=? _).
  - pose proof (random_index random (length (m0 :: ms)) H0 H1 ltac:(cbn; lia))
      as [Hi0 Hi1].
    unfold idx.
    destruct (Z.leb_spec 0 (Qfloor (random * inject_Z (Z.of_nat (length (m0 :: ms))))));
      [|lia].
    destruct ((m0 :: ms) !! Z.to_nat _) as [mv|] eqn:El.
    + exists mv. split; [done|]. apply list_elem_of_In. by eapply list_elem_of_lookup_2.
    + apply lookup_ge_None in El. lia.
Qed.

Lemma getBestMove_draws_listed_move_witness :
  (0 <= 2 # 3)%Q /\ (2 # 3 < 1)%Q
  /\ getBestMove ["e5"; "Nf6"; "d5"]%string 1 (2 # 3) = Some "d5"%string
  /\ exists m,
       getBestMove ["e5"; "Nf6"; "d5"]%string 1 (2 # 3) = Some m
       /\ In m ["e5"; "Nf6"; "d5"]%string.
Proof.
  split; [unfold Qle; simpl; lia|]. split; [unfold Qlt; simpl; lia|].
  split; [reflexivity|].
  apply (getBestMove_draws_listed_move ["e5"; "Nf6"; "d5"]%string 1 (2 # 3));
    [unfold Qle; simpl; lia | unfold Qlt; simpl; lia].
Defined.
